(** * ALOHA protocol simulation (aloha.py): shallow embedding and properties

    The program simulates stations that share one channel.  Every station
    generates messages, transmits each as a frame, detects collisions by the
    overlap of the frames that are in transmit at the same time, and retries
    after a random back-off.

    Layout of this file:
    - the data model of aloha.py (Arrival, Frame, Station, the class-level
      dictionary [frames_in_transmit]);
    - the event queue of the simpy environment the program runs on, and the
      generator functions of [Station] as continuations, one per [yield];
    - the reports computed at the end of a replication;
    - the properties. *)

From Stdlib Require Import ZArith QArith Lia.
From stdpp Require Import gmap list.

Open Scope Z_scope.

(** ** Constants (aloha.py, lines 10-14) *)

Definition NUM_STATIONS : nat := 8.
Definition NUM_REPLICATIONS : nat := 10.
Definition TRANSIENT_TIME : Z := 25.
Definition TERMINATE_TIME : Z := 10000.
Definition STEADY_STATE_TIME : Z := TERMINATE_TIME - TRANSIENT_TIME.

(** ** Data model *)

(** [class Arrival]: the name is ['Frame %d' % i]; the text is determined by
    the number [i], which stands for it here. *)
Record Arrival := mkArrival { a_name : nat; a_time : Z }.

(** [class Frame].  The field [end] of the source is [end_] here. *)
Record Frame := mkFrame {
  start : Z;
  end_ : Z;
  frame_time : Z;
  retry : bool
}.

(** Frame objects are shared between the dictionary [frames_in_transmit] and
    the local variable [frame] of [transmit]; they live in a store of objects
    and are named by their position in it. *)
Abbreviation ref := nat.

(** The key [(self.name, name)] of a frame in transmit, that is
    [('Station %d' % s, 'Frame %d' % i)], is the pair [(s, i)]. *)
Abbreviation frame_id := (nat * nat)%type.

Definition set_retry (o : Frame) : Frame :=
  {| start := start o; end_ := end_ o; frame_time := frame_time o; retry := true |}.

(** ** [Station.check_collision] (lines 125-137) *)

(** The test of line 131 for one registered frame [other]. *)
Definition collides (other frame : Frame) : bool :=
  (end_ other >? start frame) && (start other <? end_ frame).

(** The first loop (lines 127-132): the value of [has_collision] after the
    keys of the dictionary have been visited. *)
Definition has_collision (reg : gmap frame_id ref) (heap : list Frame)
    (frame : Frame) (fid : frame_id) : bool :=
  foldl (fun has kr =>
           if decide (kr.1 ≠ fid)
           then match heap !! kr.2 with
                | Some other => if collides other frame then true else has
                | None => has
                end
           else has)
        false (map_to_list reg).

(** The test made for one entry of the dictionary at lines 129-131. *)
Definition hit (h : list Frame) (frame : Frame) (fid : frame_id)
    (kr : frame_id * ref) : bool :=
  bool_decide (kr.1 ≠ fid)
  && match h !! kr.2 with Some other => collides other frame | None => false end.

(** The second loop (lines 136-137): every frame of the dictionary gets
    [retry = True]. *)
Definition mark_all_retry (reg : gmap frame_id ref) (heap : list Frame) : list Frame :=
  foldl (fun h kr => alter set_retry kr.2 h) heap (map_to_list reg).

(** ** [class Station] (lines 34-68) *)

(** [simpy.Resource(env, capacity=1)]: the requests that hold the server and
    the requests that wait for it, oldest first.  A request is named by the
    number of the message whose [wait_for_service] made it. *)
Record Resource := mkResource {
  users : list nat;
  put_queue : list nat
}.

Record Station := mkStation {
  server : Resource;
  arrivals : list Arrival;
  initial_reset_completed : bool;
  n : Z;
  last_event : Z;
  nt : Z;
  st : Z;
  num_retries : Z;
  num_initial_transmits : Z;
  busy_time : Z
}.

(** [Station.__init__], the fields set before [env.process(self.arrive())]. *)
Definition new_station : Station :=
  {| server := mkResource [] []; arrivals := []; initial_reset_completed := false;
     n := 0; last_event := 0; nt := 0; st := 0;
     num_retries := 0; num_initial_transmits := 0; busy_time := 0 |}.

Global Instance Station_inhabited : Inhabited Station := populate new_station.

(** [reset_statistical_counters] (lines 90-96). *)
Definition reset_statistical_counters (x : Station) : Station :=
  {| server := server x; arrivals := arrivals x;
     initial_reset_completed := initial_reset_completed x;
     n := n x; last_event := last_event x;
     nt := 0; st := 0; num_retries := 0; num_initial_transmits := 0; busy_time := 0 |}.

(** ** The simpy environment

    aloha.py runs on simpy.  The environment keeps a heap of entries
    [(time, priority, eid, event)]; [step] pops the least entry, sets [now] to
    its time and runs the callbacks of the event.  [Timeout], [succeed] and the
    end of a process schedule with priority NORMAL (1), the [Initialize] event
    of a new process and the [until] event of [run] with priority URGENT (0);
    [eid] counts the calls of [schedule].

    A process is a generator that is suspended at a [yield] on one event.  The
    event carries, as its continuation, the place where the generator is
    suspended and the values of its local variables; for a process started
    with [yield env.process(...)] also those of the process that waits for
    it. *)

Definition URGENT : nat := 0.
Definition NORMAL : nat := 1.

Inductive cont :=
  (** [Initialize] of [arrive] of station [s] (line 68) *)
  | KArriveInit (s : nat)
  (** [arrive] at line 208, with its counter [i] *)
  | KArrive (s i : nat)
  (** [Initialize] of [wait_for_service('Frame i')] (line 210) *)
  | KWfsInit (s i : nat)
  (** the request of message [i] was granted; [wait_for_service] at line 183 *)
  | KWfsReq (s i : nat)
  (** [Initialize] of [transmit] (line 189); [wtt] is [transmit_time] of the
      waiting [wait_for_service] *)
  | KTransmitInit (s i : nat) (wtt : Z)
  (** [transmit] at line 159, with [frame_time], [frame] and [transmit_time] *)
  | KTransmitFrame (s i : nat) (wtt : Z) (ft : Z) (f : ref) (tx : Z)
  (** [Initialize] of [wait] (line 167) *)
  | KWaitInit (s i : nat) (wtt : Z) (ft : Z)
  (** [wait] at line 144 *)
  | KWaitTimeout (s i : nat) (wtt : Z) (ft : Z)
  (** the process [wait] has ended; [transmit] at line 167 *)
  | KWaitEnd (s i : nat) (wtt : Z) (ft : Z)
  (** the process [transmit] has ended; [wait_for_service] at line 189 *)
  | KTransmitEnd (s i : nat) (wtt : Z)
  (** the release of the server at the end of the [with] block *)
  | KRelease (s : nat)
  (** the process [wait_for_service] has ended; nothing waits for it *)
  | KWfsEnd (s i : nat)
  (** the event of [env.run(until=TERMINATE_TIME)] *)
  | KUntil.

Record entry := mkEntry {
  e_time : Z;
  e_prio : nat;
  e_eid : nat;
  e_cont : cont
}.

(** The order of the tuples [(time, priority, eid)]. *)
Definition entry_lt (a b : entry) : bool :=
  (e_time a <? e_time b)
  || ((e_time a =? e_time b)
      && ((e_prio a <? e_prio b)%nat
          || ((e_prio a =? e_prio b)%nat && (e_eid a <? e_eid b)%nat))).

(** [heappop]: the least entry and the remaining ones. *)
Fixpoint pop_min (q : list entry) : option (entry * list entry) :=
  match q with
  | [] => None
  | e :: q' =>
      match pop_min q' with
      | None => Some (e, [])
      | Some (m, r) => if entry_lt e m then Some (e, q') else Some (m, e :: r)
      end
  end.

(** The state of a run: the environment, the stations, the class attribute
    [Station.frames_in_transmit] with the frame objects, and the variates that
    the random source will return, in the order of the calls of [rvs]. *)
Record state := mkState {
  now : Z;
  next_eid : nat;
  queue : list entry;
  stations : list Station;
  frames_in_transmit : gmap frame_id ref;
  heap : list Frame;
  tape : list N
}.

(** [env.schedule(event, priority, delay)]. *)
Definition schedule (prio : nat) (delay : Z) (k : cont) (σ : state) : state :=
  {| now := now σ; next_eid := S (next_eid σ);
     queue := mkEntry (now σ + delay) prio (next_eid σ) k :: queue σ;
     stations := stations σ; frames_in_transmit := frames_in_transmit σ;
     heap := heap σ; tape := tape σ |}.

Definition set_stations (l : list Station) (σ : state) : state :=
  {| now := now σ; next_eid := next_eid σ; queue := queue σ;
     stations := l; frames_in_transmit := frames_in_transmit σ;
     heap := heap σ; tape := tape σ |}.

Definition set_tape (t : list N) (σ : state) : state :=
  {| now := now σ; next_eid := next_eid σ; queue := queue σ;
     stations := stations σ; frames_in_transmit := frames_in_transmit σ;
     heap := heap σ; tape := t |}.

Definition set_frames (reg : gmap frame_id ref) (h : list Frame) (σ : state) : state :=
  {| now := now σ; next_eid := next_eid σ; queue := queue σ;
     stations := stations σ; frames_in_transmit := reg;
     heap := h; tape := tape σ |}.

Definition station (s : nat) (σ : state) : Station := stations σ !!! s.

Definition upd_station (s : nat) (f : Station → Station) (σ : state) : state :=
  set_stations (alter f s (stations σ)) σ.

(** Every key of the dictionary names an object of the store. *)
Definition reg_wf (reg : gmap frame_id ref) (h : list Frame) : Prop :=
  map_Forall (fun _ r => (r < length h)%nat) reg.

(** [check_collision] (lines 125-137) returns nothing; its effect is on the
    frame objects of the dictionary. *)
Definition check_collision (frame : Frame) (fid : frame_id) (σ : state) : state :=
  if has_collision (frames_in_transmit σ) (heap σ) frame fid
  then set_frames (frames_in_transmit σ)
                  (mark_all_retry (frames_in_transmit σ) (heap σ)) σ
  else σ.

(** [add_frame_in_transmit] (lines 117-118), for a new frame object. *)
Definition add_frame_in_transmit (frame : Frame) (fid : frame_id) (σ : state) : state :=
  set_frames (<[fid := length (heap σ)]> (frames_in_transmit σ)) (heap σ ++ [frame]) σ.

(** [remove_frame_in_transmit] (lines 121-122); [None] is the [KeyError] of
    [pop]. *)
Definition remove_frame_in_transmit (fid : frame_id) (σ : state) : option state :=
  match frames_in_transmit σ !! fid with
  | None => None
  | Some _ => Some (set_frames (delete fid (frames_in_transmit σ)) (heap σ) σ)
  end.

(** ** The generator functions of [Station] *)

(** What ends a run other than the [until] event: the queue of the
    environment is empty, the random source has no more variates to give (the
    run is then defined up to that point only), [popleft] of an empty deque,
    [pop] of a missing key. *)
Inductive fault := EmptySchedule | NoMoreVariates | IndexError | KeyError.

Inductive result :=
  | Running (σ : state)
  | Stopped (σ : state)
  | Fault (f : fault).

(** One call of [rvs]. *)
Definition draw (σ : state) : option (Z * state) :=
  match tape σ with
  | [] => None
  | r :: t => Some (Z.of_N r, set_tape t σ)
  end.

(** [generate_frame_time] (lines 99-107): variates are drawn until one is
    positive. *)
Fixpoint generate_frame_time (t : list N) : option (Z * list N) :=
  match t with
  | [] => None
  | r :: t' => if (0 <? r)%N then Some (Z.of_N r, t') else generate_frame_time t'
  end.

(** [create_frame] (lines 110-114). *)
Definition create_frame (t : Z) (ft : Z) : Frame :=
  {| start := t; end_ := t + ft; frame_time := ft; retry := false |}.

(** One turn of the loop of [transmit] up to its [yield] (lines 154-159):
    [create_frame], [add_frame_in_transmit], the timeout of the frame. *)
Definition begin_attempt (s i : nat) (wtt ft : Z) (σ : state) : state :=
  let f := length (heap σ) in
  let σ1 := add_frame_in_transmit (create_frame (now σ) ft) (s, i) σ in
  schedule NORMAL ft (KTransmitFrame s i wtt ft f (now σ)) σ1.

(** The server grants the oldest waiting request when it has no user
    ([Resource._do_put] for capacity 1); the granted request is scheduled. *)
Definition grant (j : nat) (rest : list nat) (x : Station) : Station :=
  {| server := mkResource (users (server x) ++ [j]) rest;
     arrivals := arrivals x; initial_reset_completed := initial_reset_completed x;
     n := n x; last_event := last_event x; nt := nt x; st := st x;
     num_retries := num_retries x; num_initial_transmits := num_initial_transmits x;
     busy_time := busy_time x |}.

Definition trigger_put (s : nat) (σ : state) : state :=
  match put_queue (server (station s σ)) with
  | [] => σ
  | j :: rest =>
      if (length (users (server (station s σ))) <? 1)%nat
      then schedule NORMAL 0 (KWfsReq s j) (upd_station s (grant j rest) σ)
      else σ
  end.

(** [wait_for_service], lines 175-181: the arrival is queued and the server
    requested. *)
Definition wfs_enter (i : nat) (t : Z) (x : Station) : Station :=
  {| server := mkResource (users (server x)) (put_queue (server x) ++ [i]);
     arrivals := arrivals x ++ [mkArrival i t];
     initial_reset_completed := initial_reset_completed x;
     n := n x + 1; last_event := t; nt := nt x; st := st x;
     num_retries := num_retries x; num_initial_transmits := num_initial_transmits x;
     busy_time := busy_time x |}.

(** Line 185, [self.arrivals.popleft()]. *)
Definition popleft (x : Station) : Station :=
  {| server := server x; arrivals := tail (arrivals x);
     initial_reset_completed := initial_reset_completed x;
     n := n x; last_event := last_event x; nt := nt x; st := st x;
     num_retries := num_retries x; num_initial_transmits := num_initial_transmits x;
     busy_time := busy_time x |}.

(** Line 149. *)
Definition count_initial_transmit (x : Station) : Station :=
  {| server := server x; arrivals := arrivals x;
     initial_reset_completed := initial_reset_completed x;
     n := n x; last_event := last_event x; nt := nt x; st := st x;
     num_retries := num_retries x;
     num_initial_transmits := num_initial_transmits x + 1;
     busy_time := busy_time x |}.

(** Line 166. *)
Definition count_retry (x : Station) : Station :=
  {| server := server x; arrivals := arrivals x;
     initial_reset_completed := initial_reset_completed x;
     n := n x; last_event := last_event x; nt := nt x; st := st x;
     num_retries := num_retries x + 1;
     num_initial_transmits := num_initial_transmits x;
     busy_time := busy_time x |}.

(** Line 170. *)
Definition add_busy_time (d : Z) (x : Station) : Station :=
  {| server := server x; arrivals := arrivals x;
     initial_reset_completed := initial_reset_completed x;
     n := n x; last_event := last_event x; nt := nt x; st := st x;
     num_retries := num_retries x;
     num_initial_transmits := num_initial_transmits x;
     busy_time := busy_time x + d |}.

Definition set_reset_completed (x : Station) : Station :=
  {| server := server x; arrivals := arrivals x;
     initial_reset_completed := true;
     n := n x; last_event := last_event x; nt := nt x; st := st x;
     num_retries := num_retries x;
     num_initial_transmits := num_initial_transmits x;
     busy_time := busy_time x |}.

(** Lines 191-200 of [wait_for_service], at time [t]. *)
Definition wfs_complete (t wtt : Z) (x : Station) : Station :=
  let y := {| server := server x; arrivals := arrivals x;
              initial_reset_completed := initial_reset_completed x;
              n := n x - 1; last_event := t;
              nt := nt x + 1; st := st x + (t - wtt);
              num_retries := num_retries x;
              num_initial_transmits := num_initial_transmits x;
              busy_time := busy_time x |} in
  if negb (initial_reset_completed y) && (t >=? TRANSIENT_TIME)
  then set_reset_completed (reset_statistical_counters y)
  else y.

(** [users.remove(request)] of [Resource._do_get]; a request that is not a
    user is ignored there. *)
Fixpoint remove_first (i : nat) (l : list nat) : list nat :=
  match l with
  | [] => []
  | j :: l' => if decide (i = j) then l' else j :: remove_first i l'
  end.

Definition release (i : nat) (x : Station) : Station :=
  {| server := mkResource (remove_first i (users (server x))) (put_queue (server x));
     arrivals := arrivals x; initial_reset_completed := initial_reset_completed x;
     n := n x; last_event := last_event x; nt := nt x; st := st x;
     num_retries := num_retries x; num_initial_transmits := num_initial_transmits x;
     busy_time := busy_time x |}.

(** The callbacks of one event: the generator that waits for it runs up to
    its next [yield] or to its end. *)
Definition exec (k : cont) (σ : state) : result :=
  match k with
  | KArriveInit s =>
      (* lines 204-208 *)
      match draw σ with
      | None => Fault NoMoreVariates
      | Some (inter_t, σ1) => Running (schedule NORMAL inter_t (KArrive s 0) σ1)
      end
  | KArrive s i =>
      (* lines 209-211, then 206-208 *)
      let σ1 := schedule URGENT 0 (KWfsInit s i) σ in
      match draw σ1 with
      | None => Fault NoMoreVariates
      | Some (inter_t, σ2) => Running (schedule NORMAL inter_t (KArrive s (S i)) σ2)
      end
  | KWfsInit s i =>
      (* lines 175-183 *)
      Running (trigger_put s (upd_station s (wfs_enter i (now σ)) σ))
  | KWfsReq s i =>
      (* lines 185-189 *)
      match arrivals (station s σ) with
      | [] => Fault IndexError
      | _ :: _ =>
          Running (schedule URGENT 0 (KTransmitInit s i (now σ))
                            (upd_station s popleft σ))
      end
  | KTransmitInit s i wtt =>
      (* lines 149-159 *)
      let σ1 := upd_station s count_initial_transmit σ in
      match generate_frame_time (tape σ1) with
      | None => Fault NoMoreVariates
      | Some (ft, t) => Running (begin_attempt s i wtt ft (set_tape t σ1))
      end
  | KTransmitFrame s i wtt ft f tx =>
      (* lines 161-171; [f] is the object held by the variable [frame] *)
      match heap σ !! f with
      | None => Fault KeyError
      | Some frame =>
          match remove_frame_in_transmit (s, i) (check_collision frame (s, i) σ) with
          | None => Fault KeyError
          | Some σ1 =>
              match heap σ1 !! f with
              | None => Fault KeyError
              | Some frame' =>
                  if retry frame'
                  then Running (schedule URGENT 0 (KWaitInit s i wtt ft)
                                         (upd_station s count_retry σ1))
                  else Running (schedule NORMAL 0 (KTransmitEnd s i wtt)
                                         (upd_station s (add_busy_time (now σ - tx)) σ1))
              end
          end
      end
  | KWaitInit s i wtt ft =>
      (* lines 141-144 *)
      match draw σ with
      | None => Fault NoMoreVariates
      | Some (retry_time, σ1) =>
          Running (schedule NORMAL retry_time (KWaitTimeout s i wtt ft) σ1)
      end
  | KWaitTimeout s i wtt ft =>
      Running (schedule NORMAL 0 (KWaitEnd s i wtt ft) σ)
  | KWaitEnd s i wtt ft =>
      (* line 153, then 154-159 *)
      Running (begin_attempt s i wtt ft σ)
  | KTransmitEnd s i wtt =>
      (* lines 191-200, then the end of the [with] block *)
      let σ1 := upd_station s (wfs_complete (now σ) wtt) σ in
      let σ2 := schedule NORMAL 0 (KRelease s) (upd_station s (release i) σ1) in
      Running (schedule NORMAL 0 (KWfsEnd s i) σ2)
  | KRelease s => Running (trigger_put s σ)
  | KWfsEnd s i => Running σ
  | KUntil => Stopped σ
  end.

Definition set_now_queue (t : Z) (q : list entry) (σ : state) : state :=
  {| now := t; next_eid := next_eid σ; queue := q;
     stations := stations σ; frames_in_transmit := frames_in_transmit σ;
     heap := heap σ; tape := tape σ |}.

(** [Environment.step]. *)
Definition step (σ : state) : result :=
  match pop_min (queue σ) with
  | None => Fault EmptySchedule
  | Some (e, q) => exec (e_cont e) (set_now_queue (e_time e) q σ)
  end.

(** Lines 269-274 up to the call of [env.run]: a new environment, the
    stations in the order of their construction, the [until] event.  The
    dictionary [frames_in_transmit] is an attribute of the class [Station]
    (line 36): it is not made anew, and neither is the random source. *)
Definition init_replication (reg : gmap frame_id ref) (h : list Frame)
    (t : list N) : state :=
  let σ0 := mkState 0 0 [] (replicate NUM_STATIONS new_station) reg h t in
  let σ1 := foldl (fun σ s => schedule URGENT 0 (KArriveInit s) σ) σ0
                  (seq 0 NUM_STATIONS) in
  schedule URGENT TERMINATE_TIME KUntil σ1.

(** [env.run(until=TERMINATE_TIME)], for at most [fuel] events. *)
Fixpoint run (fuel : nat) (σ : state) : option result :=
  match fuel with
  | O => None
  | S fuel' =>
      match step σ with
      | Running σ' => run fuel' σ'
      | r => Some r
      end
  end.

(** The states a run goes through. *)
Definition step_to (σ σ' : state) : Prop := step σ = Running σ'.
Definition reaches (σ σ' : state) : Prop := rtc step_to σ σ'.

(** ** Reports (lines 71-87 and 214-258) *)

(** [float(a)/b]: the quotient, or [ZeroDivisionError]. The quotient of two
    integers is kept exact; the rounding of a float division is monotone, so
    the comparisons made below with 0 and 1 are those of the source. *)
Definition fdiv (a b : Z) : option Q :=
  if b =? 0 then None else Some (inject_Z a / inject_Z b)%Q.

(** What [Station.generate_report] prints for one station. *)
Record Report := mkReport {
  T : Q;
  mean_retries : Q;
  U : Q
}.

(** [Station.generate_report] (lines 71-87) at time [t]; [None] is
    [ZeroDivisionError]. *)
Definition generate_report (t : Z) (x : Station) : option Report :=
  let steady_state_time := t - TRANSIENT_TIME in
  let T := if 0 <? nt x then (inject_Z (st x) / inject_Z (nt x))%Q else 0%Q in
  let mean_retries :=
    if 0 <? num_initial_transmits x
    then (inject_Z (num_retries x) / inject_Z (num_initial_transmits x))%Q
    else 0%Q in
  match fdiv (busy_time x) steady_state_time with
  | None => None
  | Some U => Some (mkReport T mean_retries U)
  end.

Definition total (f : Station → Z) (l : list Station) : Z :=
  foldl (fun acc x => acc + f x) 0 l.

(** [generate_report_single_replication] (lines 214-247): the values
    appended to the three lists; [None] is [ZeroDivisionError]. *)
Definition generate_report_single_replication (l : list Station) : option Report :=
  let total_st := total st l in
  let total_nt := total nt l in
  let total_retries := total num_retries l in
  let total_initial_transmits := total num_initial_transmits l in
  let total_busy_time := total busy_time l in
  let mean_t :=
    if 0 <? total_nt then (inject_Z total_st / inject_Z total_nt)%Q else 0%Q in
  match fdiv total_retries total_initial_transmits with
  | None => None
  | Some mean_r =>
      match fdiv total_busy_time STEADY_STATE_TIME with
      | None => None
      | Some mean_U => Some (mkReport mean_t mean_r mean_U)
      end
  end.

(** ** The replications of [__main__] (lines 266-278) *)

(** One replication: lines 269-274, for at most [fuel] events. *)
Definition replication (fuel : nat) (reg : gmap frame_id ref) (h : list Frame)
    (t : list N) : option result :=
  run fuel (init_replication reg h t).

Inductive main_result :=
  | Completed (reports : list Report)
  | Raised (reports : list Report)
  | OutOfFuel.

(** The loop of line 266, [k] replications to go; the reports of the
    replications done so far are in [acc].  The dictionary
    [Station.frames_in_transmit] and the random source go from one
    replication to the next. *)
Fixpoint replications (fuel : nat) (k : nat) (reg : gmap frame_id ref)
    (h : list Frame) (t : list N) (acc : list Report) : main_result :=
  match k with
  | O => Completed acc
  | S k' =>
      match replication fuel reg h t with
      | None => OutOfFuel
      | Some (Stopped σ) =>
          match mapM (generate_report (now σ)) (stations σ) with
          | None => Raised acc
          | Some _ =>
              match generate_report_single_replication (stations σ) with
              | None => Raised acc
              | Some r =>
                  replications fuel k' (frames_in_transmit σ) (heap σ) (tape σ)
                               (acc ++ [r])
              end
          end
      | Some _ => Raised acc
      end
  end.

Definition main (fuel : nat) (t : list N) : main_result :=
  replications fuel NUM_REPLICATIONS ∅ [] t [].

(** ** Invariants of a run

    The predicates below describe the states a run goes through.  An
    invariant with a parameter is stated for the state in the middle of a
    step, when the event that was popped is no longer in the queue: the
    parameter tells what that event was. *)

Definition entry_le (a b : entry) : Prop :=
  e_time a < e_time b
  ∨ (e_time a = e_time b
     ∧ ((e_prio a < e_prio b)%nat
        ∨ (e_prio a = e_prio b ∧ (e_eid a ≤ e_eid b)%nat))).

Definition zero_delay (k : cont) : bool :=
  match k with
  | KArrive _ _ | KTransmitFrame _ _ _ _ _ _ | KWaitTimeout _ _ _ _ | KUntil => false
  | _ => true
  end.

Definition cont_prio (k : cont) : nat :=
  match k with
  | KArriveInit _ | KWfsInit _ _ | KTransmitInit _ _ _ | KWaitInit _ _ _ _ | KUntil => URGENT
  | _ => NORMAL
  end.

Definition cont_station (k : cont) : option nat :=
  match k with
  | KArriveInit s | KArrive s _ | KWfsInit s _ | KWfsReq s _ | KTransmitInit s _ _
  | KTransmitFrame s _ _ _ _ _ | KWaitInit s _ _ _ | KWaitTimeout s _ _ _
  | KWaitEnd s _ _ _ | KTransmitEnd s _ _ | KRelease s | KWfsEnd s _ => Some s
  | KUntil => None
  end.

Definition cont_ft (k : cont) : option Z :=
  match k with
  | KTransmitFrame _ _ _ ft _ _ | KWaitInit _ _ _ ft | KWaitTimeout _ _ _ ft
  | KWaitEnd _ _ _ ft => Some ft
  | _ => None
  end.

Definition cont_times (k : cont) : list Z :=
  match k with
  | KTransmitInit _ _ wtt | KWaitInit _ _ wtt _ | KWaitTimeout _ _ wtt _
  | KWaitEnd _ _ wtt _ | KTransmitEnd _ _ wtt => [wtt]
  | KTransmitFrame _ _ wtt _ _ tx => [wtt; tx]
  | _ => []
  end.

Definition cont_ok (t : Z) (k : cont) : Prop :=
  (∀ s, cont_station k = Some s → (s < NUM_STATIONS)%nat)
  ∧ (∀ ft, cont_ft k = Some ft → 0 < ft)
  ∧ Forall (fun x => x ≤ t) (cont_times k).

Definition until_entry : entry := mkEntry TERMINATE_TIME URGENT NUM_STATIONS KUntil.

Record queue_inv (σ : state) : Prop := {
  qi_eids : ∀ e, e ∈ queue σ → (e_eid e < next_eid σ)%nat;
  qi_nodup : NoDup (e_eid <$> queue σ);
  qi_time : ∀ e, e ∈ queue σ → now σ ≤ e_time e;
  qi_zero : ∀ e, e ∈ queue σ → zero_delay (e_cont e) = true → e_time e = now σ;
  qi_prio : ∀ e, e ∈ queue σ → e_prio e = cont_prio (e_cont e);
  qi_until : until_entry ∈ queue σ;
  qi_until_only : ∀ e, e ∈ queue σ → e_cont e = KUntil → e = until_entry;
  qi_now : 0 ≤ now σ < TERMINATE_TIME;
  qi_stations : length (stations σ) = NUM_STATIONS;
  qi_cont : ∀ e, e ∈ queue σ → cont_ok (now σ) (e_cont e)
}.

Definition holder (k : cont) : option (nat * nat) :=
  match k with
  | KWfsReq s i | KTransmitInit s i _ | KTransmitFrame s i _ _ _ _
  | KWaitInit s i _ _ | KWaitTimeout s i _ _ | KWaitEnd s i _ _
  | KTransmitEnd s i _ => Some (s, i)
  | _ => None
  end.

Definition started (k : cont) : option nat :=
  match k with
  | KTransmitFrame s _ _ _ _ _ | KWaitInit s _ _ _ | KWaitTimeout s _ _ _
  | KWaitEnd s _ _ _ | KTransmitEnd s _ _ => Some s
  | _ => None
  end.

Definition users_of (s : nat) (σ : state) : list nat := users (server (station s σ)).

Record mutex_inv (c : option (nat * nat)) (σ : state) : Prop := {
  mi_holder : ∀ e s i, e ∈ queue σ → holder (e_cont e) = Some (s, i) →
                users_of s σ = [i] ∧ ∀ i', c ≠ Some (s, i');
  mi_unique : ∀ e1 e2 s i1 i2, e1 ∈ queue σ → e2 ∈ queue σ →
                holder (e_cont e1) = Some (s, i1) → holder (e_cont e2) = Some (s, i2) →
                e1 = e2;
  mi_hand : ∀ s i, c = Some (s, i) → users_of s σ = [i]
}.

Definition nit_of (s : nat) (σ : state) : Z := num_initial_transmits (station s σ).
Definition nt_of (s : nat) (σ : state) : Z := nt (station s σ).

Record acct_inv (a : option nat) (σ : state) : Prop := {
  ai_started : ∀ e s, e ∈ queue σ → started (e_cont e) = Some s →
                 nit_of s σ = nt_of s σ + 1;
  ai_hand : ∀ s, a = Some s → nit_of s σ = nt_of s σ + 1;
  ai_idle : ∀ s, a ≠ Some s → (∀ e, e ∈ queue σ → started (e_cont e) ≠ Some s) →
              nit_of s σ = nt_of s σ;
  ai_nonneg : ∀ s, 0 ≤ nt_of s σ
}.

Definition base (x : Station) : Z :=
  if initial_reset_completed x then TRANSIENT_TIME else 0.
Definition busy_of (s : nat) (σ : state) : Z := busy_time (station s σ).
Definition base_of (s : nat) (σ : state) : Z := base (station s σ).
Definition reset_of (s : nat) (σ : state) : bool := initial_reset_completed (station s σ).

Record busy_inv (c : option cont) (σ : state) : Prop := {
  bi_nonneg : ∀ s, 0 ≤ busy_of s σ;
  bi_now : ∀ s, busy_of s σ + base_of s σ ≤ now σ;
  bi_frame : ∀ e s i wtt ft f tx, e ∈ queue σ →
               e_cont e = KTransmitFrame s i wtt ft f tx →
               busy_of s σ + base_of s σ ≤ tx;
  bi_hand : ∀ s i wtt ft f tx, c = Some (KTransmitFrame s i wtt ft f tx) →
               busy_of s σ + base_of s σ ≤ tx;
  bi_unreset : ∀ s, reset_of s σ = false →
               busy_of s σ ≤ TRANSIENT_TIME
               ∨ (∃ e i wtt, e ∈ queue σ ∧ e_cont e = KTransmitEnd s i wtt)
               ∨ (∃ i wtt, c = Some (KTransmitEnd s i wtt))
}.

Definition no_frame_of (s : nat) (σ : state) : Prop :=
  ∀ e, e ∈ queue σ → started (e_cont e) ≠ Some s.

Definition is_frame (k : cont) : bool :=
  match k with KTransmitFrame _ _ _ _ _ _ => true | _ => false end.

Definition is_grant (k : cont) : bool :=
  match k with KWfsReq _ _ | KWaitEnd _ _ _ _ => true | _ => false end.

Definition needs_quiet (k : cont) : bool :=
  match k with
  | KWfsReq _ _ | KWaitEnd _ _ _ _ | KTransmitInit _ _ _ => true
  | _ => false
  end.

(** No frame in transmit ends at the present time. *)
Definition quiet (σ : state) : Prop :=
  ∀ a, a ∈ queue σ → is_frame (e_cont a) = true → e_time a ≠ now σ.

(** The frame object of a [transmit] that waits for the end of its frame at
    time [t]. *)
Definition live_frame (σ : state) (t : Z) (k : cont) : Prop :=
  match k with
  | KTransmitFrame s i wtt ft f tx =>
      frames_in_transmit σ !! (s, i) = Some f
      ∧ ∃ o, heap σ !! f = Some o ∧ start o = tx ∧ end_ o = t ∧ tx < t
  | _ => True
  end.

Definition reg_inj (reg : gmap frame_id ref) : Prop :=
  ∀ k1 k2 r, reg !! k1 = Some r → reg !! k2 = Some r → k1 = k2.

Record frame_inv (c : option cont) (σ : state) : Prop := {
  fi_wf : reg_wf (frames_in_transmit σ) (heap σ);
  fi_inj : reg_inj (frames_in_transmit σ);
  fi_live : ∀ e, e ∈ queue σ → live_frame σ (e_time e) (e_cont e);
  fi_hand_live : ∀ k, c = Some k → live_frame σ (now σ) k;
  fi_order : ∀ a b, a ∈ queue σ → b ∈ queue σ →
               is_frame (e_cont a) = true → is_grant (e_cont b) = true →
               e_time a = now σ → (e_eid a < e_eid b)%nat;
  fi_init : ∀ b s i wtt, b ∈ queue σ → e_cont b = KTransmitInit s i wtt → quiet σ;
  fi_fresh : ∀ e s i wtt ft f, e ∈ queue σ →
               e_cont e = KTransmitFrame s i wtt ft f (now σ) → quiet σ;
  fi_hand_quiet : ∀ k, c = Some k → needs_quiet k = true → quiet σ
}.

Definition no_holder_of (s : nat) (σ : state) : Prop :=
  ∀ e i, e ∈ queue σ → holder (e_cont e) ≠ Some (s, i).

Record inv (σ : state) : Prop := {
  inv_queue : queue_inv σ;
  inv_mutex : mutex_inv None σ;
  inv_acct : acct_inv None σ;
  inv_busy : busy_inv None σ;
  inv_frame : frame_inv None σ
}.

(** The replications of one execution of the program, on the variates [t0]:
    the states in which a replication starts, and the states its run goes
    through. *)
Inductive starts (t0 : list N) : state → Prop :=
  | starts_first : starts t0 (init_replication ∅ [] t0)
  | starts_next σ0 σ σ' :
      starts t0 σ0 → reaches σ0 σ → step σ = Stopped σ' →
      starts t0 (init_replication (frames_in_transmit σ') (heap σ') (tape σ')).

Definition visited (t0 : list N) (σ : state) : Prop :=
  ∃ σ0, starts t0 σ0 ∧ reaches σ0 σ.

Definition at_end (t0 : list N) (σ' : state) : Prop :=
  ∃ σ, visited t0 σ ∧ step σ = Stopped σ'.

Definition counters_le (x y : Station) : Prop :=
  nt x ≤ nt y ∧ st x ≤ st y ∧ num_retries x ≤ num_retries y
  ∧ num_initial_transmits x ≤ num_initial_transmits y ∧ busy_time x ≤ busy_time y.

Definition counters_zero (x : Station) : Prop :=
  nt x = 0 ∧ st x = 0 ∧ num_retries x = 0
  ∧ num_initial_transmits x = 0 ∧ busy_time x = 0.

(** The step from [σ] to [σ'] resets the counters of station [s]: line 199
    is followed by line 200, which sets [initial_reset_completed]. *)
Definition reset_step (s : nat) (σ σ' : state) : bool :=
  negb (reset_of s σ) && reset_of s σ'.

(** [l] lists the states that follow [σ] in a run. *)
Fixpoint path (σ : state) (l : list state) : Prop :=
  match l with
  | [] => True
  | σ' :: l' => step σ = Running σ' ∧ path σ' l'
  end.

Fixpoint num_resets (s : nat) (σ : state) (l : list state) : nat :=
  match l with
  | [] => 0
  | σ' :: l' => ((if reset_step s σ σ' then 1 else 0) + num_resets s σ' l')%nat
  end.

(** What a step does to the counters of one station. *)
Definition stats_of (x : Station) : Z * Z * Z * Z * Z * bool :=
  (nt x, st x, num_retries x, num_initial_transmits x, busy_time x,
   initial_reset_completed x).

Inductive station_action (t : Z) : (Station → Station) → Prop :=
  | act_none : station_action t (fun x => x)
  | act_initial : station_action t count_initial_transmit
  | act_retry : station_action t count_retry
  | act_busy d : 0 ≤ d → station_action t (add_busy_time d)
  | act_complete wtt : wtt ≤ t → station_action t (wfs_complete t wtt).

(** The states of a run, for at most [fuel] events. *)
Fixpoint trace (fuel : nat) (σ : state) : list state :=
  match fuel with
  | O => []
  | S fuel' =>
      match step σ with
      | Running σ' => σ' :: trace fuel' σ'
      | _ => []
      end
  end.

Definition tape_busy : list N :=
  [0; 24; 10000; 10000; 10000; 10000; 10000; 10000; 10000; 24; 1; 1; 10000; 9974]%N.


(** In [σ] the event [e] is the end of the frame [f] that [transmit] sends
    for message [i] of station [s]. *)
Definition in_transmit (σ : state) (e : entry) (s i : nat) (f : ref) : Prop :=
  e ∈ queue σ ∧ ∃ wtt ft tx, e_cont e = KTransmitFrame s i wtt ft f tx.

(** The next step of [σ] runs the event [e]. *)
Definition next_event (σ : state) (e : entry) : Prop :=
  ∃ q, pop_min (queue σ) = Some (e, q).

(** The message whose [wait_for_service] or [transmit] a continuation belongs
    to. *)
Definition msg_of (k : cont) : option (nat * nat) :=
  match k with
  | KWfsInit s i => Some (s, i)
  | _ => holder k
  end.

(** The number of the next message of [arrive]. *)
Definition arrive_of (k : cont) : option (nat * nat) :=
  match k with
  | KArriveInit s => Some (s, 0%nat)
  | KArrive s j => Some (s, j)
  | _ => None
  end.

Definition put_of (s : nat) (σ : state) : list nat := put_queue (server (station s σ)).

Record msg_inv (c : option cont) (σ : state) : Prop := {
  mg_unique : ∀ e1 e2 s i, e1 ∈ queue σ → e2 ∈ queue σ →
                msg_of (e_cont e1) = Some (s, i) → msg_of (e_cont e2) = Some (s, i) →
                e1 = e2;
  mg_pending : ∀ e s i, e ∈ queue σ → msg_of (e_cont e) = Some (s, i) → i ∉ put_of s σ;
  mg_hand : ∀ k s i, c = Some k → msg_of k = Some (s, i) →
              (i ∉ put_of s σ) ∧ ∀ e, e ∈ queue σ → msg_of (e_cont e) ≠ Some (s, i);
  mg_nodup : ∀ s, NoDup (put_of s σ);
  mg_fresh : ∀ a s j, a ∈ queue σ → arrive_of (e_cont a) = Some (s, j) →
               (∀ e i, e ∈ queue σ → msg_of (e_cont e) = Some (s, i) → (i < j)%nat)
               ∧ (∀ i, i ∈ put_of s σ → (i < j)%nat)
               ∧ (∀ k i, c = Some k → msg_of k = Some (s, i) → (i < j)%nat);
  mg_hand_fresh : ∀ k s j, c = Some k → arrive_of k = Some (s, j) →
               (∀ e i, e ∈ queue σ → msg_of (e_cont e) = Some (s, i) → (i < j)%nat)
               ∧ (∀ i, i ∈ put_of s σ → (i < j)%nat)
               ∧ (∀ a j', a ∈ queue σ → arrive_of (e_cont a) ≠ Some (s, j'));
  mg_arrive_unique : ∀ a1 a2 s j1 j2, a1 ∈ queue σ → a2 ∈ queue σ →
               arrive_of (e_cont a1) = Some (s, j1) →
               arrive_of (e_cont a2) = Some (s, j2) → a1 = a2
}.

Definition same_msg (s i s' i' : nat) : bool := bool_decide ((s', i') = (s, i)).

(** The continuations of message [i] of station [s] before line 149. *)
Definition pre_stage (s i : nat) (k : cont) : bool :=
  match k with
  | KWfsInit s' i' | KWfsReq s' i' | KTransmitInit s' i' _ => same_msg s i s' i'
  | _ => false
  end.

(** The event that starts [transmit] for message [i] of station [s]. *)
Definition transmit_start (s i : nat) (k : cont) : bool :=
  match k with
  | KTransmitInit s' i' _ => same_msg s i s' i'
  | _ => false
  end.

(** The value of [frame_time] in a continuation of [transmit] for message
    [i] of station [s]. *)
Definition duration_of (s i : nat) (k : cont) : option Z :=
  match k with
  | KTransmitFrame s' i' _ ft _ _ | KWaitInit s' i' _ ft | KWaitTimeout s' i' _ ft
  | KWaitEnd s' i' _ ft => if same_msg s i s' i' then Some ft else None
  | _ => None
  end.

(** Message [i] of station [s] has started its [transmit], or ended it. *)
Definition past (s i : nat) (σ : state) : Prop :=
  (∀ e, e ∈ queue σ → pre_stage s i (e_cont e) = false)
  ∧ (i ∉ put_of s σ)
  ∧ (∀ e j, e ∈ queue σ → arrive_of (e_cont e) = Some (s, j) → (i < j)%nat).

(** The event that the next step runs. *)
Definition label (σ : state) : option cont :=
  match pop_min (queue σ) with
  | Some (e, _) => Some (e_cont e)
  | None => None
  end.

(** The events run along a path. *)
Fixpoint events (σ : state) (l : list state) : list cont :=
  match l with
  | [] => []
  | σ' :: l' => from_option (fun k => [k]) [] (label σ) ++ events σ' l'
  end.

(** The events that a step adds to the queue satisfy [P]. *)
Definition news (P : cont → Prop) (σ0 σ : state) : Prop :=
  ∀ e, e ∈ queue σ → e ∈ queue σ0 ∨ P (e_cont e).

(** The duration drawn by the next step for message [i] of station [s]:
    the step draws one when it begins the [transmit] of that message
    (line 151). *)
Definition draw_at (s i : nat) (σ : state) : list Z :=
  match label σ, generate_frame_time (tape σ) with
  | Some k, Some (d, _) => if transmit_start s i k then [d] else []
  | _, _ => []
  end.

(** The durations drawn along a path for message [i] of station [s]. *)
Fixpoint draws (s i : nat) (σ : state) (l : list state) : list Z :=
  match l with
  | [] => []
  | σ' :: l' => draw_at s i σ ++ draws s i σ' l'
  end.

(** What the events run so far, and the events in the queue, tell about
    message [i] of station [s]: either its [transmit] has not begun, or it
    has, once, and the one duration drawn then is in use. *)
Definition msg_history (s i : nat) (evs : list cont) (ds : list Z) (σ : state) : Prop :=
  ((∀ e, e ∈ queue σ → duration_of s i (e_cont e) = None)
   ∧ (∀ k, k ∈ evs → duration_of s i k = None ∧ transmit_start s i k = false)
   ∧ ds = [])
  ∨ (∃ d, past s i σ
       ∧ (∀ e d', e ∈ queue σ → duration_of s i (e_cont e) = Some d' → d' = d)
       ∧ (∀ k d', k ∈ evs → duration_of s i k = Some d' → d' = d)
       ∧ length (filter (fun k => transmit_start s i k = true) evs) = 1%nat
       ∧ ds = [d]).

(** An attempt of message [i] of station [s] has just begun (lines 154-159):
    the frame [f] of duration [ft] starting now is registered under the
    message's id, and its end is scheduled [ft] later. *)
Definition on_air (s i : nat) (wtt ft : Z) (f : ref) (σ : state) : Prop :=
  frames_in_transmit σ !! (s, i) = Some f
  ∧ heap σ !! f = Some (create_frame (now σ) ft)
  ∧ ∃ e, e ∈ queue σ ∧ e_time e = now σ + ft
         ∧ e_cont e = KTransmitFrame s i wtt ft f (now σ).

(** The five counters that the reports are computed from. *)
Definition counters (x : Station) : Z * Z * Z * Z * Z :=
  (nt x, st x, num_retries x, num_initial_transmits x, busy_time x).

(** The state after [n] events. *)
Definition state_after (n : nat) (σ : state) : state :=
  default σ (last (trace n σ)).

(** The state in which a replication on the variates [t] stops, when it
    starts with an empty dictionary. *)
Definition end_of (fuel : nat) (t : list N) : state :=
  match replication fuel ∅ [] t with
  | Some (Stopped σ) => σ
  | _ => init_replication ∅ [] t
  end.

(** No message arrives before the end of the replication. *)
Definition tape_idle : list N := replicate NUM_STATIONS 10000%N.

(** Stations 0 and 1 send frames of duration 5 from times 0 and 2; they
    collide, back off for 10 and 30, and send again. *)
Definition tape_collide : list N :=
  [0; 2; 10000; 10000; 10000; 10000; 10000; 10000; 10000; 5; 10000; 5; 10; 30]%N.

(** Station 0 begins a frame of duration 20 at time 9990: the replication
    ends before the frame does. *)
Definition tape_late : list N :=
  [9990; 10000; 10000; 10000; 10000; 10000; 10000; 10000; 10000; 20]%N.

(** Station 1 sends a frame of duration 2 at time 9995, station 0 has a
    message at time 9997. *)
Definition tape_pair : list N :=
  [9997; 9995; 10000; 10000; 10000; 10000; 10000; 10000; 10000; 2; 10000; 10000; 1]%N.

(** A dictionary of three frames: the second overlaps the first, the third
    does not. *)
Definition three_frames : state :=
  set_frames (<[(0, 0)%nat := 0%nat]> (<[(1, 0)%nat := 1%nat]> (<[(2, 0)%nat := 2%nat]> ∅)))
             [mkFrame 0 5 5 false; mkFrame 2 7 5 false; mkFrame 10 12 2 false]
             (init_replication ∅ [] []).

(** What [create_frame] builds: [end = start + frame_time], with a positive
    duration, begun in the run of some replication. *)
Definition frame_ok (o : Frame) : Prop :=
  end_ o = start o + frame_time o ∧ 0 < frame_time o
  ∧ 0 ≤ start o < TERMINATE_TIME.

(** The time of an event of [transmit]: the frame begun at [tx] ends at
    [tx + ft]; [transmit] is begun at [wtt] or later and takes time. *)
Definition entry_ok (e : entry) : Prop :=
  match e_cont e with
  | KTransmitFrame _ _ wtt ft _ tx => e_time e = tx + ft ∧ wtt ≤ tx
  | KTransmitEnd _ _ wtt => wtt < e_time e
  | _ => True
  end.

Record shape_inv (σ : state) : Prop := {
  sh_entry : ∀ e, e ∈ queue σ → entry_ok e;
  sh_heap : Forall frame_ok (heap σ)
}.

(** The events that a step adds to the queue satisfy [P]. *)
Definition news_entry (P : entry → Prop) (σ0 σ : state) : Prop :=
  ∀ e, e ∈ queue σ → e ∈ queue σ0 ∨ P e.

(** The names of the arrivals in the deque of station [s]: the numbers of
    the messages, oldest first. *)
Definition names (s : nat) (σ : state) : list nat :=
  a_name <$> arrivals (station s σ).

Record serve_inv (c : option cont) (σ : state) : Prop := {
  sv_req : ∀ e s i, e ∈ queue σ → e_cont e = KWfsReq s i →
             names s σ = i :: put_of s σ;
  sv_hand : ∀ s i, c = Some (KWfsReq s i) → names s σ = i :: put_of s σ;
  sv_noreq : ∀ s, (∀ e i, e ∈ queue σ → e_cont e ≠ KWfsReq s i) →
               (∀ i, c ≠ Some (KWfsReq s i)) → names s σ = put_of s σ;
  sv_users : ∀ s, users_of s σ = []
               ∨ (∃ e i, e ∈ queue σ ∧ holder (e_cont e) = Some (s, i))
               ∨ (∃ k i, c = Some k ∧ holder k = Some (s, i));
  sv_n : ∀ s, n (station s σ)
              = Z.of_nat (length (users_of s σ) + length (put_of s σ));
  sv_times : ∀ s, Forall (fun a => 0 ≤ a_time a ≤ now σ) (arrivals (station s σ))
                  ∧ 0 ≤ last_event (station s σ) ≤ now σ
}.

(** The part of a station that the server and the deque make up. *)
Definition srv (x : Station) : Resource * list Arrival * Z * Z :=
  (server x, arrivals x, n x, last_event x).

(** The change that the event [k], run at time [t], makes to the counters of
    station [s]; [flagged] is the value of [frame.retry] read at line 165. *)
Definition stat_step (k : cont) (t : Z) (flagged : bool) (s : nat) (x : Station) : Station :=
  match k with
  | KTransmitInit s0 _ _ => if decide (s = s0) then count_initial_transmit x else x
  | KTransmitFrame s0 _ _ _ _ tx =>
      if decide (s = s0)
      then (if flagged then count_retry x else add_busy_time (t - tx) x)
      else x
  | KTransmitEnd s0 _ wtt => if decide (s = s0) then wfs_complete t wtt x else x
  | _ => x
  end.

Record time_inv (σ : state) : Prop := {
  tm_nonneg : ∀ s, 0 ≤ st (station s σ) ∧ 0 ≤ num_retries (station s σ);
  tm_nt : ∀ s, nt (station s σ) ≤ st (station s σ);
  tm_end : ∀ e s i wtt, e ∈ queue σ → e_cont e = KTransmitEnd s i wtt →
             busy_time (station s σ) ≤ st (station s σ) + (e_time e - wtt);
  tm_idle : ∀ s, (∀ e i wtt, e ∈ queue σ → e_cont e ≠ KTransmitEnd s i wtt) →
              busy_time (station s σ) ≤ st (station s σ)
}.

(** A key of the dictionary is bound to a frame that is on the air, or it is
    a binding that the replication found in the dictionary [reg0] when it
    began. *)
Definition reg_live (reg0 : gmap frame_id ref) (σ : state) : Prop :=
  ∀ s i f, frames_in_transmit σ !! (s, i) = Some f →
    (∃ e, in_transmit σ e s i f) ∨ reg0 !! (s, i) = Some f.

(** The events that begin an attempt (lines 154-159). *)
Definition attempt_of (k : cont) : option (nat * nat * Z) :=
  match k with
  | KTransmitInit s i wtt | KWaitEnd s i wtt _ => Some (s, i, wtt)
  | _ => None
  end.

(** Every station has an event of its process [arrive] in the queue. *)
Definition arrive_pending (σ : state) : Prop :=
  ∀ s, (s < NUM_STATIONS)%nat →
    ∃ e j, e ∈ queue σ ∧ arrive_of (e_cont e) = Some (s, j).

Record run_inv (σ : state) : Prop := {
  ri_inv : inv σ;
  ri_msg : msg_inv None σ;
  ri_shape : shape_inv σ;
  ri_serve : serve_inv None σ;
  ri_time : time_inv σ;
  ri_arrive : arrive_pending σ
}.



(** Station 0 sends one frame of duration 5 at time 0; no other message
    arrives before the end of the replication. *)
Definition tape_single : list N :=
  [0; 10000; 10000; 10000; 10000; 10000; 10000; 10000; 10000; 5]%N.

(** The variates of [tape_single] for every replication of the program. *)
Definition tape_ten : list N := mjoin (replicate NUM_REPLICATIONS tape_single).



(** * Properties *)

(** ** The collision check *)

Section check_collision_facts.
Variables (reg : gmap frame_id ref) (h : list Frame).

Lemma has_collision_foldl frame fid (l : list (frame_id * ref)) (b : bool) :
  foldl (fun has kr =>
           if decide (kr.1 ≠ fid)
           then match h !! kr.2 with
                | Some other => if collides other frame then true else has
                | None => has
                end
           else has) b l
  = b || existsb (hit h frame fid) l.
Proof.
  revert b. induction l as [|kr l IH]; intros b; simpl.
  - by rewrite orb_false_r.
  - rewrite IH. unfold hit at 2.
    destruct (decide (kr.1 ≠ fid)) as [Hne|He].
    + rewrite bool_decide_eq_true_2 by done. simpl.
      destruct (h !! kr.2) as [other|]; simpl; [|done].
      destruct (collides other frame); simpl; [by rewrite orb_true_r|done].
    + rewrite bool_decide_eq_false_2 by done. done.
Qed.

Lemma collides_spec other frame :
  collides other frame = true ↔ end_ other > start frame ∧ start other < end_ frame.
Proof. unfold collides. rewrite andb_true_iff. lia. Qed.

Lemma has_collision_iff frame fid :
  has_collision reg h frame fid = true ↔
  ∃ key r other, reg !! key = Some r ∧ key ≠ fid ∧ h !! r = Some other
                 ∧ end_ other > start frame ∧ start other < end_ frame.
Proof.
  unfold has_collision. rewrite has_collision_foldl. simpl.
  rewrite existsb_exists. split.
  - intros ([key r] & Hin & Hhit).
    apply list_elem_of_In, elem_of_map_to_list in Hin.
    unfold hit in Hhit. simpl in Hhit.
    apply andb_true_iff in Hhit as [Hk Hc].
    apply bool_decide_eq_true in Hk.
    destruct (h !! r) as [other|] eqn:Hr; [|done].
    apply collides_spec in Hc. exists key, r, other. tauto.
  - intros (key & r & other & Hreg & Hne & Hr & Hc).
    exists (key, r). split.
    + by apply list_elem_of_In, elem_of_map_to_list.
    + unfold hit. simpl. rewrite Hr.
      apply andb_true_iff. split; [by apply bool_decide_eq_true|].
      by apply collides_spec.
Qed.

Lemma mark_foldl_lookup (l : list (frame_id * ref)) (h0 : list Frame) r :
  foldl (fun h kr => alter set_retry kr.2 h) h0 l !! r
  = (fun o => if decide (r ∈ l.*2) then set_retry o else o) <$> h0 !! r.
Proof.
  revert h0. induction l as [|kr l IH]; intros h0; simpl.
  - destruct (h0 !! r); simpl; [|done]. f_equal.
  - rewrite IH. destruct (decide (r = kr.2)) as [->|Hne].
    + rewrite list_lookup_alter_eq. destruct (h0 !! kr.2) as [o|]; simpl; [|done].
      f_equal. rewrite (decide_True (P := kr.2 ∈ kr.2 :: _)) by (by apply elem_of_cons; left).
      by destruct (decide _).
    + rewrite list_lookup_alter_ne by done.
      destruct (h0 !! r) as [o|]; simpl; [|done]. f_equal.
      destruct (decide (r ∈ l.*2)) as [H1|H1];
        destruct (decide (r ∈ _ :: _)) as [H2|H2]; try done; exfalso.
      * apply H2. by apply elem_of_cons; right.
      * apply elem_of_cons in H2 as [?|?]; done.
Qed.

Lemma mark_all_retry_lookup_in r key :
  reg !! key = Some r → mark_all_retry reg h !! r = set_retry <$> h !! r.
Proof.
  intros Hkey. unfold mark_all_retry. rewrite mark_foldl_lookup.
  destruct (h !! r) as [o|]; simpl; [|done]. f_equal.
  rewrite decide_True; [done|].
  apply list_elem_of_fmap. exists (key, r). split; [done|].
  by apply elem_of_map_to_list.
Qed.

Lemma mark_all_retry_lookup_notin r :
  (∀ key, reg !! key ≠ Some r) → mark_all_retry reg h !! r = h !! r.
Proof.
  intros Hno. unfold mark_all_retry. rewrite mark_foldl_lookup.
  destruct (h !! r) as [o|]; simpl; [|done]. f_equal.
  rewrite decide_False; [done|].
  intros Hin. apply list_elem_of_fmap in Hin as ([key r'] & -> & Hin).
  apply elem_of_map_to_list in Hin. by apply (Hno key).
Qed.

Lemma mark_all_retry_lookup_cases r o :
  h !! r = Some o →
  mark_all_retry reg h !! r = Some o ∨ mark_all_retry reg h !! r = Some (set_retry o).
Proof.
  intros Ho. unfold mark_all_retry. rewrite mark_foldl_lookup, Ho. simpl.
  destruct (decide _); auto.
Qed.

Lemma mark_all_retry_length : length (mark_all_retry reg h) = length h.
Proof.
  unfold mark_all_retry. generalize (map_to_list reg). intros l.
  revert h. induction l as [|kr l IH]; intros h0; simpl; [done|].
  by rewrite IH, length_alter.
Qed.
End check_collision_facts.

Lemma check_collision_heap frame fid σ r o :
  heap σ !! r = Some o →
  ∃ o', heap (check_collision frame fid σ) !! r = Some o'
        ∧ start o' = start o ∧ end_ o' = end_ o ∧ frame_time o' = frame_time o
        ∧ (retry o = true → retry o' = true).
Proof.
  intros Ho. unfold check_collision.
  destruct (has_collision _ _ _ _); simpl; [|eauto 10].
  destruct (mark_all_retry_lookup_cases (frames_in_transmit σ) _ _ _ Ho) as [->| ->];
    eauto 10.
Qed.

Lemma check_collision_heap_length frame fid σ :
  length (heap (check_collision frame fid σ)) = length (heap σ).
Proof.
  unfold check_collision. destruct (has_collision _ _ _ _); simpl; [|done].
  apply mark_all_retry_length.
Qed.

(** C1.  [check_collision(frame, frame_id)] finds a collision exactly when a
    frame registered under another key overlaps [frame]
    ([other.end > frame.start] and [other.start < frame.end]); when it
    finds one, every frame of the dictionary has [retry = True] afterwards,
    whether it overlaps [frame] or not; and when it finds none, it changes
    nothing: no flag is set. *)
Theorem check_collision_reports_overlap_and_flags_all frame fid σ :
  reg_wf (frames_in_transmit σ) (heap σ) →
  (has_collision (frames_in_transmit σ) (heap σ) frame fid = true ↔
     ∃ key r other,
       frames_in_transmit σ !! key = Some r ∧ key ≠ fid
       ∧ heap σ !! r = Some other
       ∧ end_ other > start frame ∧ start other < end_ frame)
  ∧ (has_collision (frames_in_transmit σ) (heap σ) frame fid = true →
     ∀ key r, frames_in_transmit (check_collision frame fid σ) !! key = Some r →
       ∃ o, heap (check_collision frame fid σ) !! r = Some o ∧ retry o = true)
  ∧ (has_collision (frames_in_transmit σ) (heap σ) frame fid = false →
     check_collision frame fid σ = σ).
Proof.
  intros Hwf. split; [apply has_collision_iff|]. split.
  - intros Hc key r. unfold check_collision. rewrite Hc. simpl. intros Hkey.
    rewrite (mark_all_retry_lookup_in _ _ _ _ Hkey).
    destruct (lookup_lt_is_Some_2 (heap σ) r) as [o Ho]; [by eapply Hwf|].
    rewrite Ho. simpl. eauto.
  - intros Hc. unfold check_collision. by rewrite Hc.
Qed.

(** C10.  [check_collision] leaves the dictionary as it is (no key is added
    or removed), and the fields [start], [end] and [frame_time] of every frame
    object; of the whole state it changes [retry] flags only, and a flag that
    is [True] stays [True]. *)
Theorem check_collision_changes_retry_flags_only frame fid σ :
  frames_in_transmit (check_collision frame fid σ) = frames_in_transmit σ
  ∧ dom (frames_in_transmit (check_collision frame fid σ))
    = dom (frames_in_transmit σ)
  ∧ length (heap (check_collision frame fid σ)) = length (heap σ)
  ∧ (∀ r o, heap σ !! r = Some o →
       ∃ o', heap (check_collision frame fid σ) !! r = Some o'
             ∧ start o' = start o ∧ end_ o' = end_ o
             ∧ frame_time o' = frame_time o
             ∧ (retry o = true → retry o' = true))
  ∧ stations (check_collision frame fid σ) = stations σ
  ∧ queue (check_collision frame fid σ) = queue σ
  ∧ now (check_collision frame fid σ) = now σ
  ∧ next_eid (check_collision frame fid σ) = next_eid σ
  ∧ tape (check_collision frame fid σ) = tape σ.
Proof.
  split; [|split; [|split; [|split]]].
  - unfold check_collision. by destruct (has_collision _ _ _ _).
  - unfold check_collision. by destruct (has_collision _ _ _ _).
  - apply check_collision_heap_length.
  - apply check_collision_heap.
  - unfold check_collision. by destruct (has_collision _ _ _ _).
Qed.

(** ** The event queue *)

Lemma pop_min_perm q m r : pop_min q = Some (m, r) → q ≡ₚ m :: r.
Proof.
  revert m r. induction q as [|e q IH]; intros m r; simpl; [done|].
  destruct (pop_min q) as [[m' r']|] eqn:Hq.
  - destruct (entry_lt e m'); intros [= <- <-]; [done|].
    rewrite (IH _ _ eq_refl). apply Permutation_swap.
  - intros [= <- <-]. destruct q; [done|]. simpl in Hq.
    destruct (pop_min q) as [[??]|]; [destruct (entry_lt _ _)|]; done.
Qed.

Lemma entry_lt_false a b : entry_lt a b = false → entry_le b a.
Proof.
  unfold entry_lt, entry_le. intros H.
  apply orb_false_iff in H as [H1 H2]. apply Z.ltb_ge in H1.
  apply andb_false_iff in H2 as [H2|H2].
  - apply Z.eqb_neq in H2. lia.
  - apply orb_false_iff in H2 as [H2 H3]. apply Nat.ltb_ge in H2.
    apply andb_false_iff in H3 as [H3|H3].
    + apply Nat.eqb_neq in H3. lia.
    + apply Nat.ltb_ge in H3. lia.
Qed.

Lemma entry_lt_true a b : entry_lt a b = true → entry_le a b.
Proof.
  unfold entry_lt, entry_le. intros H.
  apply orb_true_iff in H as [H|H]; [apply Z.ltb_lt in H; lia|].
  apply andb_true_iff in H as [H1 H2]. apply Z.eqb_eq in H1.
  apply orb_true_iff in H2 as [H2|H2]; [apply Nat.ltb_lt in H2; lia|].
  apply andb_true_iff in H2 as [H2 H3].
  apply Nat.eqb_eq in H2. apply Nat.ltb_lt in H3. lia.
Qed.

Lemma entry_le_trans a b c : entry_le a b → entry_le b c → entry_le a c.
Proof. unfold entry_le. lia. Qed.

Lemma entry_le_refl a : entry_le a a.
Proof. unfold entry_le. lia. Qed.

Lemma pop_min_least q m r : pop_min q = Some (m, r) → ∀ x, x ∈ r → entry_le m x.
Proof.
  revert m r. induction q as [|e q IH]; intros m r; simpl; [done|].
  destruct (pop_min q) as [[m' r']|] eqn:Hq.
  - destruct (entry_lt e m') eqn:Hlt; intros [= <- <-] x Hx.
    + apply entry_lt_true in Hlt.
      apply pop_min_perm in Hq. rewrite Hq in Hx.
      apply elem_of_cons in Hx as [->|Hx]; [done|].
      eapply entry_le_trans; [done|]. by eapply IH.
    + apply entry_lt_false in Hlt.
      apply elem_of_cons in Hx as [->|Hx]; [done|]. by eapply IH.
  - intros [= <- <-] x Hx. by apply elem_of_nil in Hx.
Qed.

Lemma step_inv σ σ' :
  step σ = Running σ' →
  ∃ e q, pop_min (queue σ) = Some (e, q)
         ∧ exec (e_cont e) (set_now_queue (e_time e) q σ) = Running σ'.
Proof.
  unfold step. destruct (pop_min (queue σ)) as [[e q]|]; [|done]. eauto.
Qed.

Ltac norm :=
  cbn [queue stations now next_eid heap frames_in_transmit tape schedule
       upd_station set_stations set_tape set_frames set_now_queue
       begin_attempt add_frame_in_transmit e_time e_prio e_eid e_cont] in *.

Lemma draw_inv σ r σ1 : draw σ = Some (r, σ1) → 0 ≤ r ∧ ∃ t, σ1 = set_tape t σ.
Proof.
  unfold draw. destruct (tape σ) as [|x t]; [done|]. intros [= <- <-].
  split; [lia|eauto].
Qed.

Lemma generate_frame_time_pos t ft t' : generate_frame_time t = Some (ft, t') → 0 < ft.
Proof.
  induction t as [|r t IH]; simpl; [done|].
  destruct (0 <? r)%N eqn:Hr; [|done]. intros [= <- <-].
  apply N.ltb_lt in Hr. lia.
Qed.

Lemma length_upd s f σ : length (stations (upd_station s f σ)) = length (stations σ).
Proof. norm. by rewrite length_alter. Qed.

Lemma trigger_put_cases s σ :
  trigger_put s σ = σ
  ∨ ∃ j rest, put_queue (server (station s σ)) = j :: rest
              ∧ users (server (station s σ)) = []
              ∧ trigger_put s σ = schedule NORMAL 0 (KWfsReq s j) (upd_station s (grant j rest) σ).
Proof.
  unfold trigger_put. destruct (put_queue _) as [|j rest]; [by left|].
  destruct (users _) as [|u us] eqn:Hu; simpl; [|by left].
  right. by exists j, rest.
Qed.

Lemma check_collision_stations frame fid σ :
  stations (check_collision frame fid σ) = stations σ.
Proof. unfold check_collision. by destruct (has_collision _ _ _ _). Qed.

Lemma check_collision_queue frame fid σ :
  queue (check_collision frame fid σ) = queue σ.
Proof. unfold check_collision. by destruct (has_collision _ _ _ _). Qed.

Lemma check_collision_now frame fid σ :
  now (check_collision frame fid σ) = now σ.
Proof. unfold check_collision. by destruct (has_collision _ _ _ _). Qed.

Lemma check_collision_next_eid frame fid σ :
  next_eid (check_collision frame fid σ) = next_eid σ.
Proof. unfold check_collision. by destruct (has_collision _ _ _ _). Qed.

Lemma check_collision_tape frame fid σ :
  tape (check_collision frame fid σ) = tape σ.
Proof. unfold check_collision. by destruct (has_collision _ _ _ _). Qed.

Lemma check_collision_frames frame fid σ :
  frames_in_transmit (check_collision frame fid σ) = frames_in_transmit σ.
Proof. unfold check_collision. by destruct (has_collision _ _ _ _). Qed.

Lemma check_collision_station frame fid s σ :
  station s (check_collision frame fid σ) = station s σ.
Proof. unfold station. by rewrite check_collision_stations. Qed.

Create Rewrite HintDb sim.
Hint Rewrite check_collision_stations check_collision_queue check_collision_now
  check_collision_next_eid check_collision_tape check_collision_frames
  check_collision_station @length_alter : sim.

Ltac simp_state := norm; repeat (progress (autorewrite with sim; norm)).
Ltac in_range := simp_state; lia.

Lemma queue_inv_schedule prio delay k σ :
  queue_inv σ → prio = cont_prio k → 0 ≤ delay →
  (zero_delay k = true → delay = 0) →
  cont_ok (now σ) k → k ≠ KUntil →
  queue_inv (schedule prio delay k σ).
Proof.
  intros [] Hp Hd Hz Hs Hu. split; norm.
  - intros e [->|He]%elem_of_cons; norm; [lia|]. specialize (qi_eids0 _ He). lia.
  - rewrite fmap_cons. apply NoDup_cons. split; [|done]. norm.
    intros (e & Heq & He)%list_elem_of_fmap. specialize (qi_eids0 _ He). lia.
  - intros e [->|He]%elem_of_cons; norm; [lia|]. by apply qi_time0.
  - intros e [->|He]%elem_of_cons; norm; [|by apply qi_zero0].
    intros Hk. specialize (Hz Hk). lia.
  - intros e [->|He]%elem_of_cons; norm; [done|]. by apply qi_prio0.
  - by apply elem_of_cons; right.
  - intros e [->|He]%elem_of_cons; norm; [done|]. by apply qi_until_only0.
  - done.
  - done.
  - intros e [->|He]%elem_of_cons; norm; [done|]. by apply qi_cont0.
Qed.

Lemma queue_inv_upd_station s f σ : queue_inv σ → queue_inv (upd_station s f σ).
Proof. intros []. split; norm; try done. by rewrite length_alter. Qed.

Lemma queue_inv_set_tape t σ : queue_inv σ → queue_inv (set_tape t σ).
Proof. intros []. by split. Qed.

Lemma queue_inv_set_frames reg h σ : queue_inv σ → queue_inv (set_frames reg h σ).
Proof. intros []. by split. Qed.

Lemma queue_inv_check_collision frame fid σ :
  queue_inv σ → queue_inv (check_collision frame fid σ).
Proof.
  unfold check_collision. destruct (has_collision _ _ _ _); [|done].
  apply queue_inv_set_frames.
Qed.

Lemma queue_inv_trigger_put s σ :
  (s < NUM_STATIONS)%nat → queue_inv σ → queue_inv (trigger_put s σ).
Proof.
  intros Hs I. destruct (trigger_put_cases s σ) as [->|(j & rest & _ & _ & ->)]; [done|].
  apply queue_inv_schedule; try done.
  - by apply queue_inv_upd_station.
  - split; [by intros ? [= <-]|split; [done|constructor]].
Qed.

Lemma queue_inv_pop σ m q :
  queue_inv σ → pop_min (queue σ) = Some (m, q) → e_cont m ≠ KUntil →
  queue_inv (set_now_queue (e_time m) q σ).
Proof.
  intros [] Hpop Hk.
  pose proof (pop_min_perm _ _ _ Hpop) as Hperm.
  pose proof (pop_min_least _ _ _ Hpop) as Hleast.
  assert (Hsub : ∀ e, e ∈ q → e ∈ queue σ).
  { intros e He. rewrite Hperm. by apply elem_of_cons; right. }
  assert (Hm : m ∈ queue σ) by (rewrite Hperm; by apply elem_of_cons; left).
  assert (Hlt : e_time m < TERMINATE_TIME).
  { assert (Hmu : until_entry ∈ q).
    { rewrite Hperm in qi_until0. apply elem_of_cons in qi_until0 as [Heq|?]; [|done].
      destruct Hk. by rewrite <- Heq. }
    specialize (Hleast _ Hmu). unfold entry_le, until_entry in Hleast. norm.
    destruct Hleast as [?|[Ht [Hp|[Hp _]]]]; [done|unfold URGENT in Hp; lia|].
    specialize (qi_prio0 _ Hm). rewrite Hp in qi_prio0.
    assert (zero_delay (e_cont m) = true) as Hz.
    { destruct (e_cont m); try done. }
    specialize (qi_zero0 _ Hm Hz). lia. }
  split; norm.
  - auto.
  - rewrite Hperm, fmap_cons in qi_nodup0. by apply NoDup_cons in qi_nodup0 as [_ ?].
  - intros e He. specialize (Hleast _ He). unfold entry_le in Hleast. lia.
  - intros e He Hz. specialize (Hleast _ He). unfold entry_le in Hleast.
    specialize (qi_zero0 _ (Hsub _ He) Hz). specialize (qi_time0 _ Hm). lia.
  - auto.
  - rewrite Hperm in qi_until0. apply elem_of_cons in qi_until0 as [Heq|?]; [|done].
    destruct Hk. by rewrite <- Heq.
  - auto.
  - specialize (qi_time0 _ Hm). lia.
  - done.
  - intros e He. destruct (qi_cont0 _ (Hsub _ He)) as (? & ? & Ht).
    split; [done|split; [done|]]. eapply Forall_impl; [done|].
    simpl. specialize (qi_time0 _ Hm). lia.
Qed.

Lemma cont_ok_mono t t' k : t ≤ t' → cont_ok t k → cont_ok t' k.
Proof.
  intros Ht (? & ? & H). split; [done|split; [done|]].
  eapply Forall_impl; [done|]. simpl. lia.
Qed.

Lemma queue_inv_exec k σ σ' :
  queue_inv σ → cont_ok (now σ) k →
  exec k σ = Running σ' → queue_inv σ'.
Proof.
  intros I (Hs & Hft & Ht) Hexec.
  destruct k; simpl in Hexec; repeat case_match; simplify_eq;
    try (specialize (Hs _ eq_refl)); try (specialize (Hft _ eq_refl));
    simpl in Ht; repeat (apply Forall_cons in Ht as [? Ht]);
    repeat match goal with
    | H : draw _ = Some _ |- _ => apply draw_inv in H as [? [? ->]]
    | H : generate_frame_time _ = Some _ |- _ => apply generate_frame_time_pos in H
    end;
    unfold begin_attempt, add_frame_in_transmit, remove_frame_in_transmit in *;
    repeat case_match; simplify_eq;
    repeat first
      [ done
      | apply queue_inv_schedule;
          [|done|lia|(done || (intros; lia))
           |split; [by intros ? [= <-]
                   |split; [(done || by intros ? [= <-])
                           |simp_state; repeat constructor; (done || lia)]]
           |done]
      | apply queue_inv_trigger_put; [done|]
      | apply queue_inv_upd_station
      | apply queue_inv_set_tape
      | apply queue_inv_set_frames
      | apply queue_inv_check_collision ].
Qed.

Lemma queue_inv_step σ σ' : queue_inv σ → step σ = Running σ' → queue_inv σ'.
Proof.
  intros I (m & q & Hpop & Hexec)%step_inv.
  eapply queue_inv_exec; [eapply queue_inv_pop; try done| |done].
  - intros Hk. rewrite Hk in Hexec. done.
  - norm. eapply cont_ok_mono; [|apply (qi_cont _ I m)].
    + apply (qi_time _ I m). rewrite (pop_min_perm _ _ _ Hpop). by apply elem_of_cons; left.
    + rewrite (pop_min_perm _ _ _ Hpop). by apply elem_of_cons; left.
Qed.

(** ** One message at a time holds the server of a station *)

Lemma station_upd_eq s f σ :
  (s < length (stations σ))%nat → station s (upd_station s f σ) = f (station s σ).
Proof. intros. unfold station. norm. by apply list_lookup_total_alter_eq. Qed.

Lemma station_upd_ne s s' f σ :
  s ≠ s' → station s (upd_station s' f σ) = station s σ.
Proof. intros. unfold station. norm. by apply list_lookup_total_alter_ne. Qed.

Lemma station_upd s s' f σ :
  (s' < length (stations σ))%nat →
  station s (upd_station s' f σ) = if decide (s = s') then f (station s σ) else station s σ.
Proof.
  intros. destruct (decide (s = s')) as [->|]; [by apply station_upd_eq|by apply station_upd_ne].
Qed.

Lemma mutex_inv_weaken c σ : mutex_inv c σ → mutex_inv None σ.
Proof. intros []. split; [|done|done]. intros e s i He Hh. split; [|done]. by eapply mi_holder0. Qed.

Lemma mutex_inv_pop σ m q :
  queue_inv σ → mutex_inv None σ → pop_min (queue σ) = Some (m, q) →
  mutex_inv (holder (e_cont m)) (set_now_queue (e_time m) q σ).
Proof.
  intros QI [] Hpop. pose proof (pop_min_perm _ _ _ Hpop) as Hperm.
  assert (Hsub : ∀ e, e ∈ q → e ∈ queue σ).
  { intros e He. rewrite Hperm. by apply elem_of_cons; right. }
  assert (Hm : m ∈ queue σ) by (rewrite Hperm; by apply elem_of_cons; left).
  assert (Hnot : m ∉ q).
  { pose proof (qi_nodup _ QI) as Hnd. rewrite Hperm, fmap_cons in Hnd.
    apply NoDup_cons in Hnd as [Hnd _]. intros Hin. apply Hnd.
    apply list_elem_of_fmap. eauto. }
  split; norm.
  - intros e s i He Hh. split; [by eapply (mi_holder0 e); eauto|].
    intros i' Hc. assert (e = m) as -> by (eapply mi_unique0; eauto). done.
  - eauto.
  - intros s i Hc. by eapply (mi_holder0 m).
Qed.

Lemma mutex_inv_schedule_other c prio delay k σ :
  mutex_inv c σ → holder k = None → mutex_inv c (schedule prio delay k σ).
Proof.
  intros [] Hk. split; norm.
  - intros e s i [->|He]%elem_of_cons; norm; [by rewrite Hk|]. eauto.
  - intros e1 e2 s i1 i2 [->|He1]%elem_of_cons [->|He2]%elem_of_cons; norm;
      rewrite ?Hk; try done. eauto.
  - done.
Qed.

Lemma mutex_inv_schedule_holder s i prio delay k σ :
  mutex_inv (Some (s, i)) σ → holder k = Some (s, i) →
  mutex_inv None (schedule prio delay k σ).
Proof.
  intros [] Hk. split; norm.
  - intros e s' i' [->|He]%elem_of_cons; norm.
    + rewrite Hk. intros [= <- <-]. split; [by apply mi_hand0|done].
    + intros Hh. split; [|done]. by eapply mi_holder0.
  - intros e1 e2 s' i1 i2 [->|He1]%elem_of_cons [->|He2]%elem_of_cons; norm;
      rewrite ?Hk; try done.
    + intros [= <- <-] Hh. by destruct (mi_holder0 _ _ _ He2 Hh) as [_ Hno]; destruct (Hno i).
    + intros Hh [= <- <-]. by destruct (mi_holder0 _ _ _ He1 Hh) as [_ Hno]; destruct (Hno i).
    + eauto.
  - done.
Qed.

Lemma mutex_inv_upd c s f σ :
  (∀ x, users (server (f x)) = users (server x)) →
  (s < length (stations σ))%nat →
  mutex_inv c σ → mutex_inv c (upd_station s f σ).
Proof.
  intros Hf Hs [].
  assert (Hu : ∀ s', users_of s' (upd_station s f σ) = users_of s' σ).
  { intros s'. unfold users_of. rewrite station_upd by done. destruct (decide _); [|done].
    by rewrite Hf. }
  split; intros; rewrite ?Hu; eauto.
Qed.

Lemma mutex_inv_set_tape c t σ : mutex_inv c σ → mutex_inv c (set_tape t σ).
Proof. intros []. by split. Qed.

Lemma mutex_inv_set_frames c reg h σ : mutex_inv c σ → mutex_inv c (set_frames reg h σ).
Proof. intros []. by split. Qed.

Lemma mutex_inv_check_collision c frame fid σ :
  mutex_inv c σ → mutex_inv c (check_collision frame fid σ).
Proof.
  unfold check_collision. destruct (has_collision _ _ _ _); [|done].
  apply mutex_inv_set_frames.
Qed.

Lemma mutex_inv_trigger_put s σ :
  (s < length (stations σ))%nat →
  mutex_inv None σ → mutex_inv None (trigger_put s σ).
Proof.
  intros Hs I. destruct (trigger_put_cases s σ) as [->|(j & rest & Hq & Hu & ->)]; [done|].
  apply (mutex_inv_schedule_holder s j); [|done].
  destruct I. split; norm.
  - intros e s' i He Hh. destruct (mi_holder0 _ _ _ He Hh) as [Hus _].
    unfold users_of in *. rewrite station_upd by done.
    destruct (decide (s' = s)) as [->|]; [congruence|]. split; [done|congruence].
  - eauto.
  - intros s' i [= <- <-]. unfold users_of. rewrite station_upd_eq by done.
    simpl. fold (users_of s σ). unfold users_of. by rewrite Hu.
Qed.

Lemma wfs_complete_users t wtt x :
  users (server (wfs_complete t wtt x)) = users (server x).
Proof. unfold wfs_complete. by destruct (_ && _). Qed.

Lemma mutex_inv_release s i σ :
  (s < length (stations σ))%nat →
  mutex_inv (Some (s, i)) σ → mutex_inv None (upd_station s (release i) σ).
Proof.
  intros Hs []. split; norm; [|eauto|done].
  intros e s' i' He Hh. destruct (mi_holder0 _ _ _ He Hh) as [Hus Hno].
  split; [|done]. unfold users_of in *. rewrite station_upd by done.
  destruct (decide (s' = s)) as [->|]; [|done]. by destruct (Hno i).
Qed.

Lemma mutex_inv_exec k σ σ' :
  queue_inv σ → cont_ok (now σ) k → mutex_inv (holder k) σ →
  exec k σ = Running σ' → mutex_inv None σ'.
Proof.
  intros QI (Hs & Hft & _) I Hexec. pose proof (qi_stations _ QI) as Hlen.
  destruct k; simpl in Hexec; repeat case_match; simplify_eq;
    try (specialize (Hs _ eq_refl)); simpl in I;
    repeat match goal with
    | H : draw _ = Some _ |- _ => apply draw_inv in H as [? [? ->]]
    end;
    unfold begin_attempt, add_frame_in_transmit, remove_frame_in_transmit in *;
    repeat case_match; simplify_eq;
    repeat first
      [ done
      | eapply mutex_inv_schedule_holder; [|done]
      | apply mutex_inv_schedule_other; [|done]
      | apply mutex_inv_trigger_put; [in_range|]
      | apply mutex_inv_release; [in_range|]
      | apply mutex_inv_upd; [(done || apply wfs_complete_users)|in_range|]
      | apply mutex_inv_set_tape
      | apply mutex_inv_set_frames
      | apply mutex_inv_check_collision
      | eapply mutex_inv_weaken; eassumption ].
Qed.

Lemma mutex_inv_step σ σ' :
  queue_inv σ → mutex_inv None σ → step σ = Running σ' → mutex_inv None σ'.
Proof.
  intros QI I (m & q & Hpop & Hexec)%step_inv.
  assert (Hm : m ∈ queue σ).
  { rewrite (pop_min_perm _ _ _ Hpop). by apply elem_of_cons; left. }
  eapply mutex_inv_exec; [eapply queue_inv_pop; try done| | |done].
  - intros Hk. rewrite Hk in Hexec. done.
  - norm. eapply cont_ok_mono; [by apply (qi_time _ QI m)|by apply (qi_cont _ QI m)].
  - by apply mutex_inv_pop.
Qed.

(** ** Successes and initial transmits *)

Lemma started_holder k s : started k = Some s → ∃ i, holder k = Some (s, i).
Proof. destruct k; simpl; intros [=]; subst; eauto. Qed.

Lemma mutex_hand_no_started s i σ :
  mutex_inv (Some (s, i)) σ → ∀ e, e ∈ queue σ → started (e_cont e) ≠ Some s.
Proof.
  intros [] e He Hst. apply started_holder in Hst as [i' Hh].
  destruct (mi_holder0 _ _ _ He Hh) as [_ Hno]. by destruct (Hno i).
Qed.

Lemma acct_inv_pop σ m q :
  acct_inv None σ → pop_min (queue σ) = Some (m, q) →
  acct_inv (started (e_cont m)) (set_now_queue (e_time m) q σ).
Proof.
  intros [] Hpop. pose proof (pop_min_perm _ _ _ Hpop) as Hperm.
  assert (Hsub : ∀ e, e ∈ q → e ∈ queue σ).
  { intros e He. rewrite Hperm. by apply elem_of_cons; right. }
  assert (Hm : m ∈ queue σ) by (rewrite Hperm; by apply elem_of_cons; left).
  split; norm; eauto.
  intros s Hne Hno. apply ai_idle0; [done|]. intros e He.
  rewrite Hperm in He. apply elem_of_cons in He as [->|He]; [done|eauto].
Qed.

Lemma acct_inv_schedule_other a prio delay k σ :
  acct_inv a σ → started k = None → acct_inv a (schedule prio delay k σ).
Proof.
  intros [] Hk. split; norm; try done.
  - intros e s [->|He]%elem_of_cons; norm; [by rewrite Hk|]. eauto.
  - intros s Hne Hno. apply ai_idle0; [done|]. intros e He. apply Hno.
    by apply elem_of_cons; right.
Qed.

Lemma acct_inv_schedule_started s prio delay k σ :
  acct_inv (Some s) σ → started k = Some s → acct_inv None (schedule prio delay k σ).
Proof.
  intros [] Hk. split; norm; try done.
  - intros e s' [->|He]%elem_of_cons; norm; [|eauto].
    rewrite Hk. intros [= <-]. eauto.
  - intros s' _ Hno. apply ai_idle0.
    + intros [= ->]. eapply Hno; [by apply elem_of_cons; left|]. done.
    + intros e He. apply Hno. by apply elem_of_cons; right.
Qed.

Lemma acct_inv_upd a s f σ :
  (∀ x, num_initial_transmits (f x) = num_initial_transmits x ∧ nt (f x) = nt x) →
  (s < length (stations σ))%nat →
  acct_inv a σ → acct_inv a (upd_station s f σ).
Proof.
  intros Hf Hs [].
  assert (Hu : ∀ s', nit_of s' (upd_station s f σ) = nit_of s' σ
                     ∧ nt_of s' (upd_station s f σ) = nt_of s' σ).
  { intros s'. unfold nit_of, nt_of. rewrite station_upd by done.
    destruct (decide _); [|done]. apply Hf. }
  split; intros; rewrite ?(proj1 (Hu _)), ?(proj2 (Hu _)); eauto.
Qed.

Lemma acct_inv_set_tape c t σ : acct_inv c σ → acct_inv c (set_tape t σ).
Proof. intros []. by split. Qed.

Lemma acct_inv_set_frames c reg h σ : acct_inv c σ → acct_inv c (set_frames reg h σ).
Proof. intros []. by split. Qed.

Lemma acct_inv_check_collision c frame fid σ :
  acct_inv c σ → acct_inv c (check_collision frame fid σ).
Proof.
  unfold check_collision. destruct (has_collision _ _ _ _); [|done].
  apply acct_inv_set_frames.
Qed.

Lemma acct_inv_trigger_put a s σ :
  (s < length (stations σ))%nat → acct_inv a σ → acct_inv a (trigger_put s σ).
Proof.
  intros Hs I. destruct (trigger_put_cases s σ) as [->|(j & rest & Hq & Hu & ->)]; [done|].
  apply acct_inv_schedule_other; [|done]. by apply acct_inv_upd.
Qed.

(** Line 149: the transmit of a message starts. *)
Lemma acct_inv_count_initial s σ :
  (s < length (stations σ))%nat →
  (∀ e, e ∈ queue σ → started (e_cont e) ≠ Some s) →
  acct_inv None σ → acct_inv (Some s) (upd_station s count_initial_transmit σ).
Proof.
  intros Hs Hno [].
  assert (Hu : ∀ s', s' ≠ s →
    nit_of s' (upd_station s count_initial_transmit σ) = nit_of s' σ
    ∧ nt_of s' (upd_station s count_initial_transmit σ) = nt_of s' σ).
  { intros s' Hne. unfold nit_of, nt_of. by rewrite station_upd_ne. }
  assert (Hs' : nit_of s (upd_station s count_initial_transmit σ) = nit_of s σ + 1
                ∧ nt_of s (upd_station s count_initial_transmit σ) = nt_of s σ).
  { unfold nit_of, nt_of. by rewrite station_upd_eq. }
  split; norm.
  - intros e s' He Hst. destruct (decide (s' = s)) as [->|Hne]; [by destruct (Hno e He)|].
    destruct (Hu _ Hne) as [-> ->]. eauto.
  - intros s' [= <-]. destruct Hs' as [-> ->]. rewrite (ai_idle0 s); done.
  - intros s' Hne Hno'. destruct (Hu s') as [-> ->]; [congruence|]. by apply ai_idle0.
  - intros s'. destruct (decide (s' = s)) as [->|Hne].
    + destruct Hs' as [_ ->]. done.
    + destruct (Hu _ Hne) as [_ ->]. done.
Qed.

(** Lines 191-200: the message is counted as transmitted. *)
Lemma acct_inv_wfs_complete s t wtt σ :
  (s < length (stations σ))%nat →
  (∀ e, e ∈ queue σ → started (e_cont e) ≠ Some s) →
  acct_inv (Some s) σ → acct_inv None (upd_station s (wfs_complete t wtt) σ).
Proof.
  intros Hs Hno [].
  assert (Hu : ∀ s', s' ≠ s →
    nit_of s' (upd_station s (wfs_complete t wtt) σ) = nit_of s' σ
    ∧ nt_of s' (upd_station s (wfs_complete t wtt) σ) = nt_of s' σ).
  { intros s' Hne. unfold nit_of, nt_of. by rewrite station_upd_ne. }
  assert (Hs' : nit_of s (upd_station s (wfs_complete t wtt) σ)
                = nt_of s (upd_station s (wfs_complete t wtt) σ)
                ∧ 0 ≤ nt_of s (upd_station s (wfs_complete t wtt) σ)).
  { unfold nit_of, nt_of. rewrite station_upd_eq by done.
    specialize (ai_hand0 s eq_refl). specialize (ai_nonneg0 s).
    unfold nit_of, nt_of in *. unfold wfs_complete.
    destruct (_ && _); simpl; lia. }
  split; norm.
  - intros e s' He Hst. destruct (decide (s' = s)) as [->|Hne]; [by destruct (Hno e He)|].
    destruct (Hu _ Hne) as [-> ->]. eauto.
  - done.
  - intros s' _ Hno'. destruct (decide (s' = s)) as [->|Hne]; [apply Hs'|].
    destruct (Hu _ Hne) as [-> ->]. apply ai_idle0; [congruence|done].
  - intros s'. destruct (decide (s' = s)) as [->|Hne]; [apply Hs'|].
    destruct (Hu _ Hne) as [_ ->]. done.
Qed.

Lemma acct_inv_weaken_idle s σ :
  (∀ e, e ∈ queue σ → started (e_cont e) ≠ Some s) → acct_inv None σ → acct_inv None σ.
Proof. done. Qed.

Lemma acct_inv_exec k σ σ' :
  queue_inv σ → cont_ok (now σ) k → mutex_inv (holder k) σ → acct_inv (started k) σ →
  exec k σ = Running σ' → acct_inv None σ'.
Proof.
  intros QI (Hs & Hft & _) MI I Hexec. pose proof (qi_stations _ QI) as Hlen.
  destruct k; simpl in Hexec; repeat case_match; simplify_eq;
    try (specialize (Hs _ eq_refl)); simpl in I; simpl in MI;
    repeat match goal with
    | H : draw _ = Some _ |- _ => apply draw_inv in H as [? [? ->]]
    end;
    unfold begin_attempt, add_frame_in_transmit, remove_frame_in_transmit in *;
    repeat case_match; simplify_eq;
    repeat first
      [ done
      | eapply acct_inv_schedule_started; [|done]
      | apply acct_inv_schedule_other; [|done]
      | apply acct_inv_trigger_put; [in_range|]
      | apply acct_inv_count_initial; [in_range|by eapply mutex_hand_no_started|]
      | apply acct_inv_wfs_complete; [in_range|by eapply mutex_hand_no_started|]
      | apply acct_inv_upd; [by intros; split|in_range|]
      | apply acct_inv_set_tape
      | apply acct_inv_set_frames
      | apply acct_inv_check_collision ].
Qed.

Lemma acct_inv_step σ σ' :
  queue_inv σ → mutex_inv None σ → acct_inv None σ →
  step σ = Running σ' → acct_inv None σ'.
Proof.
  intros QI MI I (m & q & Hpop & Hexec)%step_inv.
  assert (Hm : m ∈ queue σ).
  { rewrite (pop_min_perm _ _ _ Hpop). by apply elem_of_cons; left. }
  eapply acct_inv_exec; [eapply queue_inv_pop; try done| | | |done].
  - intros Hk. rewrite Hk in Hexec. done.
  - norm. eapply cont_ok_mono; [by apply (qi_time _ QI m)|by apply (qi_cont _ QI m)].
  - by apply mutex_inv_pop.
  - by apply acct_inv_pop.
Qed.

(** ** Busy time *)

Lemma busy_inv_pop σ m q :
  queue_inv σ → busy_inv None σ → pop_min (queue σ) = Some (m, q) →
  busy_inv (Some (e_cont m)) (set_now_queue (e_time m) q σ).
Proof.
  intros QI [] Hpop. pose proof (pop_min_perm _ _ _ Hpop) as Hperm.
  assert (Hsub : ∀ e, e ∈ q → e ∈ queue σ).
  { intros e He. rewrite Hperm. by apply elem_of_cons; right. }
  assert (Hm : m ∈ queue σ) by (rewrite Hperm; by apply elem_of_cons; left).
  pose proof (qi_time _ QI m Hm) as Hnow.
  split; norm; eauto.
  - intros s. specialize (bi_now0 s). unfold busy_of, base_of, station in *. norm. lia.
  - intros s i wtt ft f tx [= Hk]. by eapply (bi_frame0 m).
  - intros s Hr. destruct (bi_unreset0 s Hr) as [?|[(e & i & wtt & He & Hk)|(? & ? & [=])]];
      [by left|]. rewrite Hperm in He. apply elem_of_cons in He as [->|He].
    + right; right. rewrite Hk. eauto.
    + right; left. eauto.
Qed.

Lemma busy_inv_schedule_frame c prio delay s i wtt ft f tx σ :
  tx = now σ → busy_inv c σ →
  busy_inv c (schedule prio delay (KTransmitFrame s i wtt ft f tx) σ).
Proof.
  intros -> []. split; norm; try done.
  - intros e s' i' wtt' ft' f' tx' [->|He]%elem_of_cons; norm; [|eauto].
    intros [= <- <- <- <- <- <-]. apply bi_now0.
  - intros s' Hr. destruct (bi_unreset0 s' Hr) as [?|[(e & i' & wtt' & He & Hk)|?]]; auto.
    right; left. exists e, i', wtt'. split; [by apply elem_of_cons; right|done].
Qed.

Lemma busy_inv_schedule_other c prio delay k σ :
  (∀ s i wtt ft f tx, k ≠ KTransmitFrame s i wtt ft f tx) →
  busy_inv c σ → busy_inv c (schedule prio delay k σ).
Proof.
  intros Hk []. split; norm; try done.
  - intros e s' i' wtt' ft' f' tx' [->|He]%elem_of_cons; norm; [|eauto].
    intros ->. by edestruct Hk.
  - intros s' Hr. destruct (bi_unreset0 s' Hr) as [?|[(e & i' & wtt' & He & Hk')|?]]; auto.
    right; left. exists e, i', wtt'. split; [by apply elem_of_cons; right|done].
Qed.

Lemma busy_inv_schedule_end prio delay s i wtt σ :
  busy_inv (Some (KTransmitEnd s i wtt)) σ →
  busy_inv None (schedule prio delay (KTransmitEnd s i wtt) σ).
Proof.
  intros []. split; norm; try done.
  - intros e s' i' wtt' ft' f' tx' [->|He]%elem_of_cons; norm; [done|eauto].
  - intros s' Hr.
    destruct (bi_unreset0 s' Hr) as [?|[(e & i' & wtt' & He & Hk')|(i' & wtt' & [= <- <- <-])]];
      auto.
    + right; left. exists e, i', wtt'. split; [by apply elem_of_cons; right|done].
    + right; left. eexists _, i, wtt. split; [by apply elem_of_cons; left|done].
Qed.

Lemma busy_inv_drop k σ :
  (∀ s i wtt, k ≠ KTransmitEnd s i wtt) → busy_inv (Some k) σ → busy_inv None σ.
Proof.
  intros Hk []. split; try done.
  intros s Hr. destruct (bi_unreset0 s Hr) as [?|[?|(i & wtt & [= ->])]]; auto.
  by edestruct Hk.
Qed.

Lemma busy_inv_upd c s f σ :
  (∀ x, busy_time (f x) = busy_time x
        ∧ initial_reset_completed (f x) = initial_reset_completed x) →
  (s < length (stations σ))%nat →
  busy_inv c σ → busy_inv c (upd_station s f σ).
Proof.
  intros Hf Hs [].
  assert (Hu : ∀ s', busy_of s' (upd_station s f σ) = busy_of s' σ
                     ∧ base_of s' (upd_station s f σ) = base_of s' σ
                     ∧ reset_of s' (upd_station s f σ) = reset_of s' σ).
  { intros s'. unfold busy_of, base_of, reset_of, base. rewrite station_upd by done.
    destruct (decide _); [|done]. destruct (Hf (station s' σ)) as [-> ->]. done. }
  split; norm; intros.
  - destruct (Hu s0) as (-> & _ & _). done.
  - destruct (Hu s0) as (-> & -> & _). done.
  - destruct (Hu s0) as (-> & -> & _). eauto.
  - destruct (Hu s0) as (-> & -> & _). eauto.
  - destruct (Hu s0) as (-> & _ & Hr). rewrite Hr in H. eauto.
Qed.

Lemma busy_inv_set_tape c t σ : busy_inv c σ → busy_inv c (set_tape t σ).
Proof. intros []. by split. Qed.

Lemma busy_inv_set_frames c reg h σ : busy_inv c σ → busy_inv c (set_frames reg h σ).
Proof. intros []. by split. Qed.

Lemma busy_inv_check_collision c frame fid σ :
  busy_inv c σ → busy_inv c (check_collision frame fid σ).
Proof.
  unfold check_collision. destruct (has_collision _ _ _ _); [|done].
  apply busy_inv_set_frames.
Qed.

Lemma busy_inv_trigger_put c s σ :
  (s < length (stations σ))%nat → busy_inv c σ → busy_inv c (trigger_put s σ).
Proof.
  intros Hs I. destruct (trigger_put_cases s σ) as [->|(j & rest & Hq & Hu & ->)]; [done|].
  apply busy_inv_schedule_other; [done|]. by apply busy_inv_upd.
Qed.

(** Line 170: a frame was transmitted without collision. *)
Lemma busy_inv_add_busy s i wtt ft f tx d σ :
  (s < length (stations σ))%nat → no_frame_of s σ →
  0 ≤ d → tx + d ≤ now σ →
  busy_inv (Some (KTransmitFrame s i wtt ft f tx)) σ →
  busy_inv (Some (KTransmitEnd s i wtt)) (upd_station s (add_busy_time d) σ).
Proof.
  intros Hs Hno Hd Htx [].
  assert (Hu : ∀ s', s' ≠ s →
    busy_of s' (upd_station s (add_busy_time d) σ) = busy_of s' σ
    ∧ base_of s' (upd_station s (add_busy_time d) σ) = base_of s' σ
    ∧ reset_of s' (upd_station s (add_busy_time d) σ) = reset_of s' σ).
  { intros s' Hne. unfold busy_of, base_of, reset_of. by rewrite station_upd_ne. }
  assert (Hs' : busy_of s (upd_station s (add_busy_time d) σ) = busy_of s σ + d
    ∧ base_of s (upd_station s (add_busy_time d) σ) = base_of s σ).
  { unfold busy_of, base_of. by rewrite station_upd_eq. }
  specialize (bi_hand0 _ _ _ _ _ _ eq_refl).
  split; norm.
  - intros s'. destruct (decide (s' = s)) as [->|Hne].
    + destruct Hs' as [-> _]. specialize (bi_nonneg0 s). lia.
    + destruct (Hu _ Hne) as (-> & _ & _). done.
  - intros s'. destruct (decide (s' = s)) as [->|Hne].
    + destruct Hs' as [-> ->]. lia.
    + destruct (Hu _ Hne) as (-> & -> & _). done.
  - intros e s' i' wtt' ft' f' tx' He Hk. destruct (decide (s' = s)) as [->|Hne].
    + destruct (Hno e He). by rewrite Hk.
    + destruct (Hu _ Hne) as (-> & -> & _). eauto.
  - done.
  - intros s' Hr. destruct (decide (s' = s)) as [->|Hne]; [right; right; eauto|].
    destruct (Hu _ Hne) as (-> & _ & Hr'). rewrite Hr' in Hr.
    destruct (bi_unreset0 s' Hr) as [?|[?|(? & ? & [=])]]; auto.
Qed.

(** Lines 191-200: the counters are reset at the first success at or after
    the transient time. *)
Lemma busy_inv_wfs_complete s i wtt σ :
  (s < length (stations σ))%nat → no_frame_of s σ →
  busy_inv (Some (KTransmitEnd s i wtt)) σ →
  busy_inv None (upd_station s (wfs_complete (now σ) wtt) σ).
Proof.
  intros Hs Hno [].
  assert (Hu : ∀ s', s' ≠ s →
    busy_of s' (upd_station s (wfs_complete (now σ) wtt) σ) = busy_of s' σ
    ∧ base_of s' (upd_station s (wfs_complete (now σ) wtt) σ) = base_of s' σ
    ∧ reset_of s' (upd_station s (wfs_complete (now σ) wtt) σ) = reset_of s' σ).
  { intros s' Hne. unfold busy_of, base_of, reset_of. by rewrite station_upd_ne. }
  assert (Hs' :
    0 ≤ busy_of s (upd_station s (wfs_complete (now σ) wtt) σ)
    ∧ busy_of s (upd_station s (wfs_complete (now σ) wtt) σ)
      + base_of s (upd_station s (wfs_complete (now σ) wtt) σ) ≤ now σ
    ∧ (reset_of s (upd_station s (wfs_complete (now σ) wtt) σ) = false →
       busy_of s (upd_station s (wfs_complete (now σ) wtt) σ) ≤ TRANSIENT_TIME)).
  { unfold busy_of, base_of, reset_of, base. rewrite station_upd_eq by done.
    specialize (bi_nonneg0 s). specialize (bi_now0 s).
    unfold busy_of, base_of, base in *. unfold wfs_complete. simpl.
    destruct (initial_reset_completed (station s σ)) eqn:Hr; simpl.
    - repeat split; try done.
    - destruct (now σ >=? TRANSIENT_TIME) eqn:Hge; simpl.
      + apply Z.geb_le in Hge. repeat split; try done; lia.
      + assert (now σ < TRANSIENT_TIME) by (rewrite Z.geb_leb in Hge; apply Z.leb_gt in Hge; lia).
        repeat split; try done; lia. }
  split; norm.
  - intros s'. destruct (decide (s' = s)) as [->|Hne]; [apply Hs'|].
    destruct (Hu _ Hne) as (-> & _ & _). done.
  - intros s'. destruct (decide (s' = s)) as [->|Hne]; [apply Hs'|].
    destruct (Hu _ Hne) as (-> & -> & _). done.
  - intros e s' i' wtt' ft' f' tx' He Hk. destruct (decide (s' = s)) as [->|Hne].
    + destruct (Hno e He). by rewrite Hk.
    + destruct (Hu _ Hne) as (-> & -> & _). eauto.
  - done.
  - intros s' Hr. destruct (decide (s' = s)) as [->|Hne]; [left; by apply Hs'|].
    destruct (Hu _ Hne) as (-> & _ & Hr'). rewrite Hr' in Hr.
    destruct (bi_unreset0 s' Hr) as [?|[?|(i' & wtt' & [= <- <- <-])]]; auto. done.
Qed.

Lemma mutex_hand_no_frame s i σ : mutex_inv (Some (s, i)) σ → no_frame_of s σ.
Proof. intros ???. by eapply mutex_hand_no_started. Qed.

Lemma busy_inv_exec k σ σ' :
  queue_inv σ → cont_ok (now σ) k → mutex_inv (holder k) σ → busy_inv (Some k) σ →
  exec k σ = Running σ' → busy_inv None σ'.
Proof.
  intros QI (Hs & Hft & Ht) MI I Hexec. pose proof (qi_stations _ QI) as Hlen.
  destruct k; simpl in Hexec; repeat case_match; simplify_eq;
    try (specialize (Hs _ eq_refl)); simpl in MI;
    simpl in Ht; repeat (apply Forall_cons in Ht as [? Ht]);
    repeat match goal with
    | H : draw _ = Some _ |- _ => apply draw_inv in H as [? [? ->]]
    end;
    unfold begin_attempt, add_frame_in_transmit, remove_frame_in_transmit in *;
    repeat case_match; simplify_eq;
    repeat first
      [ done
      | apply busy_inv_schedule_end
      | apply busy_inv_schedule_frame; [by simp_state|]
      | apply busy_inv_schedule_other; [done|]
      | apply busy_inv_trigger_put; [in_range|]
      | match goal with
        | I : busy_inv (Some (KTransmitFrame ?s ?i ?wtt ?ft ?f ?tx)) _ |- _ =>
            apply (busy_inv_add_busy s i wtt ft f tx)
        end;
          [in_range
          |unfold no_frame_of; simp_state; eapply mutex_hand_no_frame; eassumption
          |simp_state; lia|simp_state; lia|]
      | eapply busy_inv_wfs_complete;
          [in_range|eapply mutex_hand_no_frame; eassumption|eassumption]
      | apply busy_inv_upd; [by intros; split|in_range|]
      | apply busy_inv_set_tape
      | apply busy_inv_set_frames
      | apply busy_inv_check_collision
      | eapply busy_inv_drop; [|eassumption]; done ].
Qed.

Lemma busy_inv_step σ σ' :
  queue_inv σ → mutex_inv None σ → busy_inv None σ →
  step σ = Running σ' → busy_inv None σ'.
Proof.
  intros QI MI I (m & q & Hpop & Hexec)%step_inv.
  assert (Hm : m ∈ queue σ).
  { rewrite (pop_min_perm _ _ _ Hpop). by apply elem_of_cons; left. }
  eapply busy_inv_exec; [eapply queue_inv_pop; try done| | | |done].
  - intros Hk. rewrite Hk in Hexec. done.
  - norm. eapply cont_ok_mono; [by apply (qi_time _ QI m)|by apply (qi_cont _ QI m)].
  - by apply mutex_inv_pop.
  - by apply busy_inv_pop.
Qed.

(** ** Frames in transmit *)

Lemma live_frame_other σ t k : is_frame k = false → live_frame σ t k.
Proof. by destruct k. Qed.

Lemma frame_inv_pop σ m q :
  queue_inv σ → frame_inv None σ → pop_min (queue σ) = Some (m, q) →
  frame_inv (Some (e_cont m)) (set_now_queue (e_time m) q σ).
Proof.
  intros QI [] Hpop. pose proof (pop_min_perm _ _ _ Hpop) as Hperm.
  pose proof (pop_min_least _ _ _ Hpop) as Hleast.
  assert (Hsub : ∀ e, e ∈ q → e ∈ queue σ).
  { intros e He. rewrite Hperm. by apply elem_of_cons; right. }
  assert (Hm : m ∈ queue σ) by (rewrite Hperm; by apply elem_of_cons; left).
  pose proof (qi_time _ QI m Hm) as Hnow.
  assert (Hq : quiet σ → e_time m = now σ → quiet (set_now_queue (e_time m) q σ)).
  { intros Hq Ht a Ha Hf. norm. rewrite Ht. eauto. }
  assert (Hz : ∀ b, b ∈ q → zero_delay (e_cont b) = true → e_time m = now σ).
  { intros b Hb Hzb. pose proof (qi_zero _ QI b (Hsub _ Hb) Hzb) as Hbt.
    specialize (Hleast _ Hb). unfold entry_le in Hleast. lia. }
  split; norm.
  - done.
  - done.
  - intros e He. by apply (fi_live0 e), Hsub.
  - intros k [= <-]. by apply (fi_live0 m).
  - intros a b Ha Hb Hfa Hgb Hta.
    assert (e_time m = now σ) as Hmt.
    { apply (Hz b Hb). by destruct (e_cont b). }
    apply fi_order0; auto. congruence.
  - intros b s i wtt Hb Hk. apply Hq; [eapply (fi_init0 b); [by apply Hsub|done]|].
    apply (Hz b Hb). by rewrite Hk.
  - intros e s i wtt ft f He Hk.
    assert (e_time m = now σ) as Hmt.
    { destruct (qi_cont _ QI e (Hsub _ He)) as (_ & _ & Ht). rewrite Hk in Ht.
      simpl in Ht. apply Forall_cons in Ht as [_ Ht]. apply Forall_cons in Ht as [Ht _]. lia. }
    apply Hq; [|done]. eapply fi_fresh0; [by apply Hsub|]. by rewrite <- Hmt.
  - intros k [= <-] Hnq.
    assert (e_time m = now σ) as Hmt.
    { apply (qi_zero _ QI m Hm). by destruct (e_cont m). }
    destruct (is_grant (e_cont m)) eqn:Hg.
    + intros a Ha Hf Hta. norm.
      assert (e_eid a < e_eid m)%nat as Hlt.
      { apply fi_order0; auto. congruence. }
      specialize (Hleast _ Ha). unfold entry_le in Hleast.
      pose proof (qi_prio _ QI m Hm) as Hpm. pose proof (qi_prio _ QI a (Hsub _ Ha)) as Hpa.
      assert (cont_prio (e_cont m) = NORMAL) as Hpm' by (by destruct (e_cont m)).
      assert (cont_prio (e_cont a) = NORMAL) as Hpa' by (by destruct (e_cont a)).
      lia.
    + apply Hq; [|done]. destruct (e_cont m) eqn:Hk; try done. by eapply (fi_init0 m).
Qed.

Lemma mutex_hand_no_holder s i σ : mutex_inv (Some (s, i)) σ → no_holder_of s σ.
Proof.
  intros [] e i' He Hh. destruct (mi_holder0 _ _ _ He Hh) as [_ Hno]. by destruct (Hno i).
Qed.

Lemma frame_inv_drop c σ : frame_inv c σ → frame_inv None σ.
Proof. intros []. by split. Qed.

Lemma quiet_schedule prio delay k σ :
  quiet σ → (is_frame k = true → delay ≠ 0) → quiet (schedule prio delay k σ).
Proof.
  intros Hq Hk a [->|Ha]%elem_of_cons Hf; norm; [|by apply Hq].
  specialize (Hk Hf). lia.
Qed.

Lemma frame_inv_schedule_other c prio delay k σ :
  is_frame k = false → is_grant k = false →
  (∀ s i wtt, k ≠ KTransmitInit s i wtt) →
  frame_inv c σ → frame_inv c (schedule prio delay k σ).
Proof.
  intros Hf Hg Hi [].
  assert (Hq : quiet σ → quiet (schedule prio delay k σ)).
  { intros Hq. apply quiet_schedule; [done|]. by rewrite Hf. }
  split; norm; try done.
  - intros e [->|He]%elem_of_cons; norm; [by apply live_frame_other|]. by apply fi_live0.
  - intros a b [->|Ha]%elem_of_cons [->|Hb]%elem_of_cons; norm;
      rewrite ?Hf, ?Hg; try done. eauto.
  - intros b s i wtt [->|Hb]%elem_of_cons; norm.
    + intros ->. by edestruct Hi.
    + intros Hk. apply Hq. by eapply fi_init0.
  - intros e s i wtt ft f [->|He]%elem_of_cons; norm.
    + intros ->. done.
    + intros Hk. apply Hq. by eapply fi_fresh0.
  - intros k' Hc Hn. apply Hq. by eapply fi_hand_quiet0.
Qed.

Lemma frame_inv_schedule_grant c prio delay k σ :
  queue_inv σ → is_grant k = true →
  frame_inv c σ → frame_inv c (schedule prio delay k σ).
Proof.
  intros QI Hg [].
  assert (Hf : is_frame k = false) by (by destruct k).
  assert (Hq : quiet σ → quiet (schedule prio delay k σ)).
  { intros Hq. apply quiet_schedule; [done|]. by rewrite Hf. }
  split; norm; try done.
  - intros e [->|He]%elem_of_cons; norm; [by apply live_frame_other|]. by apply fi_live0.
  - intros a b [->|Ha]%elem_of_cons [->|Hb]%elem_of_cons; norm;
      rewrite ?Hf; try done; [|eauto].
    intros _ _ _. by apply (qi_eids _ QI).
  - intros b s i wtt [->|Hb]%elem_of_cons; norm.
    + intros ->. done.
    + intros Hk. apply Hq. by eapply fi_init0.
  - intros e s i wtt ft f [->|He]%elem_of_cons; norm.
    + intros ->. done.
    + intros Hk. apply Hq. by eapply fi_fresh0.
  - intros k' Hc Hn. apply Hq. by eapply fi_hand_quiet0.
Qed.

Lemma frame_inv_schedule_init c prio delay s i wtt σ :
  quiet σ → frame_inv c σ →
  frame_inv c (schedule prio delay (KTransmitInit s i wtt) σ).
Proof.
  intros Hq0 [].
  assert (Hq : quiet (schedule prio delay (KTransmitInit s i wtt) σ)).
  { by apply quiet_schedule. }
  split; norm; try done.
  - intros e [->|He]%elem_of_cons; norm; [done|]. by apply fi_live0.
  - intros a b [->|Ha]%elem_of_cons [->|Hb]%elem_of_cons; norm; try done. eauto.
Qed.

Lemma frame_inv_upd c s f σ : frame_inv c σ → frame_inv c (upd_station s f σ).
Proof. intros []. by split. Qed.

Lemma frame_inv_set_tape c t σ : frame_inv c σ → frame_inv c (set_tape t σ).
Proof. intros []. by split. Qed.

Lemma frame_inv_trigger_put c s σ :
  queue_inv σ → frame_inv c σ → frame_inv c (trigger_put s σ).
Proof.
  intros QI I. destruct (trigger_put_cases s σ) as [->|(j & rest & Hq & Hu & ->)]; [done|].
  apply frame_inv_schedule_grant; [by apply queue_inv_upd_station|done|].
  by apply frame_inv_upd.
Qed.

Lemma live_frame_heap σ σ' t k :
  frames_in_transmit σ' = frames_in_transmit σ →
  (∀ r o, heap σ !! r = Some o →
     ∃ o', heap σ' !! r = Some o' ∧ start o' = start o ∧ end_ o' = end_ o) →
  live_frame σ t k → live_frame σ' t k.
Proof.
  intros Hreg Hh. destruct k; simpl; try done.
  intros (Hf & o & Ho & Hs & He & Hlt). rewrite Hreg. split; [done|].
  destruct (Hh _ _ Ho) as (o' & Ho' & Hs' & He'). exists o'. split; [done|]. lia.
Qed.

Lemma frame_inv_set_heap c h' σ :
  length h' = length (heap σ) →
  (∀ r o, heap σ !! r = Some o →
     ∃ o', h' !! r = Some o' ∧ start o' = start o ∧ end_ o' = end_ o) →
  frame_inv c σ → frame_inv c (set_frames (frames_in_transmit σ) h' σ).
Proof.
  intros Hlen Hh [].
  split; norm; try done.
  - unfold reg_wf in *. by rewrite Hlen.
  - intros e He. eapply live_frame_heap; [| |by apply fi_live0]; done.
  - intros k Hk. eapply live_frame_heap; [| |by eapply fi_hand_live0]; done.
Qed.

Lemma frame_inv_check_collision c frame fid σ :
  frame_inv c σ → frame_inv c (check_collision frame fid σ).
Proof.
  unfold check_collision. destruct (has_collision _ _ _ _); [|done].
  apply frame_inv_set_heap; [apply mark_all_retry_length|].
  intros r o Ho.
  destruct (mark_all_retry_lookup_cases (frames_in_transmit σ) _ _ _ Ho) as [->| ->]; eauto.
Qed.

Lemma holder_frame s i wtt ft f tx : holder (KTransmitFrame s i wtt ft f tx) = Some (s, i).
Proof. done. Qed.

Lemma frame_inv_remove c s i σ :
  no_holder_of s σ → frame_inv c σ →
  frame_inv None (set_frames (delete (s, i) (frames_in_transmit σ)) (heap σ) σ).
Proof.
  intros Hno [].
  split; norm; try done.
  - by apply map_Forall_delete.
  - intros k1 k2 r [_ H1]%lookup_delete_Some [_ H2]%lookup_delete_Some. by eapply fi_inj0.
  - intros e He. specialize (fi_live0 e He). destruct (e_cont e) eqn:Hk; try done.
    simpl in *. destruct fi_live0 as [Hreg Ho]. split; [|done].
    rewrite lookup_delete_ne; [done|]. intros [= <- <-].
    eapply Hno; [done|]. by rewrite Hk.
Qed.

Lemma frame_inv_begin_attempt c s i wtt ft σ :
  quiet σ → no_holder_of s σ → 0 < ft →
  frame_inv c σ → frame_inv None (begin_attempt s i wtt ft σ).
Proof.
  intros Hq0 Hno Hft []. unfold begin_attempt, add_frame_in_transmit.
  assert (Hq : quiet (schedule NORMAL ft (KTransmitFrame s i wtt ft (length (heap σ)) (now σ))
                (set_frames (<[(s, i):=length (heap σ)]> (frames_in_transmit σ))
                   (heap σ ++ [create_frame (now σ) ft]) σ))).
  { apply quiet_schedule; [done|]. lia. }
  split; norm; try done.
  - apply map_Forall_insert_2.
    + rewrite length_app. simpl. lia.
    + eapply map_Forall_impl; [done|]. simpl. intros _ r Hr. rewrite length_app. lia.
  - intros k1 k2 r. rewrite !lookup_insert.
    destruct (decide ((s, i) = k1)) as [<-|H1], (decide ((s, i) = k2)) as [<-|H2]; try done.
    + intros [= <-] Hk2. apply fi_wf0 in Hk2. lia.
    + intros Hk1 [= <-]. apply fi_wf0 in Hk1. lia.
    + apply fi_inj0.
  - intros e [->|He]%elem_of_cons; norm.
    + simpl. split; [by rewrite lookup_insert_eq|].
      exists (create_frame (now σ) ft). split.
      * by rewrite lookup_app_r, Nat.sub_diag.
      * simpl. lia.
    + specialize (fi_live0 e He). destruct (e_cont e) eqn:Hk; try done.
      simpl in *. destruct fi_live0 as (Hreg & o & Ho & Hrest). split.
      * rewrite lookup_insert_ne; [done|]. intros [= <- <-].
        eapply Hno; [done|]. by rewrite Hk.
      * exists o. split; [|done]. by apply lookup_app_l_Some.
  - intros a b [->|Ha]%elem_of_cons [->|Hb]%elem_of_cons; norm; try done; [|eauto].
    intros _ _ ?. lia.
Qed.

Ltac qi_side :=
  repeat first
    [ eassumption
    | apply queue_inv_upd_station
    | apply queue_inv_set_tape
    | apply queue_inv_set_frames
    | apply queue_inv_check_collision ].

Lemma frame_inv_exec k σ σ' :
  queue_inv σ → cont_ok (now σ) k → mutex_inv (holder k) σ → frame_inv (Some k) σ →
  exec k σ = Running σ' → frame_inv None σ'.
Proof.
  intros QI (Hs & Hft & Ht) MI I Hexec. pose proof (qi_stations _ QI) as Hlen.
  pose proof (fi_hand_quiet _ _ I k eq_refl) as Hquiet.
  destruct k; simpl in Hexec; repeat case_match; simplify_eq;
    try (specialize (Hs _ eq_refl)); try (specialize (Hft _ eq_refl));
    try (specialize (Hquiet eq_refl)); simpl in MI;
    repeat match goal with
    | H : draw _ = Some _ |- _ => apply draw_inv in H as [? [? ->]]
    | H : generate_frame_time _ = Some _ |- _ => apply generate_frame_time_pos in H
    end;
    unfold remove_frame_in_transmit in *;
    repeat case_match; simplify_eq;
    repeat first
      [ done
      | eapply frame_inv_begin_attempt;
          [unfold quiet; simp_state; eassumption
          |unfold no_holder_of; simp_state; eapply mutex_hand_no_holder; eassumption
          |done|]
      | apply frame_inv_schedule_init; [unfold quiet; simp_state; eassumption|]
      | apply frame_inv_schedule_other; [done|done|done|]
      | apply frame_inv_schedule_grant; [qi_side|done|]
      | apply frame_inv_trigger_put; [qi_side|]
      | apply frame_inv_upd
      | apply frame_inv_set_tape
      | eapply frame_inv_remove;
          [unfold no_holder_of; simp_state; eapply mutex_hand_no_holder; eassumption|]
      | apply frame_inv_check_collision
      | eapply frame_inv_drop; eassumption ].
Qed.

Lemma frame_inv_step σ σ' :
  queue_inv σ → mutex_inv None σ → frame_inv None σ →
  step σ = Running σ' → frame_inv None σ'.
Proof.
  intros QI MI I (m & q & Hpop & Hexec)%step_inv.
  assert (Hm : m ∈ queue σ).
  { rewrite (pop_min_perm _ _ _ Hpop). by apply elem_of_cons; left. }
  eapply frame_inv_exec; [eapply queue_inv_pop; try done| | | |done].
  - intros Hk. rewrite Hk in Hexec. done.
  - norm. eapply cont_ok_mono; [by apply (qi_time _ QI m)|by apply (qi_cont _ QI m)].
  - by apply mutex_inv_pop.
  - by apply frame_inv_pop.
Qed.

(** ** The invariants together *)

Lemma inv_step σ σ' : inv σ → step σ = Running σ' → inv σ'.
Proof.
  intros [] Hstep. split.
  - by eapply queue_inv_step.
  - by eapply mutex_inv_step.
  - by eapply acct_inv_step.
  - by eapply busy_inv_step.
  - by eapply frame_inv_step.
Qed.

Lemma inv_reaches σ σ' : inv σ → reaches σ σ' → inv σ'.
Proof. intros I H. induction H; [done|]. eauto using inv_step. Qed.

Ltac elems H :=
  repeat (apply elem_of_cons in H as [->|H]); [..|by apply elem_of_nil in H].

Lemma init_station reg h t s : station s (init_replication reg h t) = new_station.
Proof.
  unfold station, init_replication. cbn.
  do 8 (destruct s as [|s]; [done|]). done.
Qed.

Lemma init_queue reg h t :
  queue (init_replication reg h t)
  = until_entry :: map (fun s => mkEntry 0 URGENT s (KArriveInit s)) [7; 6; 5; 4; 3; 2; 1; 0]%nat.
Proof. done. Qed.

Lemma inv_init reg h t : reg_wf reg h → reg_inj reg → inv (init_replication reg h t).
Proof.
  intros Hwf Hinj.
  assert (Hq : ∀ e, e ∈ queue (init_replication reg h t) →
            e = until_entry ∨ ∃ s, (s < NUM_STATIONS)%nat ∧ e = mkEntry 0 URGENT s (KArriveInit s)).
  { rewrite init_queue. intros e He. simpl in He. elems He; [by left|right..];
      (eexists; split; [|reflexivity]; unfold NUM_STATIONS; lia). }
  split.
  - split.
    + intros e [->|(s & Hs & ->)]%Hq; simpl; unfold NUM_STATIONS in *; lia.
    + rewrite init_queue. simpl. by apply (bool_decide_unpack _).
    + intros e [->|(s & Hs & ->)]%Hq; simpl; unfold TERMINATE_TIME; lia.
    + intros e [->|(s & Hs & ->)]%Hq; simpl; done.
    + intros e [->|(s & Hs & ->)]%Hq; simpl; done.
    + rewrite init_queue. by apply elem_of_cons; left.
    + intros e [->|(s & Hs & ->)]%Hq; simpl; done.
    + simpl. unfold TERMINATE_TIME. lia.
    + done.
    + intros e [->|(s & Hs & ->)]%Hq; simpl.
      * split; [done|split; [done|constructor]].
      * split; [by intros ? [= <-]|split; [done|constructor]].
  - split.
    + intros e s i [->|(s' & Hs & ->)]%Hq; simpl; done.
    + intros e1 e2 s i1 i2 [->|(s' & Hs & ->)]%Hq; simpl; done.
    + done.
  - split.
    + intros e s [->|(s' & Hs & ->)]%Hq; simpl; done.
    + done.
    + intros s _ _. unfold nit_of, nt_of. by rewrite init_station.
    + intros s. unfold nt_of. by rewrite init_station.
  - split.
    + intros s. unfold busy_of. by rewrite init_station.
    + intros s. unfold busy_of, base_of. by rewrite init_station.
    + intros e s i wtt ft f tx [->|(s' & Hs & ->)]%Hq; simpl; done.
    + done.
    + intros s _. left. unfold busy_of. rewrite init_station. simpl. unfold TRANSIENT_TIME. lia.
  - split.
    + done.
    + done.
    + intros e [->|(s' & Hs & ->)]%Hq; simpl; done.
    + done.
    + intros a b [->|(s' & Hs & ->)]%Hq; simpl; done.
    + intros b s i wtt [->|(s' & Hs & ->)]%Hq; simpl; done.
    + intros e s i wtt ft f [->|(s' & Hs & ->)]%Hq; simpl; done.
    + done.
Qed.

Lemma step_stopped σ σ' :
  step σ = Stopped σ' →
  ∃ m q, pop_min (queue σ) = Some (m, q) ∧ e_cont m = KUntil
         ∧ σ' = set_now_queue (e_time m) q σ.
Proof.
  unfold step. destruct (pop_min (queue σ)) as [[m q]|]; [|done].
  intros Hexec. exists m, q. split; [done|].
  destruct (e_cont m); simpl in Hexec; repeat case_match; simplify_eq. done.
Qed.

Lemma inv_starts t0 σ0 : starts t0 σ0 → inv σ0.
Proof.
  induction 1 as [|σ0 σ σ' _ IH Hr Hs].
  - apply inv_init; [apply map_Forall_empty|]. intros ??? H. by rewrite lookup_empty in H.
  - pose proof (inv_reaches _ _ IH Hr) as I.
    apply step_stopped in Hs as (m & q & _ & _ & ->). norm.
    apply inv_init; apply (inv_frame _ I).
Qed.

Lemma inv_visited t0 σ : visited t0 σ → inv σ.
Proof. intros (σ0 & H0 & Hr). eapply inv_reaches; [|done]. by eapply inv_starts. Qed.

Lemma acct_le σ s : acct_inv None σ → nt_of s σ ≤ nit_of s σ.
Proof.
  intros I.
  destruct (decide (Exists (fun e => started (e_cont e) = Some s) (queue σ))) as [Hex|Hno].
  - apply Exists_exists in Hex as (e & He & Hst). rewrite (ai_started _ _ I _ _ He Hst). lia.
  - rewrite (ai_idle _ _ I); [lia|done|]. intros e He Hst. apply Hno, Exists_exists. eauto.
Qed.

Lemma station_elem σ x : x ∈ stations σ → ∃ s, x = station s σ.
Proof.
  intros (s & Hs)%list_elem_of_lookup. exists s. unfold station.
  by rewrite (list_lookup_total_correct _ _ _ Hs).
Qed.

Lemma at_end_stations t0 σ' :
  at_end t0 σ' → ∃ σ, visited t0 σ ∧ stations σ' = stations σ.
Proof.
  intros (σ & Hv & (m & q & _ & _ & ->)%step_stopped). eauto.
Qed.

(** C5.  At every point of every replication, and at its end, a station has
    counted at most as many transmitted messages ([nt]) as initial transmits
    ([num_initial_transmits]); the reset of the counters at the transient
    time is one of the steps of the run. *)
Theorem nt_le_num_initial_transmits t0 σ x :
  visited t0 σ ∨ at_end t0 σ → x ∈ stations σ →
  nt x ≤ num_initial_transmits x.
Proof.
  intros Hσ Hx.
  assert (∃ σ1, visited t0 σ1 ∧ stations σ = stations σ1) as (σ1 & Hv & Hst).
  { destruct Hσ as [?|?]; [eauto|by apply at_end_stations]. }
  rewrite Hst in Hx. apply station_elem in Hx as [s ->].
  apply (acct_le σ1 s), inv_acct. by eapply inv_visited.
Qed.

Lemma at_end_inv t0 σ' :
  at_end t0 σ' →
  ∃ σ q, inv σ ∧ pop_min (queue σ) = Some (until_entry, q)
         ∧ σ' = set_now_queue TERMINATE_TIME q σ.
Proof.
  intros (σ & Hv & (m & q & Hpop & Hk & ->)%step_stopped).
  pose proof (inv_visited _ _ Hv) as I. exists σ, q.
  assert (m = until_entry) as ->.
  { apply (qi_until_only _ (inv_queue _ I)); [|done].
    rewrite (pop_min_perm _ _ _ Hpop). by apply elem_of_cons; left. }
  done.
Qed.

Lemma at_end_busy t0 σ s :
  at_end t0 σ → 0 ≤ busy_of s σ ≤ TERMINATE_TIME - TRANSIENT_TIME.
Proof.
  intros (σ0 & q & I & Hpop & ->)%at_end_inv.
  pose proof (inv_busy _ I) as B. pose proof (inv_queue _ I) as Q.
  change (busy_of s (set_now_queue TERMINATE_TIME q σ0)) with (busy_of s σ0).
  pose proof (bi_nonneg _ _ B s) as H0. pose proof (bi_now _ _ B s) as H1.
  pose proof (qi_now _ Q) as Hnow. split; [done|].
  unfold base_of, base in H1. fold (reset_of s σ0) in H1.
  destruct (reset_of s σ0) eqn:Hr; [lia|].
  destruct (bi_unreset _ _ B s Hr) as [Hle|[(e & i & wtt & He & Hk)|(? & ? & [=])]].
  - unfold TERMINATE_TIME, TRANSIENT_TIME in *. lia.
  - exfalso.
    assert (e_time e = now σ0) as Ht by (apply (qi_zero _ Q e He); by rewrite Hk).
    assert (e ∈ q) as Heq.
    { rewrite (pop_min_perm _ _ _ Hpop) in He. apply elem_of_cons in He as [->|?]; [|done].
      done. }
    pose proof (pop_min_least _ _ _ Hpop e Heq) as Hle. unfold entry_le in Hle.
    simpl in Hle. lia.
Qed.

Lemma fdiv_unit a b q :
  0 ≤ a ≤ b → 0 < b → fdiv a b = Some q → (0 <= q)%Q ∧ (q <= 1)%Q.
Proof.
  intros Ha Hb. unfold fdiv. destruct (b =? 0) eqn:Hz; [apply Z.eqb_eq in Hz; lia|].
  intros [= <-].
  assert (inject_Z 0 < inject_Z b)%Q as Hbq by (rewrite <- Zlt_Qlt; lia).
  change (inject_Z 0) with 0%Q in Hbq.
  split.
  - apply Qle_shift_div_l; [done|]. rewrite Qmult_0_l.
    change 0%Q with (inject_Z 0). rewrite <- Zle_Qle. lia.
  - apply Qle_shift_div_r; [done|]. rewrite Qmult_1_l. rewrite <- Zle_Qle. lia.
Qed.

Lemma fdiv_nonneg a b q :
  0 ≤ a → 0 < b → fdiv a b = Some q → (0 <= q)%Q.
Proof.
  intros Ha Hb. unfold fdiv. destruct (b =? 0) eqn:Hz; [apply Z.eqb_eq in Hz; lia|].
  intros [= <-].
  assert (inject_Z 0 < inject_Z b)%Q as Hbq by (rewrite <- Zlt_Qlt; lia).
  change (inject_Z 0) with 0%Q in Hbq.
  apply Qle_shift_div_l; [done|]. rewrite Qmult_0_l.
    change 0%Q with (inject_Z 0). rewrite <- Zle_Qle. lia.
Qed.

Lemma total_nonneg (f : Station → Z) l :
  (∀ x, x ∈ l → 0 ≤ f x) → 0 ≤ total f l.
Proof.
  unfold total. assert (∀ acc, 0 ≤ acc → (∀ x, x ∈ l → 0 ≤ f x) →
    0 ≤ foldl (fun acc x => acc + f x) acc l) as H.
  { induction l as [|x l IH]; intros acc Hacc Hl; simpl; [done|].
    apply IH; [|intros; apply Hl; by apply elem_of_cons; right].
    specialize (Hl x (ltac:(by apply elem_of_cons; left))). lia. }
  intros. by apply H.
Qed.

(** X15.  At the end of every replication the utilization that
    [generate_report] computes for a station (line 85) is defined, the
    divisor being [TERMINATE_TIME - TRANSIENT_TIME], and lies in [0, 1];
    the utilization of the whole system computed by
    [generate_report_single_replication] is not negative. *)
Theorem station_utilization_in_unit_interval t0 σ :
  at_end t0 σ →
  (∀ x, x ∈ stations σ →
     ∃ r, generate_report (now σ) x = Some r ∧ (0 <= U r)%Q ∧ (U r <= 1)%Q)
  ∧ (∀ r, generate_report_single_replication (stations σ) = Some r → (0 <= U r)%Q).
Proof.
  intros Hend.
  assert (now σ = TERMINATE_TIME) as Hnow.
  { apply at_end_inv in Hend as (σ0 & q & _ & _ & ->). done. }
  assert (∀ x, x ∈ stations σ → 0 ≤ busy_time x ≤ TERMINATE_TIME - TRANSIENT_TIME) as Hb.
  { intros x [s ->]%station_elem. by apply (at_end_busy t0). }
  split.
  - intros x Hx. specialize (Hb x Hx). unfold generate_report. rewrite Hnow.
    destruct (fdiv (busy_time x) (TERMINATE_TIME - TRANSIENT_TIME)) as [u|] eqn:Hu.
    + eexists. split; [done|]. simpl. eapply fdiv_unit; [done| |done].
      unfold TERMINATE_TIME, TRANSIENT_TIME. lia.
    + unfold fdiv in Hu. by vm_compute in Hu.
  - intros r. unfold generate_report_single_replication.
    destruct (fdiv (total num_retries _) _); [|done].
    destruct (fdiv (total busy_time _) _) as [u|] eqn:Hu; [|done].
    intros [= <-]. simpl. eapply fdiv_nonneg; [| |done].
    + apply total_nonneg. intros x Hx. by apply Hb.
    + by vm_compute.
Qed.

Lemma station_schedule s p d k σ : station s (schedule p d k σ) = station s σ.
Proof. done. Qed.
Lemma station_set_tape s t σ : station s (set_tape t σ) = station s σ.
Proof. done. Qed.
Lemma station_set_frames s reg h σ : station s (set_frames reg h σ) = station s σ.
Proof. done. Qed.
Lemma station_set_now_queue s t q σ : station s (set_now_queue t q σ) = station s σ.
Proof. done. Qed.

Lemma station_upd_cases s s0 f σ :
  station s (upd_station s0 f σ) = station s σ
  ∨ (s = s0 ∧ station s (upd_station s0 f σ) = f (station s σ)).
Proof.
  unfold station, upd_station. simpl.
  destruct (decide (s = s0)) as [->|Hne].
  - rewrite !list_lookup_total_alt, list_lookup_alter_eq.
    destruct (stations σ !! s0); simpl; auto.
  - left. by rewrite list_lookup_total_alter_ne.
Qed.

Lemma trigger_put_stats s s0 σ :
  stats_of (station s (trigger_put s0 σ)) = stats_of (station s σ).
Proof.
  destruct (trigger_put_cases s0 σ) as [->|(j & rest & _ & _ & ->)]; [done|].
  rewrite station_schedule.
  destruct (station_upd_cases s s0 (grant j rest) σ) as [->|[_ ->]]; done.
Qed.

Lemma trigger_put_now s0 σ : now (trigger_put s0 σ) = now σ.
Proof. by destruct (trigger_put_cases s0 σ) as [->|(j & rest & _ & _ & ->)]. Qed.

Lemma stats_le x y :
  stats_of x = stats_of y →
  counters_le x y ∧ initial_reset_completed y = initial_reset_completed x.
Proof.
  unfold stats_of, counters_le. intros [= H1 H2 H3 H4 H5 H6].
  rewrite H1, H2, H3, H4, H5, H6. split; [lia|done].
Qed.

Lemma release_stats i x : stats_of (release i x) = stats_of x.
Proof. done. Qed.

Ltac strip_station :=
  repeat first
    [ rewrite station_schedule
    | rewrite station_set_tape
    | rewrite station_set_frames
    | rewrite check_collision_station
    | rewrite trigger_put_stats
    | rewrite release_stats ].

Lemma exec_action k σ σ' s :
  cont_ok (now σ) k → exec k σ = Running σ' →
  now σ' = now σ
  ∧ ∃ f, station_action (now σ) f
         ∧ stats_of (station s σ') = stats_of (f (station s σ)).
Proof.
  intros (Hs & Hft & Ht) Hexec.
  destruct k; simpl in Hexec; repeat case_match; simplify_eq;
    simpl in Ht; repeat (apply Forall_cons in Ht as [? Ht]);
    repeat match goal with
    | H : draw _ = Some _ |- _ => apply draw_inv in H as [? [? ->]]
    end;
    unfold begin_attempt, add_frame_in_transmit, remove_frame_in_transmit in *;
    repeat case_match; simplify_eq;
    (split; [simp_state; rewrite ?trigger_put_now; simp_state; done|]);
    repeat (strip_station;
            match goal with
            | |- context [station ?s1 (upd_station ?s0 ?f ?σ0)] =>
                let Heq := fresh "Heq" in
                let Hs := fresh "Hs" in
                destruct (station_upd_cases s1 s0 f σ0) as [Heq|[Hs Heq]];
                rewrite Heq; clear Heq; [|try subst]
            end);
    strip_station;
    first
      [ by exists (fun x => x); split; [apply act_none|]
      | match goal with
        | |- ∃ f, _ ∧ stats_of (?g ?x) = _ =>
            exists g; split; [constructor; lia|done]
        end ].
Qed.

Lemma action_effect t f x :
  station_action t f →
  (counters_le x (f x) ∧ initial_reset_completed (f x) = initial_reset_completed x)
  ∨ (initial_reset_completed x = false ∧ initial_reset_completed (f x) = true
     ∧ TRANSIENT_TIME ≤ t ∧ counters_zero (f x)).
Proof.
  intros [| | |d Hd|wtt Hw]; unfold counters_le, counters_zero; simpl;
    try (left; split; [lia|done]).
  unfold wfs_complete. simpl.
  destruct (initial_reset_completed x) eqn:Hr; simpl.
  - left. split; [lia|done].
  - destruct (t >=? TRANSIENT_TIME) eqn:Hge; simpl.
    + right. apply Z.geb_le in Hge. repeat split; lia.
    + left. split; [lia|done].
Qed.

Lemma step_action σ σ' s :
  queue_inv σ → step σ = Running σ' →
  ∃ f, station_action (now σ') f
       ∧ stats_of (station s σ') = stats_of (f (station s σ)).
Proof.
  intros QI (m & q & Hpop & Hexec)%step_inv.
  assert (Hm : m ∈ queue σ).
  { rewrite (pop_min_perm _ _ _ Hpop). by apply elem_of_cons; left. }
  eapply (exec_action _ _ _ s) in Hexec as [Hnow (f & Hf & Hst)].
  - rewrite Hnow. eauto.
  - norm. eapply cont_ok_mono; [by apply (qi_time _ QI m)|by apply (qi_cont _ QI m)].
Qed.

Lemma stats_counters_le x y z :
  stats_of y = stats_of z → counters_le x z → counters_le x y.
Proof. unfold stats_of, counters_le. intros [= -> -> -> -> -> _]. done. Qed.

Lemma stats_counters_zero y z :
  stats_of y = stats_of z → counters_zero z → counters_zero y.
Proof. unfold stats_of, counters_zero. intros [= -> -> -> -> -> _]. done. Qed.

Lemma stats_flag y z :
  stats_of y = stats_of z → initial_reset_completed y = initial_reset_completed z.
Proof. unfold stats_of. by intros [= _ _ _ _ _ ->]. Qed.

(** What one step does to the counters of a station. *)
Lemma step_counters σ σ' s :
  queue_inv σ → step σ = Running σ' →
  (reset_step s σ σ' = false →
     counters_le (station s σ) (station s σ') ∧ reset_of s σ' = reset_of s σ)
  ∧ (reset_step s σ σ' = true →
     TRANSIENT_TIME ≤ now σ' ∧ counters_zero (station s σ')).
Proof.
  intros QI Hstep. destruct (step_action _ _ s QI Hstep) as (f & Hf & Hst).
  unfold reset_step, reset_of. rewrite (stats_flag _ _ Hst).
  destruct (action_effect (now σ') f (station s σ) Hf) as [[Hle Hfl]|(H0 & H1 & Ht & Hz)].
  - rewrite Hfl. split.
    + intros _. split; [by eapply stats_counters_le|done].
    + by destruct (initial_reset_completed (station s σ)).
  - rewrite H0, H1. simpl. split; [done|]. intros _. split; [done|].
    by eapply stats_counters_zero.
Qed.

Lemma path_inv σ l : inv σ → path σ l → Forall inv l.
Proof.
  revert σ. induction l as [|σ' l IH]; intros σ I; simpl; [constructor|].
  intros [Hs Hp]. pose proof (inv_step _ _ I Hs). constructor; eauto.
Qed.

Lemma num_resets_after σ l s :
  inv σ → path σ l → reset_of s σ = true → num_resets s σ l = 0%nat.
Proof.
  revert σ. induction l as [|σ' l IH]; intros σ I; simpl; [done|].
  intros [Hs Hp] Hr.
  destruct (step_counters _ _ s (inv_queue _ I) Hs) as [H0 _].
  unfold reset_step in *. rewrite Hr in *. simpl in *.
  destruct (H0 eq_refl) as [_ Hr']. rewrite (IH σ'); [done|by eapply inv_step|done|congruence].
Qed.

Lemma num_resets_le σ l s : inv σ → path σ l → (num_resets s σ l ≤ 1)%nat.
Proof.
  revert σ. induction l as [|σ' l IH]; intros σ I; simpl; [lia|].
  intros [Hs Hp]. pose proof (inv_step _ _ I Hs) as I'.
  destruct (reset_step s σ σ') eqn:Hrs.
  - rewrite (num_resets_after σ' l s); [lia|done|done|].
    unfold reset_step in Hrs. by apply andb_true_iff in Hrs as [_ ?].
  - specialize (IH σ' I' Hp). lia.
Qed.

Lemma path_lookup σ0 l i σ σ' :
  inv σ0 → path σ0 l → (σ0 :: l) !! i = Some σ → l !! i = Some σ' →
  inv σ ∧ step σ = Running σ'.
Proof.
  revert σ0 i. induction l as [|σ1 l IH]; intros σ0 i I Hp; [done|].
  destruct Hp as [Hs Hp]. destruct i as [|i]; simpl.
  - by intros [= <-] [= <-].
  - intros H1 H2. eapply (IH σ1 i); eauto using inv_step.
Qed.

Lemma trace_path fuel σ : path σ (trace fuel σ).
Proof.
  revert σ. induction fuel as [|fuel IH]; intros σ; simpl; [done|].
  destruct (step σ) eqn:Hs; simpl; auto.
Qed.

Lemma run_stopped fuel σ0 σ' :
  run fuel σ0 = Some (Stopped σ') → ∃ σ, reaches σ0 σ ∧ step σ = Stopped σ'.
Proof.
  revert σ0. induction fuel as [|fuel IH]; intros σ0; simpl; [done|].
  destruct (step σ0) as [σ1| |] eqn:Hs.
  - intros (σ & Hr & Hst)%IH. exists σ. split; [|done]. by eapply rtc_l.
  - intros [= <-]. exists σ0. split; [apply rtc_refl|done].
  - done.
Qed.

Lemma replication_at_end fuel t σ :
  replication fuel ∅ [] t = Some (Stopped σ) → at_end t σ.
Proof.
  intros (σ1 & Hr & Hs)%run_stopped. exists σ1. split; [|done].
  exists (init_replication ∅ [] t). split; [constructor|done].
Qed.

(** C6.  The code does not have the property.  On [tape_busy] the one
    message of station 0 is transmitted from time 0 to time 24 and ends
    before [TRANSIENT_TIME], so the counters of station 0 are never reset
    (lines 197-200 are run only when a message ends) and its [busy_time] of
    24 stays; station 1 is busy for 9974 time units after its reset.  The
    busy times add up to 9998, more than the 9975 time units that line 243
    divides by: the utilization of the whole system is above 1. *)
Lemma system_utilization_above_one :
  ∃ σ r, replication 100 ∅ [] tape_busy = Some (Stopped σ)
         ∧ generate_report_single_replication (stations σ) = Some r
         ∧ ¬ (U r <= 1)%Q.
Proof.
  eexists _, _. split; [vm_compute; reflexivity|]. split; [vm_compute; reflexivity|].
  simpl. intros H. by vm_compute in H.
Qed.

(** ** Collisions of frames in transmit *)

Lemma trigger_put_queue s σ :
  (∀ e, e ∈ queue σ → e ∈ queue (trigger_put s σ))
  ∧ (∀ e, e ∈ queue (trigger_put s σ) → e ∈ queue σ ∨ (next_eid σ ≤ e_eid e)%nat)
  ∧ (next_eid σ ≤ next_eid (trigger_put s σ))%nat.
Proof.
  destruct (trigger_put_cases s σ) as [->|(j & rest & _ & _ & ->)].
  - split; [done|]. split; [auto|lia].
  - norm. split; [intros; by apply elem_of_cons; right|]. split; [|lia].
    intros e [->|He]%elem_of_cons; norm; [right; lia|by left].
Qed.

Lemma exec_queue k σ σ' :
  exec k σ = Running σ' →
  (∀ e, e ∈ queue σ → e ∈ queue σ')
  ∧ (∀ e, e ∈ queue σ' → e ∈ queue σ ∨ (next_eid σ ≤ e_eid e)%nat)
  ∧ (next_eid σ ≤ next_eid σ')%nat.
Proof.
  intros Hexec.
  destruct k; simpl in Hexec; repeat case_match; simplify_eq;
    repeat match goal with
    | H : draw _ = Some _ |- _ => apply draw_inv in H as [? [? ->]]
    end;
    unfold begin_attempt, add_frame_in_transmit, remove_frame_in_transmit in *;
    repeat case_match; simplify_eq;
    try match goal with
    | |- context [trigger_put ?s ?σ0] =>
        pose proof (trigger_put_queue s σ0) as (Ht1 & Ht2 & Ht3); revert Ht1 Ht2 Ht3
    end;
    simp_state; intros;
    (split; [|split]);
    try lia;
    try (intros e He; repeat (apply elem_of_cons; right); by eauto);
    try (intros e He; repeat (apply elem_of_cons in He as [->|He]; [right; norm; lia|]);
         by eauto).
Qed.

Lemma exec_heap k σ σ' :
  exec k σ = Running σ' →
  (∃ new, heap σ' = heap σ ++ new)
  ∨ (∃ s i wtt ft f tx frame,
       k = KTransmitFrame s i wtt ft f tx ∧ heap σ !! f = Some frame
       ∧ heap σ' = heap (check_collision frame (s, i) σ)).
Proof.
  intros Hexec.
  destruct k; simpl in Hexec; repeat case_match; simplify_eq;
    repeat match goal with
    | H : draw _ = Some _ |- _ => apply draw_inv in H as [? [? ->]]
    end;
    unfold begin_attempt, add_frame_in_transmit, remove_frame_in_transmit in *;
    repeat case_match; simplify_eq;
    try (right; by eauto 12);
    left;
    try match goal with
    | |- context [trigger_put ?s ?σ0] =>
        destruct (trigger_put_cases s σ0) as [->|(? & ? & _ & _ & ->)]
    end;
    simp_state;
    first [ by exists []; rewrite app_nil_r | by eexists ].
Qed.

(** A step keeps the frame objects; of their fields it changes [retry]
    only, from [False] to [True]. *)
Lemma step_heap σ σ' r o :
  step σ = Running σ' → heap σ !! r = Some o →
  ∃ o', heap σ' !! r = Some o'
        ∧ start o' = start o ∧ end_ o' = end_ o ∧ (retry o = true → retry o' = true).
Proof.
  intros (m & q & Hpop & Hexec)%step_inv Ho.
  destruct (exec_heap _ _ _ Hexec) as [[new ->]|(s & i & wtt & ft & f & tx & fr & _ & _ & ->)].
  - exists o. norm. split; [by apply lookup_app_l_Some|done].
  - destruct (check_collision_heap fr (s, i) (set_now_queue (e_time m) q σ) r o Ho)
      as (o' & ? & ? & ? & ? & ?). eauto 10.
Qed.

Lemma entry_in_queue_pop σ m q e :
  pop_min (queue σ) = Some (m, q) → e ∈ queue σ → e = m ∨ e ∈ q.
Proof.
  intros Hpop He. rewrite (pop_min_perm _ _ _ Hpop) in He.
  by apply elem_of_cons in He.
Qed.

Lemma popped_in_queue σ m q : pop_min (queue σ) = Some (m, q) → m ∈ queue σ.
Proof. intros Hpop. rewrite (pop_min_perm _ _ _ Hpop). by apply elem_of_cons; left. Qed.

Lemma rest_in_queue σ m q e : pop_min (queue σ) = Some (m, q) → e ∈ q → e ∈ queue σ.
Proof. intros Hpop He. rewrite (pop_min_perm _ _ _ Hpop). by apply elem_of_cons; right. Qed.

Lemma popped_not_in_rest σ m q :
  queue_inv σ → pop_min (queue σ) = Some (m, q) → m ∉ q.
Proof.
  intros QI Hpop Hin. pose proof (qi_nodup _ QI) as Hnd.
  rewrite (pop_min_perm _ _ _ Hpop), fmap_cons in Hnd.
  apply NoDup_cons in Hnd as [Hnd _]. apply Hnd, list_elem_of_fmap. eauto.
Qed.

Lemma live_frame_lookup σ e s i wtt ft f tx :
  frame_inv None σ → e ∈ queue σ → e_cont e = KTransmitFrame s i wtt ft f tx →
  frames_in_transmit σ !! (s, i) = Some f
  ∧ ∃ o, heap σ !! f = Some o ∧ start o = tx ∧ end_ o = e_time e ∧ tx < e_time e.
Proof.
  intros FI He Hk. pose proof (fi_live _ _ FI e He) as Hl. by rewrite Hk in Hl.
Qed.



Lemma exec_frame s i wtt ft f tx σ σ' :
  exec (KTransmitFrame s i wtt ft f tx) σ = Running σ' →
  ∃ frame, heap σ !! f = Some frame
           ∧ heap σ' = heap (check_collision frame (s, i) σ).
Proof.
  intros Hexec. simpl in Hexec. unfold remove_frame_in_transmit in Hexec.
  repeat case_match; simplify_eq; eauto.
Qed.


Lemma exec_step_queue σ σ' m q :
  pop_min (queue σ) = Some (m, q) → step σ = Running σ' →
  (∀ e, e ∈ q → e ∈ queue σ')
  ∧ (∀ e, e ∈ queue σ' → e ∈ q ∨ (next_eid σ ≤ e_eid e)%nat)
  ∧ (next_eid σ ≤ next_eid σ')%nat.
Proof.
  intros Hpop (m' & q' & Hpop' & Hexec)%step_inv.
  assert (m' = m ∧ q' = q) as [-> ->] by (split; congruence).
  by apply exec_queue in Hexec.
Qed.





(** ** One [transmit] for every message *)

Lemma msg_inv_drop c σ : msg_inv c σ → msg_inv None σ.
Proof.
  intros []. split; try done.
  intros a s j Ha Hk. destruct (mg_fresh0 _ _ _ Ha Hk) as (? & ? & ?). done.
Qed.

Lemma msg_inv_pop σ m q :
  queue_inv σ → msg_inv None σ → pop_min (queue σ) = Some (m, q) →
  msg_inv (Some (e_cont m)) (set_now_queue (e_time m) q σ).
Proof.
  intros QI [] Hpop.
  assert (Hsub : ∀ e, e ∈ q → e ∈ queue σ) by (intros; by eapply rest_in_queue).
  pose proof (popped_in_queue _ _ _ Hpop) as Hm.
  pose proof (popped_not_in_rest _ _ _ QI Hpop) as Hnot.
  split; norm.
  - eauto.
  - intros e s i He Hk. apply (mg_pending0 e s i (Hsub _ He) Hk).
  - intros k s i [= <-] Hk. split; [apply (mg_pending0 m s i Hm Hk)|].
    intros e He Hke. apply Hnot.
    assert (e = m) as -> by (eapply (mg_unique0 e m s i); eauto). done.
  - done.
  - intros a s j Ha Hk. destruct (mg_fresh0 _ _ _ (Hsub _ Ha) Hk) as (H1 & H2 & _).
    split; [eauto|]. split; [done|]. intros k i [= <-] Hi. by eapply H1.
  - intros k s j [= <-] Hk. destruct (mg_fresh0 _ _ _ Hm Hk) as (H1 & H2 & _).
    split; [eauto|]. split; [done|].
    intros a j' Ha Hka. apply Hnot.
    assert (a = m) as -> by (eapply (mg_arrive_unique0 a m s j' j); eauto). done.
  - eauto.
Qed.

Lemma msg_inv_schedule_none c prio delay k σ :
  msg_of k = None → arrive_of k = None →
  msg_inv c σ → msg_inv c (schedule prio delay k σ).
Proof.
  intros Hm Ha []. split; norm.
  - intros e1 e2 s i [->|He1]%elem_of_cons [->|He2]%elem_of_cons; norm;
      rewrite ?Hm; try done. eauto.
  - intros e s i [->|He]%elem_of_cons; norm; rewrite ?Hm; [done|].
    apply (mg_pending0 e s i He).
  - intros k' s i Hc Hk. destruct (mg_hand0 _ _ _ Hc Hk) as [H1 H2]. split; [done|].
    intros e [->|He]%elem_of_cons; norm; rewrite ?Hm; [done|]. by apply H2.
  - done.
  - intros a s j [->|He]%elem_of_cons; norm; rewrite ?Ha; [done|]. intros Hk.
    destruct (mg_fresh0 _ _ _ He Hk) as (H1 & H2 & H3). split; [|done].
    intros e i [->|He']%elem_of_cons; norm; rewrite ?Hm; [done|]. by apply H1.
  - intros k' s j Hc Hk. destruct (mg_hand_fresh0 _ _ _ Hc Hk) as (H1 & H2 & H3).
    split; [|split; [done|]].
    + intros e i [->|He']%elem_of_cons; norm; rewrite ?Hm; [done|]. by apply H1.
    + intros a j' [->|He']%elem_of_cons; norm; rewrite ?Ha; [done|]. by apply H3.
  - intros a1 a2 s j1 j2 [->|He1]%elem_of_cons [->|He2]%elem_of_cons; norm;
      rewrite ?Ha; try done. eauto.
Qed.

Lemma msg_inv_schedule_msg k0 s i prio delay k σ :
  msg_of k0 = Some (s, i) → msg_of k = Some (s, i) → arrive_of k = None →
  msg_inv (Some k0) σ → msg_inv None (schedule prio delay k σ).
Proof.
  intros Hk0 Hm Ha []. destruct (mg_hand0 _ _ _ eq_refl Hk0) as [Hp Hq].
  split; norm.
  - intros e1 e2 s' i' [->|He1]%elem_of_cons [->|He2]%elem_of_cons; norm;
      rewrite ?Hm; try done.
    + intros [= <- <-] Hk. by destruct (Hq _ He2).
    + intros Hk [= <- <-]. by destruct (Hq _ He1).
    + eauto.
  - intros e s' i' [->|He]%elem_of_cons; norm; rewrite ?Hm.
    + by intros [= <- <-].
    + apply (mg_pending0 e s' i' He).
  - done.
  - done.
  - intros a s' j [->|He]%elem_of_cons; norm; rewrite ?Ha; [done|]. intros Hk.
    destruct (mg_fresh0 _ _ _ He Hk) as (H1 & H2 & H3). split; [|done].
    intros e i' [->|He']%elem_of_cons; norm; rewrite ?Hm; [|by apply H1].
    intros [= <- <-]. by eapply H3.
  - done.
  - intros a1 a2 s' j1 j2 [->|He1]%elem_of_cons [->|He2]%elem_of_cons; norm;
      rewrite ?Ha; try done. eauto.
Qed.

Lemma msg_of_arrive k s j : arrive_of k = Some (s, j) → msg_of k = None.
Proof. by destruct k. Qed.

Lemma msg_inv_schedule_new_msg k0 s j prio delay σ :
  arrive_of k0 = Some (s, j) →
  msg_inv (Some k0) σ →
  msg_inv (Some (KArrive s (S j))) (schedule prio delay (KWfsInit s j) σ).
Proof.
  intros Hk0 []. destruct (mg_hand_fresh0 _ _ _ eq_refl Hk0) as (Hq & Hp & Ha).
  split; norm.
  - intros e1 e2 s' i' [->|He1]%elem_of_cons [->|He2]%elem_of_cons; norm; try done.
    + intros [= <- <-] Hk. specialize (Hq _ _ He2 Hk). lia.
    + intros Hk [= <- <-]. specialize (Hq _ _ He1 Hk). lia.
    + eauto.
  - intros e s' i' [->|He]%elem_of_cons; norm.
    + intros [= <- <-] Hin. specialize (Hp _ Hin). lia.
    + apply (mg_pending0 e s' i' He).
  - by intros k s' i' [= <-].
  - done.
  - intros a s' j' [->|He]%elem_of_cons; norm; [done|]. intros Hk.
    destruct (mg_fresh0 _ _ _ He Hk) as (H1 & H2 & H3).
    split; [|split; [done|by intros k i' [= <-]]].
    intros e i' [->|He']%elem_of_cons; norm; [|by apply H1].
    intros [= <- <-]. by destruct (Ha _ _ He Hk).
  - intros k s' j' [= <-] [= <- <-]. split; [|split].
    + intros e i' [->|He']%elem_of_cons; norm.
      * intros [= <-]. lia.
      * intros Hk. specialize (Hq _ _ He' Hk). lia.
    + intros i' Hin. specialize (Hp _ Hin). lia.
    + intros a j' [->|He']%elem_of_cons; norm; [done|]. by apply Ha.
  - intros a1 a2 s' j1 j2 [->|He1]%elem_of_cons [->|He2]%elem_of_cons; norm;
      try done. eauto.
Qed.

Lemma msg_inv_schedule_arrive k0 s j0 j prio delay k σ :
  arrive_of k0 = Some (s, j0) → arrive_of k = Some (s, j) → (j0 ≤ j)%nat →
  msg_inv (Some k0) σ → msg_inv None (schedule prio delay k σ).
Proof.
  intros Hk0 Hk Hj []. destruct (mg_hand_fresh0 _ _ _ eq_refl Hk0) as (Hq & Hp & Ha).
  pose proof (msg_of_arrive _ _ _ Hk) as Hm.
  split; norm.
  - intros e1 e2 s' i' [->|He1]%elem_of_cons [->|He2]%elem_of_cons; norm;
      rewrite ?Hm; try done. eauto.
  - intros e s' i' [->|He]%elem_of_cons; norm; rewrite ?Hm; [done|].
    apply (mg_pending0 e s' i' He).
  - done.
  - done.
  - intros a s' j' [->|He]%elem_of_cons; norm.
    + rewrite Hk. intros [= <- <-]. split; [|split; [|done]].
      * intros e i' [->|He']%elem_of_cons; norm; rewrite ?Hm; [done|].
        intros Hke. specialize (Hq _ _ He' Hke). lia.
      * intros i' Hin. specialize (Hp _ Hin). lia.
    + intros Hka. destruct (mg_fresh0 _ _ _ He Hka) as (H1 & H2 & H3).
      split; [|done].
      intros e i' [->|He']%elem_of_cons; norm; rewrite ?Hm; [done|]. by apply H1.
  - done.
  - intros a1 a2 s' j1 j2 [->|He1]%elem_of_cons [->|He2]%elem_of_cons; norm;
      rewrite ?Hk; try done.
    + intros [= <- <-] Hk2. by destruct (Ha _ _ He2 Hk2).
    + intros Hk1 [= <- <-]. by destruct (Ha _ _ He1 Hk1).
    + eauto.
Qed.

Lemma put_of_upd s s' f σ :
  (s' < length (stations σ))%nat →
  put_of s (upd_station s' f σ)
  = if decide (s = s') then put_queue (server (f (station s σ))) else put_of s σ.
Proof. intros. unfold put_of. rewrite station_upd by done. by destruct (decide _). Qed.

Lemma msg_inv_upd c s f σ :
  (∀ x, put_queue (server (f x)) = put_queue (server x)) →
  (s < length (stations σ))%nat →
  msg_inv c σ → msg_inv c (upd_station s f σ).
Proof.
  intros Hf Hs [].
  assert (Hu : ∀ s', put_of s' (upd_station s f σ) = put_of s' σ).
  { intros s'. rewrite put_of_upd by done. destruct (decide _); [|done]. by rewrite Hf. }
  split; norm; intros; rewrite ?Hu; eauto.
Qed.

Lemma msg_inv_set_tape c t σ : msg_inv c σ → msg_inv c (set_tape t σ).
Proof. intros []. by split. Qed.

Lemma msg_inv_set_frames c reg h σ : msg_inv c σ → msg_inv c (set_frames reg h σ).
Proof. intros []. by split. Qed.

Lemma msg_inv_check_collision c frame fid σ :
  msg_inv c σ → msg_inv c (check_collision frame fid σ).
Proof.
  unfold check_collision. destruct (has_collision _ _ _ _); [|done].
  apply msg_inv_set_frames.
Qed.

(** Lines 175-181: the message waits for the server. *)
Lemma msg_inv_wfs_enter s i t σ :
  (s < length (stations σ))%nat →
  msg_inv (Some (KWfsInit s i)) σ → msg_inv None (upd_station s (wfs_enter i t) σ).
Proof.
  intros Hs []. destruct (mg_hand0 _ _ _ eq_refl eq_refl) as [Hp Hq].
  assert (Hu : ∀ s', put_of s' (upd_station s (wfs_enter i t) σ)
                     = if decide (s' = s) then put_of s σ ++ [i] else put_of s' σ).
  { intros s'. rewrite put_of_upd by done. by destruct (decide _) as [->|]. }
  split; norm.
  - eauto.
  - intros e s' i' He Hk. rewrite Hu. destruct (decide _) as [->|]; [|by eapply mg_pending0].
    intros [Hin|Hin]%elem_of_app.
    + by eapply (mg_pending0 e s i').
    + apply list_elem_of_singleton in Hin as ->. by eapply Hq.
  - done.
  - intros s'. rewrite Hu. destruct (decide _) as [->|]; [|done].
    apply NoDup_app. split; [done|]. split; [|apply NoDup_singleton].
    intros x Hx ->%list_elem_of_singleton. done.
  - intros a s' j Ha Hk. destruct (mg_fresh0 _ _ _ Ha Hk) as (H1 & H2 & H3).
    split; [done|]. split; [|done]. intros i'. rewrite Hu.
    destruct (decide _) as [->|]; [|by apply H2].
    intros [Hin|Hin]%elem_of_app; [by apply H2|].
    apply list_elem_of_singleton in Hin as ->. by eapply H3.
  - done.
  - eauto.
Qed.

(** The server is granted to the oldest waiting message. *)
Lemma msg_inv_grant s j rest σ :
  (s < length (stations σ))%nat → put_of s σ = j :: rest →
  msg_inv None σ → msg_inv (Some (KWfsReq s j)) (upd_station s (grant j rest) σ).
Proof.
  intros Hs Hput [].
  assert (Hu : ∀ s', put_of s' (upd_station s (grant j rest) σ)
                     = if decide (s' = s) then rest else put_of s' σ).
  { intros s'. rewrite put_of_upd by done. by destruct (decide _) as [->|]. }
  pose proof (mg_nodup0 s) as Hnd. rewrite Hput in Hnd. apply NoDup_cons in Hnd as [Hj Hnd].
  split; norm.
  - eauto.
  - intros e s' i' He Hk. rewrite Hu. destruct (decide _) as [->|]; [|by eapply mg_pending0].
    intros Hin. eapply (mg_pending0 e s i'); [done..|]. rewrite Hput. by apply elem_of_cons; right.
  - intros k s' i' [= <-] [= <- <-]. rewrite Hu, decide_True by done. split; [done|].
    intros e He Hk. eapply (mg_pending0 e s j); [done..|]. rewrite Hput. by apply elem_of_cons; left.
  - intros s'. rewrite Hu. destruct (decide _) as [->|]; done.
  - intros a s' j' Ha Hk. destruct (mg_fresh0 _ _ _ Ha Hk) as (H1 & H2 & H3).
    split; [done|]. split.
    + intros i'. rewrite Hu. destruct (decide _) as [->|]; [|by apply H2].
      intros Hin. apply H2. rewrite Hput. by apply elem_of_cons; right.
    + intros k i' [= <-] [= <- <-]. apply H2. rewrite Hput. by apply elem_of_cons; left.
  - by intros k s' j' [= <-] [=].
  - eauto.
Qed.

Lemma msg_inv_trigger_put s σ :
  (s < length (stations σ))%nat → msg_inv None σ → msg_inv None (trigger_put s σ).
Proof.
  intros Hs I. destruct (trigger_put_cases s σ) as [->|(j & rest & Hq & Hu & ->)]; [done|].
  eapply (msg_inv_schedule_msg (KWfsReq s j) s j); try done.
  by apply msg_inv_grant.
Qed.

(** Lines 209-211 and 206-208: a message arrives and the next arrival is
    awaited. *)
Lemma msg_inv_arrive s i p1 d1 t p2 d2 σ :
  msg_inv (Some (KArrive s i)) σ →
  msg_inv None (schedule p2 d2 (KArrive s (S i))
                  (set_tape t (schedule p1 d1 (KWfsInit s i) σ))).
Proof.
  intros I. eapply (msg_inv_schedule_arrive (KArrive s (S i)) s (S i) (S i)); try done.
  apply msg_inv_set_tape. by apply (msg_inv_schedule_new_msg (KArrive s i) s i).
Qed.

Lemma wfs_complete_put t wtt x :
  put_queue (server (wfs_complete t wtt x)) = put_queue (server x).
Proof. unfold wfs_complete. by destruct (_ && _). Qed.

Lemma msg_inv_exec k σ σ' :
  queue_inv σ → cont_ok (now σ) k → msg_inv (Some k) σ →
  exec k σ = Running σ' → msg_inv None σ'.
Proof.
  intros QI (Hs & Hft & _) I Hexec. pose proof (qi_stations _ QI) as Hlen.
  destruct k; simpl in Hexec; repeat case_match; simplify_eq;
    try (specialize (Hs _ eq_refl));
    repeat match goal with
    | H : draw _ = Some _ |- _ => apply draw_inv in H as [? [? ->]]
    end;
    unfold begin_attempt, add_frame_in_transmit, remove_frame_in_transmit in *;
    repeat case_match; simplify_eq;
    repeat first
      [ done
      | apply msg_inv_arrive
      | match goal with
        | I : msg_inv (Some ?k0) _ |- msg_inv None (schedule _ _ (KArrive _ _) _) =>
            eapply (msg_inv_schedule_arrive k0); [reflexivity|reflexivity|lia|]
        | I : msg_inv (Some ?k0) _ |- msg_inv None (schedule _ _ (KWfsEnd _ _) _) => fail
        | I : msg_inv (Some ?k0) _ |- msg_inv None (schedule _ _ (KRelease _) _) => fail
        | I : msg_inv (Some ?k0) _ |- msg_inv None (schedule _ _ _ _) =>
            eapply (msg_inv_schedule_msg k0); [reflexivity|reflexivity|reflexivity|]
        end
      | apply msg_inv_schedule_none; [reflexivity|reflexivity|]
      | apply msg_inv_trigger_put; [in_range|]
      | apply msg_inv_wfs_enter; [in_range|]
      | apply msg_inv_upd; [(done || apply wfs_complete_put)|in_range|]
      | apply msg_inv_set_tape
      | apply msg_inv_set_frames
      | apply msg_inv_check_collision
      | eapply msg_inv_drop; eassumption ].
Qed.

Lemma msg_inv_step σ σ' :
  queue_inv σ → msg_inv None σ → step σ = Running σ' → msg_inv None σ'.
Proof.
  intros QI I (m & q & Hpop & Hexec)%step_inv.
  pose proof (popped_in_queue _ _ _ Hpop) as Hm.
  eapply msg_inv_exec; [eapply queue_inv_pop; try done| | |done].
  - intros Hk. rewrite Hk in Hexec. done.
  - norm. eapply cont_ok_mono; [by apply (qi_time _ QI m)|by apply (qi_cont _ QI m)].
  - by apply msg_inv_pop.
Qed.

Lemma msg_inv_init reg h t : msg_inv None (init_replication reg h t).
Proof.
  assert (Hq : ∀ e, e ∈ queue (init_replication reg h t) →
            e = until_entry ∨ ∃ s, e = mkEntry 0 URGENT s (KArriveInit s)).
  { rewrite init_queue. intros e He. simpl in He. elems He; [by left|right..]; eauto. }
  assert (Hp : ∀ s, put_of s (init_replication reg h t) = []).
  { intros s. unfold put_of. by rewrite init_station. }
  split.
  - intros e1 e2 s i [->|(s' & ->)]%Hq; simpl; done.
  - intros e s i [->|(s' & ->)]%Hq; simpl; done.
  - done.
  - intros s. rewrite Hp. apply NoDup_nil_2.
  - intros a s j [->|(s' & ->)]%Hq; simpl; [done|]. intros [= <- <-].
    split; [|split; [|done]].
    + intros e i [->|(s'' & ->)]%Hq; simpl; done.
    + intros i. rewrite Hp. by intros ?%elem_of_nil.
  - done.
  - intros a1 a2 s j1 j2 [->|(s1 & ->)]%Hq [->|(s2 & ->)]%Hq; simpl; try done.
    by intros [= <- <-] [= <- <-].
Qed.

Lemma pre_stage_msg s i k : pre_stage s i k = true → msg_of k = Some (s, i).
Proof.
  destruct k; simpl; try done; unfold same_msg; intros H%bool_decide_eq_true; by simplify_eq.
Qed.

Lemma trigger_put_put s s0 σ :
  ∀ i, i ∈ put_of s (trigger_put s0 σ) → i ∈ put_of s σ.
Proof.
  intros i. destruct (trigger_put_cases s0 σ) as [->|(j & rest & Hq & _ & ->)]; [done|].
  unfold put_of. rewrite station_schedule.
  destruct (station_upd_cases s s0 (grant j rest) σ) as [->|[-> ->]]; [done|].
  simpl. rewrite Hq. intros. by apply elem_of_cons; right.
Qed.

Lemma trigger_put_granted s0 σ e :
  e ∈ queue (trigger_put s0 σ) →
  e ∈ queue σ ∨ ∃ j, e_cont e = KWfsReq s0 j ∧ j ∈ put_of s0 σ.
Proof.
  destruct (trigger_put_cases s0 σ) as [->|(j & rest & Hq & _ & ->)]; [by left|].
  norm. intros [->|He]%elem_of_cons; [|by left]. right. exists j. split; [done|].
  unfold put_of. rewrite Hq. by apply elem_of_cons; left.
Qed.

Lemma put_of_wfs_enter s s0 i t σ x :
  x ∈ put_of s (upd_station s0 (wfs_enter i t) σ) →
  x ∈ put_of s σ ∨ (s = s0 ∧ x = i).
Proof.
  unfold put_of.
  destruct (station_upd_cases s s0 (wfs_enter i t) σ) as [->|[-> ->]]; [by left|].
  simpl. intros [?|Hx]%elem_of_app; [auto|].
  apply list_elem_of_singleton in Hx as ->. auto.
Qed.

Lemma put_of_same s s0 f σ :
  (∀ x, put_queue (server (f x)) = put_queue (server x)) →
  put_of s (upd_station s0 f σ) = put_of s σ.
Proof.
  intros Hf. unfold put_of.
  destruct (station_upd_cases s s0 f σ) as [->|[-> ->]]; [done|]. apply Hf.
Qed.

Lemma same_msg_true s i s' i' : same_msg s i s' i' = true → s' = s ∧ i' = i.
Proof. unfold same_msg. intros H%bool_decide_eq_true. by simplify_eq. Qed.

Lemma same_msg_false s i s' i' : same_msg s i s' i' = false → (s', i') ≠ (s, i).
Proof. unfold same_msg. by intros H%bool_decide_eq_false. Qed.

Lemma past_schedule s i prio delay k σ :
  pre_stage s i k = false → (∀ j, arrive_of k = Some (s, j) → (i < j)%nat) →
  past s i σ → past s i (schedule prio delay k σ).
Proof.
  intros Hk Hka (Hq & Hp & Ha). split; [|split]; norm.
  - intros e [->|He]%elem_of_cons; norm; [done|by apply Hq].
  - done.
  - intros e j [->|He]%elem_of_cons; norm; [by apply Hka|by apply Ha].
Qed.

Lemma past_upd s i s0 f σ :
  (∀ x, put_queue (server (f x)) = put_queue (server x)) →
  past s i σ → past s i (upd_station s0 f σ).
Proof.
  intros Hf (Hq & Hp & Ha). split; [|split]; norm; [done| |done].
  by rewrite put_of_same.
Qed.

Lemma past_set_tape s i t σ : past s i σ → past s i (set_tape t σ).
Proof. done. Qed.

Lemma past_set_frames s i reg h σ : past s i σ → past s i (set_frames reg h σ).
Proof. done. Qed.

Lemma past_check_collision s i frame fid σ :
  past s i σ → past s i (check_collision frame fid σ).
Proof. unfold check_collision. by destruct (has_collision _ _ _ _). Qed.

Lemma past_wfs_enter s i s0 i0 t σ :
  same_msg s i s0 i0 = false →
  past s i σ → past s i (upd_station s0 (wfs_enter i0 t) σ).
Proof.
  intros Hne%same_msg_false (Hq & Hp & Ha). split; [|split]; norm; [done| |done].
  intros [Hin|[-> ->]]%put_of_wfs_enter; done.
Qed.

Lemma past_trigger_put s i s0 σ : past s i σ → past s i (trigger_put s0 σ).
Proof.
  intros (Hq & Hp & Ha). split; [|split].
  - intros e [He|(j & Hk & Hj)]%trigger_put_granted; [by apply Hq|].
    rewrite Hk. simpl. unfold same_msg. apply bool_decide_eq_false.
    intros [= -> ->]. done.
  - intros Hin%trigger_put_put. done.
  - intros e j [He|(j0 & Hk & Hj)]%trigger_put_granted; [by apply Ha|].
    by rewrite Hk.
Qed.

(** Once a message is past the start of its [transmit] it stays so. *)
Lemma past_exec s i k σ σ' :
  past s i σ → pre_stage s i k = false →
  (∀ j, arrive_of k = Some (s, j) → (i < j)%nat) →
  exec k σ = Running σ' → past s i σ'.
Proof.
  intros Hpast Hk Hka Hexec.
  destruct k; simpl in Hexec; repeat case_match; simplify_eq;
    repeat match goal with
    | H : draw _ = Some _ |- _ => apply draw_inv in H as [? [? ->]]
    end;
    unfold begin_attempt, add_frame_in_transmit, remove_frame_in_transmit in *;
    repeat case_match; simplify_eq; simpl in Hk; simpl in Hka;
    repeat first
      [ done
      | apply past_schedule;
          [ first [ done
                  | simpl; unfold same_msg; apply bool_decide_eq_false;
                    intros [= -> ->]; specialize (Hka _ eq_refl); lia ]
          | first [ done
                  | simpl; intros ? [= -> <-]; specialize (Hka _ eq_refl); lia ]
          | ]
      | apply past_trigger_put
      | apply past_wfs_enter; [done|]
      | apply past_upd; [(done || apply wfs_complete_put)|]
      | apply past_set_tape
      | apply past_set_frames
      | apply past_check_collision ].
Qed.

Lemma past_exec_init s i s0 i0 wtt σ σ' :
  past s i σ → exec (KTransmitInit s0 i0 wtt) σ = Running σ' → past s i σ'.
Proof.
  intros Hpast Hexec. simpl in Hexec. repeat case_match; simplify_eq.
  unfold begin_attempt, add_frame_in_transmit.
  apply past_schedule; [done|done|]. apply past_set_frames, past_set_tape.
  by apply past_upd.
Qed.

Lemma past_pop s i σ m q :
  past s i σ → pop_min (queue σ) = Some (m, q) →
  past s i (set_now_queue (e_time m) q σ).
Proof.
  intros (Hq & Hp & Ha) Hpop. split; [|split]; norm; [|done|].
  - intros e He. apply Hq. by eapply rest_in_queue.
  - intros e j He. apply Ha. by eapply rest_in_queue.
Qed.

Lemma past_step s i σ σ' : past s i σ → step σ = Running σ' → past s i σ'.
Proof.
  intros Hpast (m & q & Hpop & Hexec)%step_inv.
  pose proof (popped_in_queue _ _ _ Hpop) as Hm.
  destruct Hpast as (Hq & Hp & Ha).
  eapply past_exec; [by apply past_pop| | |done].
  - by apply Hq.
  - intros j. by apply Ha.
Qed.

(** Line 149 is reached once for a message. *)
Lemma past_start s i wtt σ σ' m q :
  queue_inv σ → msg_inv None σ → pop_min (queue σ) = Some (m, q) →
  e_cont m = KTransmitInit s i wtt → step σ = Running σ' → past s i σ'.
Proof.
  intros QI MI Hpop Hk (m' & q' & Hpop' & Hexec)%step_inv.
  assert (m' = m ∧ q' = q) as [-> ->] by (split; congruence).
  pose proof (msg_inv_pop _ _ _ QI MI Hpop) as MI'. rewrite Hk in MI', Hexec.
  eapply past_exec_init; [|done].
  destruct (mg_hand _ _ MI' _ s i eq_refl eq_refl) as [Hp Hq].
  split; [|split]; [|done|].
  - intros e He. destruct (pre_stage s i (e_cont e)) eqn:Hpre; [|done].
    apply pre_stage_msg in Hpre. by destruct (Hq e He).
  - intros e j He Ha. destruct (mg_fresh _ _ MI' _ _ _ He Ha) as (_ & _ & H3).
    by eapply H3.
Qed.

Lemma news_refl P σ : news P σ σ.
Proof. intros e He. by left. Qed.

Lemma news_schedule P σ0 prio delay k σ :
  P k → news P σ0 σ → news P σ0 (schedule prio delay k σ).
Proof. intros Hk Hn e [->|He]%elem_of_cons; norm; [by right|by apply Hn]. Qed.

Lemma news_same P σ0 σ σ1 : queue σ1 = queue σ → news P σ0 σ → news P σ0 σ1.
Proof. intros Hq Hn e He. apply Hn. by rewrite <- Hq. Qed.

Lemma news_trigger_put P σ0 s σ :
  (∀ j, P (KWfsReq s j)) → news P σ0 σ → news P σ0 (trigger_put s σ).
Proof.
  intros HP Hn e [He|(j & Hk & _)]%trigger_put_granted; [by apply Hn|].
  right. rewrite Hk. apply HP.
Qed.

(** A step hands the duration of a message on to the next continuation of
    its [transmit]; a new duration comes from line 151 only. *)
Lemma exec_durations s i k σ σ' :
  exec k σ = Running σ' →
  news (fun k' => ∀ d, duration_of s i k' = Some d →
                       duration_of s i k = Some d ∨ transmit_start s i k = true) σ σ'.
Proof.
  intros Hexec.
  destruct k; simpl in Hexec; repeat case_match; simplify_eq;
    repeat match goal with
    | H : draw _ = Some _ |- _ => apply draw_inv in H as [? [? ->]]
    end;
    unfold begin_attempt, add_frame_in_transmit, remove_frame_in_transmit in *;
    repeat case_match; simplify_eq.
  all: repeat first
    [ apply news_refl
    | apply news_schedule;
        [simpl; first [done | by intros; simpl; auto
                      | intros d; destruct (same_msg _ _ _ _) eqn:?; auto ]|]
    | apply news_trigger_put; [done|]
    | eapply news_same; [by simp_state|] ].
Qed.

Lemma label_pop σ k :
  label σ = Some k → ∃ m q, pop_min (queue σ) = Some (m, q) ∧ e_cont m = k.
Proof.
  unfold label. destruct (pop_min (queue σ)) as [[m q]|]; [|done].
  intros [= <-]. eauto.
Qed.

Lemma step_label σ σ' : step σ = Running σ' → ∃ k, label σ = Some k.
Proof.
  intros (m & q & Hpop & _)%step_inv. unfold label. rewrite Hpop. eauto.
Qed.

Lemma transmit_start_pre s i k : transmit_start s i k = true → pre_stage s i k = true.
Proof. by destruct k. Qed.

Lemma transmit_start_duration s i k : transmit_start s i k = true → duration_of s i k = None.
Proof. by destruct k. Qed.

Lemma exec_init_queue s i wtt σ σ' :
  exec (KTransmitInit s i wtt) σ = Running σ' →
  ∃ ft f, 0 < ft ∧ generate_frame_time (tape σ) = Some (ft, tape σ')
          ∧ queue σ' = mkEntry (now σ + ft) NORMAL (next_eid σ)
                               (KTransmitFrame s i wtt ft f (now σ)) :: queue σ
          ∧ now σ' = now σ
          ∧ frames_in_transmit σ' !! (s, i) = Some f
          ∧ heap σ' !! f = Some (create_frame (now σ) ft).
Proof.
  intros Hexec. simpl in Hexec. repeat case_match; simplify_eq.
  unfold begin_attempt, add_frame_in_transmit. norm.
  eexists _, _. split; [by eapply generate_frame_time_pos|].
  split; [done|]. split; [done|]. split; [done|].
  split; [by rewrite lookup_insert_eq|].
  by rewrite lookup_app_r, Nat.sub_diag.
Qed.

Lemma filter_none {A} (P : A → Prop) `{∀ x, Decision (P x)} (l : list A) :
  (∀ x, x ∈ l → ¬ P x) → filter P l = [].
Proof.
  induction l as [|x l IH]; intros Hl; [done|].
  rewrite filter_cons_False; [|apply Hl; by apply elem_of_cons; left].
  apply IH. intros y Hy. apply Hl. by apply elem_of_cons; right.
Qed.

Lemma draw_at_other s i σ k :
  label σ = Some k → transmit_start s i k = false → draw_at s i σ = [].
Proof. unfold draw_at. intros -> ->. by repeat case_match. Qed.

Lemma msg_history_step s i evs ds σ σ' k :
  queue_inv σ → msg_inv None σ → msg_history s i evs ds σ →
  step σ = Running σ' → label σ = Some k →
  msg_history s i (evs ++ [k]) (ds ++ draw_at s i σ) σ'.
Proof.
  intros QI MI H Hstep Hlabel.
  pose proof Hlabel as (m & q & Hpop & Hk)%label_pop.
  pose proof (popped_in_queue _ _ _ Hpop) as Hm.
  destruct (step_inv _ _ Hstep) as (m' & q' & Hpop' & Hexec).
  assert (m' = m ∧ q' = q) as [-> ->] by (split; congruence). clear Hpop'.
  rewrite Hk in Hexec.
  pose proof (exec_durations s i _ _ _ Hexec) as Hnews.
  destruct H as [(Hq & Hev & ->)|(d & Hpast & Hq & Hev & Hcount & ->)].
  - pose proof (Hq m Hm) as Hdm. rewrite Hk in Hdm.
    destruct (transmit_start s i k) eqn:Hts.
    + right. destruct k; try done. simpl in Hts. apply same_msg_true in Hts as [-> ->].
      destruct (exec_init_queue _ _ _ _ _ Hexec) as (ft & f & _ & Hgen & Hq' & _).
      exists ft. split; [by eapply (past_start s i wtt σ σ' m q)|].
      split; [|split; [|split]].
      * intros e d'. rewrite Hq'. norm. intros [->|He]%elem_of_cons; norm.
        -- simpl. unfold same_msg. rewrite bool_decide_eq_true_2 by done. by intros [= <-].
        -- rewrite (Hq e (rest_in_queue _ _ _ _ Hpop He)). done.
      * intros k d' [Hin|Hin]%elem_of_app.
        -- destruct (Hev _ Hin) as [-> _]. done.
        -- apply list_elem_of_singleton in Hin as ->. done.
      * rewrite filter_app, length_app.
        assert (filter (fun k => transmit_start s i k = true) evs = []) as ->.
        { apply filter_none. intros k Hin Hkt.
          destruct (Hev _ Hin) as [_ Hf]. congruence. }
        simpl. rewrite filter_cons. destruct (decide _) as [|Hn]; [done|].
        exfalso. apply Hn. simpl. unfold same_msg. by apply bool_decide_eq_true_2.
      * unfold draw_at. rewrite Hlabel. change (tape (set_now_queue (e_time m) q σ)) with (tape σ) in Hgen.
        rewrite Hgen. simpl. unfold same_msg. by rewrite bool_decide_eq_true_2.
    + left. split; [|split].
      * intros e He. destruct (Hnews e He) as [He'|Hd].
        -- norm. apply Hq. by eapply rest_in_queue.
        -- destruct (duration_of s i (e_cont e)) as [d'|] eqn:Hde; [|done].
           destruct (Hd _ eq_refl) as [?|?]; congruence.
      * intros k' [Hin|Hin]%elem_of_app; [by apply Hev|].
        apply list_elem_of_singleton in Hin as ->. done.
      * by rewrite (draw_at_other _ _ _ _ Hlabel Hts).
  - right. exists d. split; [by eapply past_step|].
    assert (transmit_start s i k = false) as Hts.
    { destruct (transmit_start s i k) eqn:Hts; [|done].
      apply transmit_start_pre in Hts. destruct Hpast as (Hpre & _).
      specialize (Hpre m Hm). rewrite Hk in Hpre. congruence. }
    split; [|split; [|split]].
    + intros e d' He Hde. destruct (Hnews e He) as [He'|Hd].
      * norm. eapply Hq; [|done]. by eapply rest_in_queue.
      * destruct (Hd _ Hde) as [Hkd|?]; [|congruence].
        eapply (Hq m); [done|]. by rewrite Hk.
    + intros k' d' [Hin|Hin]%elem_of_app; [by apply Hev|].
      apply list_elem_of_singleton in Hin as ->. intros Hkd.
      eapply (Hq m); [done|]. by rewrite Hk.
    + rewrite filter_app, length_app. rewrite filter_cons.
      destruct (decide _); [congruence|]. simpl. lia.
    + by rewrite (draw_at_other _ _ _ _ Hlabel Hts).
Qed.

Lemma msg_history_init s i reg h t : msg_history s i [] [] (init_replication reg h t).
Proof.
  left. split; [|split; [by intros k ?%elem_of_nil|done]].
  intros e He. rewrite init_queue in He. simpl in He. elems He; done.
Qed.

Lemma msg_history_path s i l :
  ∀ σ evs ds, inv σ → msg_inv None σ → msg_history s i evs ds σ → path σ l →
  ∃ σ', msg_history s i (evs ++ events σ l) (ds ++ draws s i σ l) σ'.
Proof.
  induction l as [|σ1 l IH]; intros σ evs ds I MI H; simpl.
  - intros _. exists σ. by rewrite !app_nil_r.
  - intros [Hs Hp]. destruct (step_label _ _ Hs) as [k Hk]. rewrite Hk. simpl.
    change (k :: events σ1 l) with ([k] ++ events σ1 l).
    rewrite (assoc_L (++) evs [k]), (assoc_L (++) ds). apply IH; [by eapply inv_step| |
      by eapply msg_history_step; [apply I|..]|done].
    eapply msg_inv_step; [apply I|done..].
Qed.

Lemma msg_inv_starts t0 σ0 : starts t0 σ0 → msg_inv None σ0.
Proof. destruct 1; apply msg_inv_init. Qed.

Lemma msg_inv_path σ l :
  inv σ → msg_inv None σ → path σ l → Forall (msg_inv None) l.
Proof.
  revert σ. induction l as [|σ' l IH]; intros σ I MI; simpl; [constructor|].
  intros [Hs Hp]. pose proof (inv_step _ _ I Hs).
  pose proof (msg_inv_step _ _ (inv_queue _ I) MI Hs). constructor; eauto.
Qed.

(** Lines 153-159 after a back-off: the same duration, no variate. *)
Lemma exec_retry s i wtt ft σ σ' :
  exec (KWaitEnd s i wtt ft) σ = Running σ' →
  tape σ' = tape σ ∧ stations σ' = stations σ ∧ now σ' = now σ
  ∧ ∃ f, frames_in_transmit σ' !! (s, i) = Some f
         ∧ heap σ' !! f = Some (create_frame (now σ) ft)
         ∧ queue σ' = mkEntry (now σ + ft) NORMAL (next_eid σ)
                              (KTransmitFrame s i wtt ft f (now σ)) :: queue σ.
Proof.
  intros [= <-]. unfold begin_attempt, add_frame_in_transmit. norm.
  repeat split; try done. eexists. split; [by rewrite lookup_insert_eq|].
  split; [|done]. by rewrite lookup_app_r, Nat.sub_diag.
Qed.

(** The counter of initial transmits of a station changes at line 149 and
    at the reset. *)
Lemma exec_nit k σ σ' s :
  cont_ok (now σ) k → length (stations σ) = NUM_STATIONS →
  exec k σ = Running σ' →
  (match k with
   | KTransmitInit s0 _ _ =>
       if decide (s0 = s) then nit_of s σ' = nit_of s σ + 1
       else nit_of s σ' = nit_of s σ
   | _ => nit_of s σ' = nit_of s σ ∨ nit_of s σ' = 0
   end).
Proof.
  intros (Hs & _ & _) Hlen Hexec. unfold nit_of.
  assert (∀ x y, stats_of x = stats_of y →
                 num_initial_transmits x = num_initial_transmits y) as Hst.
  { unfold stats_of. by intros x y [= _ _ _ -> _ _]. }
  destruct k; simpl in Hexec; repeat case_match; simplify_eq;
    try (specialize (Hs _ eq_refl));
    repeat match goal with
    | H : draw _ = Some _ |- _ => apply draw_inv in H as [? [? ->]]
    end;
    unfold begin_attempt, add_frame_in_transmit, remove_frame_in_transmit in *;
    repeat case_match; simplify_eq;
    repeat first
      [ rewrite station_schedule
      | rewrite station_set_tape
      | rewrite station_set_frames
      | rewrite check_collision_station
      | rewrite (Hst _ _ (trigger_put_stats _ _ _))
      | rewrite station_upd_eq by (rewrite Hlen; lia)
      | match goal with
        | |- context [station ?s1 (upd_station ?s0 ?f ?σ0)] =>
            let Heq := fresh "Heq" in
            let Hs := fresh "Hs" in
            destruct (station_upd_cases s1 s0 f σ0) as [Heq|[Hs Heq]];
            rewrite Heq; clear Heq; [|try subst]
        end ];
    try done; simpl; auto.
  all: unfold wfs_complete; destruct (_ && _); simpl; auto.
Qed.

Lemma step_attempt s i σ σ' k :
  queue_inv σ → step σ = Running σ' → label σ = Some k →
  (∀ wtt, k = KTransmitInit s i wtt →
     nit_of s σ' = nit_of s σ + 1
     ∧ ∃ ft f, 0 < ft ∧ generate_frame_time (tape σ) = Some (ft, tape σ')
               ∧ on_air s i wtt ft f σ')
  ∧ (∀ wtt ft, k = KWaitEnd s i wtt ft →
     nit_of s σ' = nit_of s σ ∧ tape σ' = tape σ ∧ ∃ f, on_air s i wtt ft f σ')
  ∧ ((∀ j wtt, k ≠ KTransmitInit s j wtt) →
     nit_of s σ' = nit_of s σ ∨ nit_of s σ' = 0).
Proof.
  intros QI Hstep (m & q & Hpop & Hk)%label_pop.
  pose proof (popped_in_queue _ _ _ Hpop) as Hm.
  destruct (step_inv _ _ Hstep) as (m' & q' & Hpop' & Hexec).
  assert (m' = m ∧ q' = q) as [-> ->] by (split; congruence). clear Hpop'.
  rewrite Hk in Hexec.
  assert (cont_ok (now (set_now_queue (e_time m) q σ)) k) as Hok.
  { norm. rewrite <- Hk.
    eapply cont_ok_mono; [by apply (qi_time _ QI m)|by apply (qi_cont _ QI m)]. }
  pose proof (exec_nit k _ _ s Hok (qi_stations _ QI) Hexec) as Hnit.
  change (nit_of s (set_now_queue (e_time m) q σ)) with (nit_of s σ) in Hnit.
  split; [|split].
  - intros wtt ->. rewrite decide_True in Hnit by done. split; [done|].
    destruct (exec_init_queue _ _ _ _ _ Hexec) as (ft & f & Hft & Hgen & Hq & Hnow & Hreg & Hh).
    exists ft, f. split; [done|]. split; [done|]. unfold on_air. rewrite Hnow.
    split; [done|]. split; [done|]. eexists. split; [rewrite Hq; by apply elem_of_cons; left|].
    done.
  - intros wtt ft ->.
    destruct (exec_retry _ _ _ _ _ _ Hexec) as (Ht & Hst & Hnow & f & Hreg & Hh & Hq).
    split; [by unfold nit_of, station; rewrite Hst|]. split; [done|].
    exists f. unfold on_air. rewrite Hnow. split; [done|]. split; [done|].
    eexists. split; [rewrite Hq; by apply elem_of_cons; left|]. done.
  - intros Hne. destruct k; try done.
    destruct (decide (s0 = s)) as [->|]; [by destruct (Hne i0 wtt)|auto].
Qed.

(** C8. Along a run, for message [i] of station [s]: at most one frame
    duration is drawn, and it is drawn by the step that begins the
    message's [transmit], which happens as often as a duration is drawn;
    every attempt and every back-off of the message carries that one
    duration.  The step that begins the [transmit] adds one to the
    station's counter of initial transmits, takes the duration from the
    variates and puts the first frame with it on the air; the step that
    begins a retry leaves the counter and the variates alone and puts a
    frame of the duration it carries on the air; and no step other than the
    beginning of a [transmit] of the station raises the counter. *)
Theorem one_duration_and_one_count_per_message t0 σ0 l s i :
  starts t0 σ0 → path σ0 l →
  (length (draws s i σ0 l) ≤ 1)%nat
  ∧ length (filter (fun k => transmit_start s i k = true) (events σ0 l))
    = length (draws s i σ0 l)
  ∧ (∀ k d, k ∈ events σ0 l → duration_of s i k = Some d → draws s i σ0 l = [d])
  ∧ (∀ n σ σ' k,
       (σ0 :: l) !! n = Some σ → l !! n = Some σ' → label σ = Some k →
       (∀ wtt, k = KTransmitInit s i wtt →
          nit_of s σ' = nit_of s σ + 1
          ∧ ∃ ft f, 0 < ft ∧ generate_frame_time (tape σ) = Some (ft, tape σ')
                    ∧ on_air s i wtt ft f σ')
       ∧ (∀ wtt ft, k = KWaitEnd s i wtt ft →
          nit_of s σ' = nit_of s σ ∧ tape σ' = tape σ
          ∧ ∃ f, on_air s i wtt ft f σ')
       ∧ ((∀ j wtt, k ≠ KTransmitInit s j wtt) →
          nit_of s σ' = nit_of s σ ∨ nit_of s σ' = 0)).
Proof.
  intros Hst Hp. pose proof (inv_starts _ _ Hst) as I.
  pose proof (msg_inv_starts _ _ Hst) as MI.
  assert (msg_history s i [] [] σ0) as H0 by (destruct Hst; apply msg_history_init).
  destruct (msg_history_path s i l σ0 [] [] I MI H0 Hp) as (σ' & H). simpl in H.
  split; [|split; [|split]].
  - destruct H as [(_ & _ & ->)|(d & _ & _ & _ & _ & ->)]; simpl; lia.
  - destruct H as [(_ & Hev & ->)|(d & _ & _ & _ & Hc & ->)]; [|done].
    simpl. rewrite filter_none; [done|]. intros k Hk Ht.
    destruct (Hev k Hk). congruence.
  - intros k d Hk Hd. destruct H as [(_ & Hev & _)|(d0 & _ & _ & Hev & _ & ->)].
    + destruct (Hev k Hk). congruence.
    + by rewrite (Hev k d Hk Hd).
  - intros n σ σ1 k H1 H2 Hk. destruct (path_lookup _ _ _ _ _ I Hp H1 H2) as [Iσ Hs].
    by apply step_attempt; [apply Iσ|..].
Qed.

(** ** Runs on given variates *)

Lemma path_last_reaches l : ∀ σ x, path σ l → last l = Some x → reaches σ x.
Proof.
  induction l as [|σ1 l IH]; intros σ x; simpl; [done|].
  intros [Hs Hp] Hl. eapply rtc_l; [exact Hs|].
  destruct l as [|σ2 l]; [injection Hl as <-; apply rtc_refl|].
  by apply IH.
Qed.

Lemma trace_reaches n σ : reaches σ (state_after n σ).
Proof.
  unfold state_after. destruct (last (trace n σ)) as [x|] eqn:Hl; simpl.
  - eapply path_last_reaches; [apply trace_path|exact Hl].
  - apply rtc_refl.
Qed.

Lemma end_of_at_end fuel t :
  replication fuel ∅ [] t = Some (Stopped (end_of fuel t)) → at_end t (end_of fuel t).
Proof. apply replication_at_end. Qed.

Lemma replication_starts fuel t σ :
  replication fuel ∅ [] t = Some (Stopped σ) →
  starts t (init_replication (frames_in_transmit σ) (heap σ) (tape σ)).
Proof.
  intros (σ1 & Hreach & Hstop)%run_stopped.
  eapply starts_next; [apply starts_first|exact Hreach|exact Hstop].
Qed.

Lemma no_initial_transmit_no_report l :
  total num_initial_transmits l = 0 → generate_report_single_replication l = None.
Proof. intros H. unfold generate_report_single_replication, fdiv. by rewrite H. Qed.

(** C3.  The code does not have the property.  When no station has counted
    an initial transmit, line 237 divides by zero:
    [generate_report_single_replication] raises [ZeroDivisionError], and
    [__main__] ends with it.  Here no message arrives before the end of the
    first replication. *)
Theorem mean_retries_division_by_zero :
  ∃ σ, replication 100 ∅ [] tape_idle = Some (Stopped σ)
       ∧ total num_initial_transmits (stations σ) = 0
       ∧ generate_report_single_replication (stations σ) = None
       ∧ main 100 tape_idle = Raised [].
Proof.
  eexists. split; [vm_compute; reflexivity|].
  split; [vm_compute; reflexivity|].
  split; [apply no_initial_transmit_no_report|]; vm_compute; reflexivity.
Qed.

(** C4.  The code does not have the property.  [frames_in_transmit] is an
    attribute of the class [Station] (line 36) and line 273 does not replace
    it: the frame that station 0 began at time 9990 of the first replication
    is in the dictionary when the second replication begins, at time 0. *)
Theorem frame_outlives_its_replication :
  ∃ σ1 σ2,
    replication 100 ∅ [] tape_late = Some (Stopped σ1)
    ∧ σ2 = init_replication (frames_in_transmit σ1) (heap σ1) (tape σ1)
    ∧ starts tape_late σ2
    ∧ now σ2 = 0
    ∧ frames_in_transmit σ2 !! (0, 0)%nat = Some 0%nat
    ∧ heap σ2 !! 0%nat = Some (mkFrame 9990 10010 20 false).
Proof.
  exists (end_of 100 tape_late), (init_replication (frames_in_transmit (end_of 100 tape_late))
    (heap (end_of 100 tape_late)) (tape (end_of 100 tape_late))).
  assert (replication 100 ∅ [] tape_late = Some (Stopped (end_of 100 tape_late))) as Hr
    by (vm_compute; reflexivity).
  split; [exact Hr|]. split; [reflexivity|]. split.
  - exact (replication_starts _ _ _ Hr).
  - split; [vm_compute; reflexivity|]. split; vm_compute; reflexivity.
Qed.

(** C9.  The code does not have the property, for the reason given at C4.
    The second and the third replication of a run are given the same
    variates [tape_pair] and end with different counters: in the second the
    frame of station 1 meets the frame that the first replication left in
    the dictionary, in the third it does not. *)
Theorem same_variates_different_counters :
  ∃ σ1 σ2 σ3,
    replication 100 ∅ [] (tape_late ++ tape_pair ++ tape_pair) = Some (Stopped σ1)
    ∧ tape σ1 = tape_pair ++ tape_pair
    ∧ replication 100 (frames_in_transmit σ1) (heap σ1) (tape σ1) = Some (Stopped σ2)
    ∧ tape σ2 = tape_pair
    ∧ replication 100 (frames_in_transmit σ2) (heap σ2) (tape σ2) = Some (Stopped σ3)
    ∧ map counters (stations σ2) ≠ map counters (stations σ3).
Proof.
  eexists _, _, _. split; [vm_compute; reflexivity|].
  split; [vm_compute; reflexivity|]. split; [vm_compute; reflexivity|].
  split; [vm_compute; reflexivity|]. split; [vm_compute; reflexivity|].
  vm_compute. discriminate.
Qed.

(** C1 at a dictionary of three frames, checked for the first: the second
    overlaps it, and the third, which does not, is flagged too. *)
Lemma check_collision_reports_overlap_and_flags_all_witness :
  reg_wf (frames_in_transmit three_frames) (heap three_frames)
  ∧ has_collision (frames_in_transmit three_frames) (heap three_frames)
      (mkFrame 0 5 5 false) (0, 0)%nat = true
  ∧ ∀ key r,
      frames_in_transmit (check_collision (mkFrame 0 5 5 false) (0, 0)%nat three_frames)
        !! key = Some r →
      ∃ o, heap (check_collision (mkFrame 0 5 5 false) (0, 0)%nat three_frames) !! r
           = Some o ∧ retry o = true.
Proof.
  assert (reg_wf (frames_in_transmit three_frames) (heap three_frames)) as Hwf.
  { unfold reg_wf, three_frames. simpl.
    repeat (apply map_Forall_insert_2; [simpl; lia|]). apply map_Forall_empty. }
  split; [exact Hwf|]. split; [vm_compute; reflexivity|].
  apply (proj1 (proj2 (check_collision_reports_overlap_and_flags_all
                         (mkFrame 0 5 5 false) (0, 0)%nat three_frames Hwf))).
  vm_compute; reflexivity.
Defined.


(** C5 at the end of the replication on [tape_collide], for station 0. *)
Lemma nt_le_num_initial_transmits_witness :
  at_end tape_collide (end_of 100 tape_collide)
  ∧ station 0 (end_of 100 tape_collide) ∈ stations (end_of 100 tape_collide)
  ∧ nt (station 0 (end_of 100 tape_collide))
    ≤ num_initial_transmits (station 0 (end_of 100 tape_collide)).
Proof.
  assert (at_end tape_collide (end_of 100 tape_collide)) as Hend.
  { apply (replication_at_end 100). vm_compute; reflexivity. }
  assert (station 0 (end_of 100 tape_collide) ∈ stations (end_of 100 tape_collide))
    as Hin.
  { apply (list_elem_of_lookup_2 _ 0). vm_compute; reflexivity. }
  split; [exact Hend|]. split; [exact Hin|].
  exact (nt_le_num_initial_transmits tape_collide _ _ (or_intror Hend) Hin).
Defined.

(** X15 at the end of the replication on [tape_busy], for station 1. *)
Lemma station_utilization_in_unit_interval_witness :
  at_end tape_busy (end_of 100 tape_busy)
  ∧ ∃ r, generate_report (now (end_of 100 tape_busy)) (station 1 (end_of 100 tape_busy))
         = Some r
         ∧ (0 <= U r)%Q ∧ (U r <= 1)%Q.
Proof.
  assert (at_end tape_busy (end_of 100 tape_busy)) as Hend.
  { apply (replication_at_end 100). vm_compute; reflexivity. }
  split; [exact Hend|].
  apply (proj1 (station_utilization_in_unit_interval tape_busy _ Hend)).
  apply (list_elem_of_lookup_2 _ 1). vm_compute; reflexivity.
Defined.

(** C8 along the replication on [tape_collide]: the retry of message 0 of
    station 0 carries the duration 5, the one duration drawn for it. *)
Lemma one_duration_and_one_count_per_message_witness :
  starts tape_collide (init_replication ∅ [] tape_collide)
  ∧ path (init_replication ∅ [] tape_collide)
         (trace 100 (init_replication ∅ [] tape_collide))
  ∧ draws 0 0 (init_replication ∅ [] tape_collide)
          (trace 100 (init_replication ∅ [] tape_collide)) = [5].
Proof.
  split; [apply starts_first|]. split; [apply trace_path|].
  apply (proj1 (proj2 (proj2 (one_duration_and_one_count_per_message tape_collide _ _
                                0 0 (starts_first _) (trace_path _ _))))
           (KWaitEnd 0 0 0 5) 5).
  - apply (list_elem_of_lookup_2 _ 21). vm_compute; reflexivity.
  - reflexivity.
Defined.

(** ** Frames and the events that end them *)

Lemma news_entry_refl P σ : news_entry P σ σ.
Proof. intros e He. by left. Qed.

Lemma news_entry_schedule P σ0 prio delay k σ :
  P (mkEntry (now σ + delay) prio (next_eid σ) k) →
  news_entry P σ0 σ → news_entry P σ0 (schedule prio delay k σ).
Proof. intros Hk Hn e [->|He]%elem_of_cons; norm; [by right|by apply Hn]. Qed.

Lemma news_entry_same P σ0 σ σ1 :
  queue σ1 = queue σ → news_entry P σ0 σ → news_entry P σ0 σ1.
Proof. intros Hq Hn e He. apply Hn. by rewrite <- Hq. Qed.

Lemma news_entry_trigger_put P σ0 s σ :
  (∀ e j, e_cont e = KWfsReq s j → P e) →
  news_entry P σ0 σ → news_entry P σ0 (trigger_put s σ).
Proof.
  intros HP Hn e [He|(j & Hk & _)]%trigger_put_granted; [by apply Hn|].
  right. by eapply HP.
Qed.

Lemma exec_entries k σ σ' :
  cont_ok (now σ) k →
  (∀ s i wtt ft f tx, k = KTransmitFrame s i wtt ft f tx → now σ = tx + ft ∧ wtt ≤ tx) →
  exec k σ = Running σ' → news_entry entry_ok σ σ'.
Proof.
  intros (Hs & Hft & Ht) Hk Hexec.
  destruct k; simpl in Hexec; repeat case_match; simplify_eq;
    try (specialize (Hft _ eq_refl));
    try (destruct (Hk _ _ _ _ _ _ eq_refl));
    simpl in Ht; repeat (apply Forall_cons in Ht as [? Ht]);
    repeat match goal with
    | H : draw _ = Some _ |- _ => apply draw_inv in H as [? [? ->]]
    end;
    unfold begin_attempt, add_frame_in_transmit, remove_frame_in_transmit in *;
    repeat case_match; simplify_eq.
  all: repeat first
    [ apply news_entry_refl
    | apply news_entry_schedule; [unfold entry_ok; simp_state; first [done|lia]|]
    | apply news_entry_trigger_put; [by intros ?? Hc; unfold entry_ok; rewrite Hc|]
    | eapply news_entry_same; [by simp_state|] ].
Qed.

Lemma check_collision_frame_ok frame fid σ :
  Forall frame_ok (heap σ) → Forall frame_ok (heap (check_collision frame fid σ)).
Proof.
  intros H. apply Forall_lookup. intros r o' Ho'.
  destruct (lookup_lt_is_Some_2 (heap σ) r) as [o Ho].
  { rewrite <- (check_collision_heap_length frame fid σ). by eapply lookup_lt_Some. }
  destruct (check_collision_heap frame fid σ r o Ho) as (o2 & Ho2 & Hst & He & Hf & _).
  assert (o2 = o') as -> by congruence.
  pose proof (proj1 (Forall_lookup _ _) H r o Ho) as Hok.
  unfold frame_ok in *. rewrite Hst, He, Hf. done.
Qed.

Lemma trigger_put_heap s σ : heap (trigger_put s σ) = heap σ.
Proof. by destruct (trigger_put_cases s σ) as [->|(j & rest & _ & _ & ->)]. Qed.

Lemma trigger_put_frames s σ :
  frames_in_transmit (trigger_put s σ) = frames_in_transmit σ.
Proof. by destruct (trigger_put_cases s σ) as [->|(j & rest & _ & _ & ->)]. Qed.

Lemma exec_frames_ok k σ σ' :
  cont_ok (now σ) k → 0 ≤ now σ < TERMINATE_TIME →
  Forall frame_ok (heap σ) → exec k σ = Running σ' → Forall frame_ok (heap σ').
Proof.
  intros (Hs & Hft & Ht) Hnow Hh Hexec.
  assert (∀ ft, 0 < ft → frame_ok (create_frame (now σ) ft)) as Hnew.
  { intros ft Hpos. unfold frame_ok, create_frame. simpl. lia. }
  destruct k; simpl in Hexec; repeat case_match; simplify_eq;
    try (specialize (Hft _ eq_refl));
    repeat match goal with
    | H : draw _ = Some _ |- _ => apply draw_inv in H as [? [? ->]]
    | H : generate_frame_time _ = Some _ |- _ => apply generate_frame_time_pos in H
    end;
    unfold begin_attempt, add_frame_in_transmit, remove_frame_in_transmit in *;
    repeat case_match; simplify_eq; simp_state;
    rewrite ?(trigger_put_heap); norm;
    try done;
    try (apply Forall_app; split; [done|]; repeat constructor; by apply Hnew);
    try by apply check_collision_frame_ok.
Qed.

Lemma shape_inv_step σ σ' :
  inv σ → shape_inv σ → step σ = Running σ' → shape_inv σ'.
Proof.
  intros I [He Hh] Hstep.
  destruct (step_inv _ _ Hstep) as (m & q & Hpop & Hexec).
  pose proof (popped_in_queue _ _ _ Hpop) as Hm.
  pose proof (inv_queue _ I) as QI.
  assert (cont_ok (now (set_now_queue (e_time m) q σ)) (e_cont m)) as Hok.
  { norm. eapply cont_ok_mono; [by apply (qi_time _ QI m)|by apply (qi_cont _ QI m)]. }
  split.
  - intros e Hin. eapply exec_entries in Hexec; [|done|].
    + destruct (Hexec e Hin) as [Hq|Hnew]; [|done]. norm.
      apply He. by eapply rest_in_queue.
    + intros s i wtt ft f tx Hk. norm. specialize (He m Hm).
      unfold entry_ok in He. by rewrite Hk in He.
  - eapply exec_frames_ok; [done| |done|done].
    destruct (exec_action _ _ _ 0%nat Hok Hexec) as [<- _].
    apply (qi_now _ (inv_queue _ (inv_step _ _ I Hstep))).
Qed.

(** ** The server and the deque of arrivals of a station *)

Lemma serve_inv_pop σ m q :
  queue_inv σ → serve_inv None σ → pop_min (queue σ) = Some (m, q) →
  serve_inv (Some (e_cont m)) (set_now_queue (e_time m) q σ).
Proof.
  intros QI [] Hpop.
  assert (Hsub : ∀ e, e ∈ q → e ∈ queue σ) by (intros; by eapply rest_in_queue).
  pose proof (popped_in_queue _ _ _ Hpop) as Hm.
  pose proof (qi_time _ QI m Hm) as Ht.
  split; norm.
  - intros e s i He. apply sv_req0; auto.
  - intros s i [= Hk]. by apply (sv_req0 m).
  - intros s Hq Hc. apply sv_noreq0; [|done].
    intros e i [->|He]%(entry_in_queue_pop _ _ _ _ Hpop); [|by apply Hq].
    intros Hk. apply (Hc i). by rewrite Hk.
  - intros s. destruct (sv_users0 s) as [?|[(e & i & He & Hh)|(k & i & [=] & _)]]; [by left|].
    destruct (entry_in_queue_pop _ _ _ _ Hpop He) as [->|Hin]; [|right; left; eauto].
    right; right. eauto.
  - done.
  - intros s. destruct (sv_times0 s) as [Ha Hl]. split; [|change (station s (set_now_queue (e_time m) q σ)) with (station s σ); lia].
    eapply Forall_impl; [exact Ha|]. simpl. intros; lia.
Qed.

Lemma serve_inv_same c σ σ1 :
  queue σ1 = queue σ → now σ1 = now σ →
  (∀ s, srv (station s σ1) = srv (station s σ)) →
  serve_inv c σ → serve_inv c σ1.
Proof.
  intros Hq Hn Hs [].
  assert (∀ s, names s σ1 = names s σ ∧ put_of s σ1 = put_of s σ
               ∧ users_of s σ1 = users_of s σ ∧ n (station s σ1) = n (station s σ)
               ∧ arrivals (station s σ1) = arrivals (station s σ)
               ∧ last_event (station s σ1) = last_event (station s σ)) as Heq.
  { intros s. specialize (Hs s). unfold srv in Hs. injection Hs as H1 H2 H3 H4.
    unfold names, put_of, users_of. by rewrite H1, H2, H3, H4. }
  split.
  - intros e s i. destruct (Heq s) as (-> & -> & _). rewrite Hq. apply sv_req0.
  - intros s i. destruct (Heq s) as (-> & -> & _). apply sv_hand0.
  - intros s. destruct (Heq s) as (-> & -> & _). rewrite Hq. apply sv_noreq0.
  - intros s. destruct (Heq s) as (_ & _ & -> & _). rewrite Hq. apply sv_users0.
  - intros s. destruct (Heq s) as (_ & -> & -> & -> & _). apply sv_n0.
  - intros s. destruct (Heq s) as (_ & _ & _ & _ & -> & ->). rewrite Hn. apply sv_times0.
Qed.

Lemma serve_inv_upd c s0 f σ :
  (∀ x, srv (f x) = srv x) → serve_inv c σ → serve_inv c (upd_station s0 f σ).
Proof.
  intros Hf. apply serve_inv_same; [done|done|]. intros s.
  destruct (station_upd_cases s s0 f σ) as [->|[_ ->]]; [done|apply Hf].
Qed.

Lemma serve_inv_set_tape c t σ : serve_inv c σ → serve_inv c (set_tape t σ).
Proof. by apply serve_inv_same. Qed.

Lemma serve_inv_set_frames c reg h σ : serve_inv c σ → serve_inv c (set_frames reg h σ).
Proof. by apply serve_inv_same. Qed.

Lemma serve_inv_check_collision c frame fid σ :
  serve_inv c σ → serve_inv c (check_collision frame fid σ).
Proof.
  apply serve_inv_same; [by simp_state|by simp_state|].
  intros s. by rewrite check_collision_station.
Qed.

(** An event that is not of a message that holds the server. *)
Lemma serve_inv_schedule_plain c prio delay k σ :
  holder k = None → serve_inv c σ → serve_inv c (schedule prio delay k σ).
Proof.
  intros Hk []. split; norm.
  - intros e s i [->|He]%elem_of_cons; [norm; intros ->; done|by apply sv_req0].
  - done.
  - intros s Hq. apply sv_noreq0. intros e i He. apply Hq. by apply elem_of_cons; right.
  - intros s. destruct (sv_users0 s) as [?|[(e & i & He & Hh)|?]]; [by left| |by right; right].
    right; left. exists e, i. split; [by apply elem_of_cons; right|done].
  - done.
  - done.
Qed.

(** The message in hand goes on with its next event. *)
Lemma serve_inv_schedule_holder k s i prio delay k' σ :
  holder k = Some (s, i) → holder k' = Some (s, i) →
  (∀ s' i', k ≠ KWfsReq s' i') → (∀ s' i', k' ≠ KWfsReq s' i') →
  serve_inv (Some k) σ → serve_inv None (schedule prio delay k' σ).
Proof.
  intros Hk Hk' Hr Hr' []. split; norm.
  - intros e s1 i1 [->|He]%elem_of_cons; [norm; intros ->; by destruct (Hr' s1 i1)|by apply sv_req0].
  - done.
  - intros s1 Hq _. apply sv_noreq0.
    + intros e i1 He. apply Hq. by apply elem_of_cons; right.
    + intros i1 [= ->]. by destruct (Hr s1 i1).
  - intros s1. destruct (sv_users0 s1) as [?|[(e & i1 & He & Hh)|(k1 & i1 & [= <-] & Hh)]];
      [by left|right; left..].
    + exists e, i1. split; [by apply elem_of_cons; right|done].
    + eexists _, i. split; [by apply elem_of_cons; left|]. norm. congruence.
  - done.
  - done.
Qed.

Lemma serve_inv_drop k σ : holder k = None → serve_inv (Some k) σ → serve_inv None σ.
Proof.
  intros Hk []. split; try done.
  - intros s Hq _. apply sv_noreq0; [done|]. intros i [= ->]. done.
  - intros s. destruct (sv_users0 s) as [?|[?|(k1 & i1 & [= <-] & Hh)]]; [by left|by right; left|].
    congruence.
Qed.

(** Line 185. *)
Lemma serve_inv_popleft s i t σ :
  (s < length (stations σ))%nat →
  mutex_inv (Some (s, i)) σ → serve_inv (Some (KWfsReq s i)) σ →
  serve_inv (Some (KTransmitInit s i t)) (upd_station s popleft σ).
Proof.
  intros Hs MI []. pose proof (mutex_hand_no_holder _ _ _ MI) as Hno.
  assert (∀ s1, s1 ≠ s → station s1 (upd_station s popleft σ) = station s1 σ) as Hne.
  { intros. by apply station_upd_ne. }
  assert (station s (upd_station s popleft σ) = popleft (station s σ)) as Heq.
  { by apply station_upd_eq. }
  split; norm.
  - intros e s1 i1 He Hk. destruct (decide (s1 = s)) as [->|Hn].
    + destruct (Hno e i1 He). by rewrite Hk.
    + unfold names, put_of. rewrite Hne by done. by apply (sv_req0 e).
  - done.
  - intros s1 Hq _. destruct (decide (s1 = s)) as [->|Hn].
    + unfold names, put_of. rewrite Heq. simpl.
      pose proof (sv_hand0 s i eq_refl) as Hh. unfold names, put_of in Hh.
      destruct (arrivals (station s σ)); simpl in *; [done|]. by injection Hh.
    + unfold names, put_of. rewrite Hne by done. apply sv_noreq0; [done|].
      intros i1 [= -> ->]. done.
  - intros s1. destruct (decide (s1 = s)) as [->|Hn].
    + right; right. eauto.
    + unfold users_of. rewrite Hne by done.
      destruct (sv_users0 s1) as [?|[?|(k1 & i1 & [= <-] & [= -> ->])]]; [by left|by right; left|done].
  - intros s1. destruct (decide (s1 = s)) as [->|Hn].
    + unfold users_of, put_of. rewrite Heq. apply sv_n0.
    + unfold users_of, put_of. rewrite Hne by done. apply sv_n0.
  - intros s1. destruct (decide (s1 = s)) as [->|Hn].
    + rewrite Heq. destruct (sv_times0 s) as [Ha Hl]. split; [|done]. simpl.
      destruct (arrivals (station s σ)); [done|]. by apply Forall_cons in Ha as [_ Ha].
    + rewrite Hne by done. apply sv_times0.
Qed.

(** Lines 175-181. *)
Lemma serve_inv_wfs_enter c s i σ :
  (s < length (stations σ))%nat → 0 ≤ now σ →
  (∀ i', c ≠ Some (KWfsReq s i')) →
  serve_inv c σ → serve_inv c (upd_station s (wfs_enter i (now σ)) σ).
Proof.
  intros Hs Hnow Hc [].
  assert (∀ s1, s1 ≠ s → station s1 (upd_station s (wfs_enter i (now σ)) σ) = station s1 σ) as Hne.
  { intros. by apply station_upd_ne. }
  assert (station s (upd_station s (wfs_enter i (now σ)) σ)
          = wfs_enter i (now σ) (station s σ)) as Heq.
  { by apply station_upd_eq. }
  assert (names s (upd_station s (wfs_enter i (now σ)) σ) = names s σ ++ [i]) as Hnames.
  { unfold names. rewrite Heq. simpl. by rewrite fmap_app. }
  assert (put_of s (upd_station s (wfs_enter i (now σ)) σ) = put_of s σ ++ [i]) as Hput.
  { unfold put_of. by rewrite Heq. }
  split; norm.
  - intros e s1 i1 He Hk. destruct (decide (s1 = s)) as [->|Hn].
    + rewrite Hnames, Hput, (sv_req0 e s i1 He Hk). done.
    + unfold names, put_of. rewrite Hne by done. by apply (sv_req0 e).
  - intros s1 i1 Hk. destruct (decide (s1 = s)) as [->|Hn].
    + by destruct (Hc i1).
    + unfold names, put_of. rewrite Hne by done. by apply sv_hand0.
  - intros s1 Hq Hk. destruct (decide (s1 = s)) as [->|Hn].
    + rewrite Hnames, Hput, (sv_noreq0 s Hq Hk). done.
    + unfold names, put_of. rewrite Hne by done. by apply sv_noreq0.
  - intros s1. destruct (decide (s1 = s)) as [->|Hn].
    + unfold users_of. rewrite Heq. apply sv_users0.
    + unfold users_of. rewrite Hne by done. apply sv_users0.
  - intros s1. destruct (decide (s1 = s)) as [->|Hn].
    + rewrite Hput. unfold users_of. rewrite Heq. simpl.
      rewrite (sv_n0 s). unfold users_of. rewrite length_app. simpl. lia.
    + unfold users_of, put_of. rewrite Hne by done. apply sv_n0.
  - intros s1. destruct (decide (s1 = s)) as [->|Hn].
    + rewrite Heq. simpl. destruct (sv_times0 s) as [Ha Hl]. split; [|lia].
      apply Forall_app. split; [done|]. repeat constructor; simpl; lia.
    + rewrite Hne by done. apply sv_times0.
Qed.

(** [_trigger_put]: the server goes to the oldest waiting request when it
    is free. *)
Lemma serve_inv_trigger_put s σ :
  (s < length (stations σ))%nat →
  mutex_inv None σ → serve_inv None σ → serve_inv None (trigger_put s σ).
Proof.
  intros Hs MI SI. destruct (trigger_put_cases s σ) as [->|(j & rest & Hput & Hus & ->)]; [done|].
  destruct SI.
  set (σ2 := schedule NORMAL 0 (KWfsReq s j) (upd_station s (grant j rest) σ)).
  assert (queue σ2 = mkEntry (now σ + 0) NORMAL (next_eid σ) (KWfsReq s j) :: queue σ)
    as Hq2 by done.
  assert (now σ2 = now σ) as Hn2 by done.
  assert (∀ s1, s1 ≠ s → station s1 σ2 = station s1 σ) as Hne.
  { intros. unfold σ2. rewrite station_schedule. by apply station_upd_ne. }
  assert (station s σ2 = grant j rest (station s σ)) as Heq.
  { unfold σ2. rewrite station_schedule. by apply station_upd_eq. }
  clearbody σ2.
  assert (∀ e i, e ∈ queue σ → holder (e_cont e) ≠ Some (s, i)) as Hno.
  { intros e i He Hh. destruct (mi_holder _ _ MI e s i He Hh) as [Hu _].
    unfold users_of in Hu. congruence. }
  assert (names s σ = j :: rest) as Hnames.
  { rewrite sv_noreq0; [done| |done]. intros e i He Hk. apply (Hno e i He). by rewrite Hk. }
  split; rewrite ?Hq2, ?Hn2.
  - intros e s1 i1 [->|He]%elem_of_cons; norm.
    + intros [= <- <-]. unfold names, put_of in *. rewrite Heq. simpl. done.
    + intros Hk. destruct (decide (s1 = s)) as [->|Hn].
      * destruct (Hno e i1 He). by rewrite Hk.
      * unfold names, put_of. rewrite Hne by done. by apply (sv_req0 e).
  - done.
  - intros s1 Hq _. destruct (decide (s1 = s)) as [->|Hn].
    + destruct (Hq _ j (list_elem_of_here _ _)). done.
    + unfold names, put_of. rewrite Hne by done. apply sv_noreq0; [|done].
      intros e i He. apply Hq. by apply elem_of_cons; right.
  - intros s1. destruct (decide (s1 = s)) as [->|Hn].
    + right; left. eexists _, j. split; [by apply elem_of_cons; left|done].
    + unfold users_of. rewrite Hne by done.
      destruct (sv_users0 s1) as [?|[(e & i & He & Hh)|(?&?&[=]&_)]]; [by left|].
      right; left. exists e, i. split; [by apply elem_of_cons; right|done].
  - intros s1. destruct (decide (s1 = s)) as [->|Hn].
    + unfold users_of, put_of. rewrite Heq. simpl. rewrite (sv_n0 s).
      unfold users_of, put_of. rewrite Hput, Hus. simpl. lia.
    + unfold users_of, put_of. rewrite Hne by done. apply sv_n0.
  - intros s1. destruct (decide (s1 = s)) as [->|Hn].
    + rewrite Heq. apply sv_times0.
    + rewrite Hne by done. apply sv_times0.
Qed.

(** Lines 191-200 and the release at the end of the [with] block. *)
Lemma serve_inv_complete s i wtt σ :
  (s < length (stations σ))%nat → 0 ≤ now σ →
  mutex_inv (Some (s, i)) σ → serve_inv (Some (KTransmitEnd s i wtt)) σ →
  serve_inv None (upd_station s (release i)
                    (upd_station s (wfs_complete (now σ) wtt) σ)).
Proof.
  intros Hs Hnow MI []. pose proof (mutex_hand_no_holder _ _ _ MI) as Hno.
  pose proof (mi_hand _ _ MI s i eq_refl) as Hu. unfold users_of in Hu.
  set (σ1 := upd_station s (release i) (upd_station s (wfs_complete (now σ) wtt) σ)).
  assert (∀ s1, s1 ≠ s → station s1 σ1 = station s1 σ) as Hne.
  { intros. unfold σ1. by rewrite !station_upd_ne. }
  assert (station s σ1 = release i (wfs_complete (now σ) wtt (station s σ))) as Heq.
  { unfold σ1. rewrite station_upd_eq by (by rewrite length_upd). by rewrite station_upd_eq. }
  assert (arrivals (station s σ1) = arrivals (station s σ)
          ∧ put_of s σ1 = put_of s σ ∧ users_of s σ1 = []
          ∧ n (station s σ1) = n (station s σ) - 1
          ∧ last_event (station s σ1) = now σ) as (Ha & Hp & Hu1 & Hn1 & Hl).
  { unfold put_of, users_of. rewrite Heq. simpl. rewrite wfs_complete_put, wfs_complete_users, Hu.
    simpl. rewrite decide_True by done.
    unfold wfs_complete. by destruct (_ && _). }
  split; norm.
  - intros e s1 i1 He Hk. destruct (decide (s1 = s)) as [->|Hn].
    + destruct (Hno e i1 He). by rewrite Hk.
    + unfold names, put_of. rewrite Hne by done. by apply (sv_req0 e).
  - done.
  - intros s1 Hq _. destruct (decide (s1 = s)) as [->|Hn].
    + unfold names. rewrite Ha, Hp. by apply sv_noreq0.
    + unfold names, put_of. rewrite Hne by done. by apply sv_noreq0.
  - intros s1. destruct (decide (s1 = s)) as [->|Hn]; [by left|].
    unfold users_of. rewrite Hne by done.
    destruct (sv_users0 s1) as [?|[?|(k1 & i1 & [= <-] & [= -> ->])]]; [by left|by right; left|done].
  - intros s1. destruct (decide (s1 = s)) as [->|Hn].
    + rewrite Hn1, Hu1, Hp, (sv_n0 s). unfold users_of. rewrite Hu. simpl. lia.
    + unfold users_of, put_of. rewrite Hne by done. apply sv_n0.
  - intros s1. destruct (decide (s1 = s)) as [->|Hn].
    + rewrite Ha, Hl. change (now σ1) with (now σ). destruct (sv_times0 s). split; [done|lia].
    + rewrite Hne by done. apply sv_times0.
Qed.

Lemma serve_inv_exec k σ σ' :
  queue_inv σ → cont_ok (now σ) k → mutex_inv (holder k) σ →
  serve_inv (Some k) σ → exec k σ = Running σ' → serve_inv None σ'.
Proof.
  intros QI (Hs & Hft & _) MI I Hexec. pose proof (qi_stations _ QI) as Hlen.
  pose proof (qi_now _ QI) as Hnow.
  destruct k; simpl in Hexec; repeat case_match; simplify_eq;
    try (specialize (Hs _ eq_refl)); simpl in MI;
    repeat match goal with
    | H : draw _ = Some _ |- _ => apply draw_inv in H as [? [? ->]]
    end;
    unfold begin_attempt, add_frame_in_transmit, remove_frame_in_transmit in *;
    repeat case_match; simplify_eq.
  - (* KArriveInit *)
    apply serve_inv_schedule_plain; [done|]. apply serve_inv_set_tape.
    eapply serve_inv_drop; [|eassumption]; done.
  - (* KArrive *)
    apply serve_inv_schedule_plain; [done|]. apply serve_inv_set_tape.
    apply serve_inv_schedule_plain; [done|]. eapply serve_inv_drop; [|eassumption]; done.
  - (* KWfsInit *)
    apply serve_inv_trigger_put; [rewrite length_upd; lia| |].
    + apply mutex_inv_upd; [done|lia|done].
    + apply serve_inv_wfs_enter; [lia|lia|done|]. eapply serve_inv_drop; [|eassumption]; done.
  - (* KWfsReq *)
    eapply (serve_inv_schedule_holder (KTransmitInit s i (now σ)) s i); [done|done|done|done|].
    apply serve_inv_popleft; [lia|done|done].
  - (* KTransmitInit *)
    eapply (serve_inv_schedule_holder (KTransmitInit s i wtt) s i); [done|done|done|done|].
    apply serve_inv_set_frames, serve_inv_set_tape. by apply serve_inv_upd.
  - (* KTransmitFrame, collision *)
    eapply (serve_inv_schedule_holder (KTransmitFrame s i wtt ft f tx) s i);
      [done|done|done|done|].
    apply serve_inv_upd; [done|]. by apply serve_inv_set_frames, serve_inv_check_collision.
  - (* KTransmitFrame, success *)
    eapply (serve_inv_schedule_holder (KTransmitFrame s i wtt ft f tx) s i);
      [done|done|done|done|].
    apply serve_inv_upd; [done|]. by apply serve_inv_set_frames, serve_inv_check_collision.
  - (* KWaitInit *)
    eapply (serve_inv_schedule_holder (KWaitInit s i wtt ft) s i); [done|done|done|done|].
    by apply serve_inv_set_tape.
  - (* KWaitTimeout *)
    by eapply (serve_inv_schedule_holder (KWaitTimeout s i wtt ft) s i).
  - (* KWaitEnd *)
    eapply (serve_inv_schedule_holder (KWaitEnd s i wtt ft) s i); [done|done|done|done|].
    by apply serve_inv_set_frames.
  - (* KTransmitEnd *)
    apply serve_inv_schedule_plain; [done|]. apply serve_inv_schedule_plain; [done|].
    apply serve_inv_complete; [lia|lia|done|done].
  - (* KRelease *)
    apply serve_inv_trigger_put; [lia|done|]. eapply serve_inv_drop; [|eassumption]; done.
  - (* KWfsEnd *)
    eapply serve_inv_drop; [|eassumption]; done.
Qed.

Lemma serve_inv_step σ σ' :
  inv σ → serve_inv None σ → step σ = Running σ' → serve_inv None σ'.
Proof.
  intros I SI (m & q & Hpop & Hexec)%step_inv.
  pose proof (inv_queue _ I) as QI.
  pose proof (popped_in_queue _ _ _ Hpop) as Hm.
  eapply serve_inv_exec; [eapply queue_inv_pop; try done| | | |done].
  - intros Hk. rewrite Hk in Hexec. done.
  - norm. eapply cont_ok_mono; [by apply (qi_time _ QI m)|by apply (qi_cont _ QI m)].
  - apply mutex_inv_pop; [done|apply I|done].
  - by apply serve_inv_pop.
Qed.

Lemma serve_inv_init reg h t : serve_inv None (init_replication reg h t).
Proof.
  split.
  - intros e s i He. rewrite init_queue in He. simpl in He. elems He; done.
  - done.
  - intros s _ _. unfold names, put_of. by rewrite init_station.
  - intros s. left. unfold users_of. by rewrite init_station.
  - intros s. unfold users_of, put_of. by rewrite init_station.
  - intros s. rewrite init_station. simpl. split; [constructor|done].
Qed.

(** ** What an event does to the counters *)

Lemma exec_stats k σ σ' :
  cont_ok (now σ) k → length (stations σ) = NUM_STATIONS →
  exec k σ = Running σ' →
  ∃ b, (∀ s, stats_of (station s σ')
             = stats_of (stat_step k (now σ) b s (station s σ)))
       ∧ ∀ s0 i wtt ft f tx, k = KTransmitFrame s0 i wtt ft f tx →
           ∃ o, heap σ' !! f = Some o ∧ retry o = b.
Proof.
  intros (Hs & _ & _) Hlen Hexec.
  destruct k; simpl in Hexec; repeat case_match; simplify_eq;
    try (specialize (Hs _ eq_refl));
    repeat match goal with
    | H : draw _ = Some _ |- _ => apply draw_inv in H as [? [? ->]]
    end;
    unfold begin_attempt, add_frame_in_transmit, remove_frame_in_transmit in *;
    repeat case_match; simplify_eq;
    match goal with
    | H : retry _ = ?b |- _ => exists b
    | _ => exists false
    end;
    (split; [intros s0'|first [by intros ?????? [=]
                    |intros ?????? [=]; subst; norm; eauto]]);
    unfold stat_step;
    repeat first
      [ rewrite station_schedule
      | rewrite station_set_tape
      | rewrite station_set_frames
      | rewrite check_collision_station
      | rewrite trigger_put_stats
      | rewrite station_upd_eq by (simp_state; rewrite ?length_upd; lia)
      | match goal with
        | |- context [station ?s1 (upd_station ?s0 ?f ?σ0)] =>
            destruct (decide (s1 = s0)) as [->|Hne];
            [rewrite station_upd_eq by (simp_state; rewrite ?length_upd; lia)
            |rewrite station_upd_ne by done]
        end ];
    repeat (destruct (decide _); try done).
  all: rewrite ?station_upd_ne by done; done.
Qed.

(** Lines 161-171 in one piece: the frame is checked and removed from the
    dictionary, and [transmit] goes to the back-off or ends. *)
Lemma exec_frame_end s i wtt ft f tx σ σ' :
  exec (KTransmitFrame s i wtt ft f tx) σ = Running σ' →
  ∃ o, heap σ' !! f = Some o
       ∧ queue σ' = mkEntry (now σ + 0) (if retry o then URGENT else NORMAL) (next_eid σ)
                            (if retry o then KWaitInit s i wtt ft else KTransmitEnd s i wtt)
                    :: queue σ
       ∧ frames_in_transmit σ' = delete (s, i) (frames_in_transmit σ)
       ∧ now σ' = now σ.
Proof.
  intros Hexec. simpl in Hexec. unfold remove_frame_in_transmit in Hexec.
  repeat case_match; simplify_eq; norm;
    match goal with H : retry _ = _ |- _ => eexists; split; [done|rewrite H] end;
    simp_state; done.
Qed.

Lemma exec_no_end k σ σ' :
  is_frame k = false → exec k σ = Running σ' →
  news (fun k' => ∀ s i wtt, k' ≠ KTransmitEnd s i wtt) σ σ'.
Proof.
  intros Hk Hexec.
  destruct k; simpl in Hexec; repeat case_match; simplify_eq;
    repeat match goal with
    | H : draw _ = Some _ |- _ => apply draw_inv in H as [? [? ->]]
    end;
    unfold begin_attempt, add_frame_in_transmit, remove_frame_in_transmit in *;
    repeat case_match; simplify_eq.
  all: repeat first
    [ apply news_refl
    | apply news_schedule; [done|]
    | apply news_trigger_put; [done|]
    | eapply news_same; [by simp_state|] ].
Qed.

Lemma stats_fields x y :
  stats_of x = stats_of y →
  nt x = nt y ∧ st x = st y ∧ num_retries x = num_retries y
  ∧ num_initial_transmits x = num_initial_transmits y ∧ busy_time x = busy_time y
  ∧ initial_reset_completed x = initial_reset_completed y.
Proof. unfold stats_of. by intros [= -> -> -> -> -> ->]. Qed.

Lemma time_inv_step σ σ' :
  inv σ → shape_inv σ → time_inv σ → step σ = Running σ' → time_inv σ'.
Proof.
  intros I SH [] Hstep.
  destruct (step_inv _ _ Hstep) as (m & q & Hpop & Hexec).
  pose proof (inv_queue _ I) as QI. pose proof (inv_mutex _ I) as MI.
  pose proof (popped_in_queue _ _ _ Hpop) as Hm.
  pose proof (popped_not_in_rest _ _ _ QI Hpop) as Hnot.
  assert (Hsub : ∀ e, e ∈ q → e ∈ queue σ) by (intros; by eapply rest_in_queue).
  assert (cont_ok (now (set_now_queue (e_time m) q σ)) (e_cont m)) as Hok.
  { norm. eapply cont_ok_mono; [by apply (qi_time _ QI m)|by apply (qi_cont _ QI m)]. }
  pose proof (sh_entry _ SH m Hm) as Hem. unfold entry_ok in Hem.
  destruct (exec_stats _ _ _ Hok (qi_stations _ QI) Hexec) as (b & Hst & Hfl).
  change (∀ s, stats_of (station s σ')
               = stats_of (stat_step (e_cont m) (e_time m) b s (station s σ))) in Hst.
  (* no other event of a message that holds the server of the station of [m] *)
  assert (∀ e s i i', e ∈ q → holder (e_cont m) = Some (s, i) →
                      holder (e_cont e) ≠ Some (s, i')) as Hother.
  { intros e s i i' He Hh Hh'. apply Hnot.
    by rewrite <- (mi_unique _ _ MI e m s i' i (Hsub e He) Hm Hh' Hh). }
  assert (∀ s i wtt, (∀ i1 wtt1, e_cont m ≠ KTransmitEnd s i1 wtt1) →
            (∀ e, e ∈ q → e_cont e ≠ KTransmitEnd s i wtt) →
            ∀ e, e ∈ queue σ → e_cont e ≠ KTransmitEnd s i wtt) as Hall.
  { intros s i wtt Hm' Hq' e [->|He]%(entry_in_queue_pop _ _ _ _ Hpop); auto. }
  destruct (e_cont m) as [| | | | |s0 i0 wtt0 ft0 f0 tx0| | | |s0 i0 wtt0| | |] eqn:Hk.
  6: { (* KTransmitFrame *)
    destruct Hem as [Hte Hwt].
    destruct (exec_frame_end _ _ _ _ _ _ _ _ Hexec) as (o & Ho & Hq & _ & _).
    destruct (Hfl _ _ _ _ _ _ eq_refl) as (o' & Ho' & <-).
    assert (o' = o) as -> by congruence. clear Ho' Hfl.
    assert (∀ e i wtt, e ∈ queue σ → e_cont e ≠ KTransmitEnd s0 i wtt) as Hnone.
    { intros e i wtt. apply Hall; [done|]. intros e' He' Hc.
      eapply (Hother e' s0 i0 i He'); [done|by rewrite Hc]. }
    pose proof (tm_idle0 s0 Hnone) as Hidle.
    norm. split.
    - intros s. destruct (stats_fields _ _ (Hst s)) as (? & -> & -> & _). simpl.
      destruct (tm_nonneg0 s).
      destruct (decide _); [destruct (retry o)|]; simpl.
      all: lia.
    - intros s. destruct (stats_fields _ _ (Hst s)) as (-> & -> & _). simpl.
      destruct (decide _); [destruct (retry o)|]; simpl; apply tm_nt0.
    - intros e s i wtt. rewrite Hq.
      destruct (stats_fields _ _ (Hst s)) as (_ & -> & _ & _ & -> & _). simpl.
      intros [->|He]%elem_of_cons; norm.
      + destruct (retry o) eqn:Hr; [done|]. intros [= <- <- <-].
        rewrite decide_True by done. simpl. lia.
      + intros Hc. destruct (decide (s = s0)) as [->|Hne].
        * destruct (Hother e s0 i0 i He); [done|by rewrite Hc].
        * apply (tm_end0 e s i wtt); [by apply Hsub|done].
    - intros s Hno. destruct (stats_fields _ _ (Hst s)) as (_ & -> & _ & _ & -> & _). simpl.
      destruct (decide (s = s0)) as [->|Hne].
      + destruct (retry o) eqn:Hr; simpl; [done|].
        destruct (Hno (mkEntry (e_time m + 0) NORMAL (next_eid σ) (KTransmitEnd s0 i0 wtt0))
                    i0 wtt0); [|done]. rewrite Hq. apply elem_of_cons; by left.
      + apply tm_idle0. intros e i wtt. apply Hall; [done|].
        intros e' He'. apply Hno. rewrite Hq. by apply elem_of_cons; right. }
  9: { (* KTransmitEnd *)
    pose proof Hexec as Hnews. apply exec_no_end in Hnews; [|done].
    pose proof (tm_end0 m s0 i0 wtt0 Hm Hk) as Hend.
    assert (∀ e i wtt, e ∈ queue σ' → e_cont e ≠ KTransmitEnd s0 i wtt) as Hnone.
    { intros e i wtt He Hc. destruct (Hnews e He) as [Hin|Hn]; [|by eapply Hn].
      norm. eapply (Hother e s0 i0 i Hin); [done|by rewrite Hc]. }
    split.
    - intros s. destruct (stats_fields _ _ (Hst s)) as (? & -> & -> & _). simpl.
      destruct (tm_nonneg0 s). destruct (decide _); [|lia].
      unfold wfs_complete. destruct (_ && _); simpl; lia.
    - intros s. destruct (stats_fields _ _ (Hst s)) as (-> & -> & _). simpl.
      pose proof (tm_nt0 s). destruct (decide _) as [->|]; [|done].
      unfold wfs_complete. destruct (_ && _); simpl; lia.
    - intros e s i wtt He Hc. destruct (decide (s = s0)) as [->|Hne].
      + by destruct (Hnone e i wtt He).
      + destruct (stats_fields _ _ (Hst s)) as (_ & -> & _ & _ & -> & _). simpl.
        rewrite decide_False by done.
        destruct (Hnews e He) as [Hin|Hn]; [|by destruct (Hn s i wtt)].
        apply (tm_end0 e s i wtt); [by apply Hsub|done].
    - intros s Hno. destruct (stats_fields _ _ (Hst s)) as (_ & -> & _ & _ & -> & _). simpl.
      destruct (decide (s = s0)) as [->|Hne].
      + unfold wfs_complete. destruct (_ && _); simpl; lia.
      + apply tm_idle0. intros e i wtt. apply Hall; [by intros ?? [= -> _ _]|].
        intros e' He'. apply Hno. destruct (exec_queue _ _ _ Hexec) as (Hmono & _).
        by apply Hmono. }
  all: pose proof Hexec as Hnews; (apply exec_no_end in Hnews; [|done]);
    destruct (exec_queue _ _ _ Hexec) as (Hmono & _);
    (split;
     [ intros sx; destruct (stats_fields _ _ (Hst sx)) as (? & -> & -> & _); simpl;
       destruct (tm_nonneg0 sx); repeat (destruct (decide _)); simpl; lia
     | intros sx; destruct (stats_fields _ _ (Hst sx)) as (-> & -> & _); simpl;
       pose proof (tm_nt0 sx); repeat (destruct (decide _)); simpl; lia
     | intros ex sx ix wx He Hc;
       destruct (stats_fields _ _ (Hst sx)) as (_ & -> & _ & _ & -> & _);
       destruct (Hnews ex He) as [Hin|Hn]; [|by destruct (Hn sx ix wx)];
       pose proof (tm_end0 ex sx ix wx (Hsub ex Hin) Hc);
       simpl; repeat (destruct (decide _)); simpl; lia
     | intros sx Hno;
       destruct (stats_fields _ _ (Hst sx)) as (_ & -> & _ & _ & -> & _);
       assert (busy_time (station sx σ) ≤ st (station sx σ));
       [ apply tm_idle0; intros ex ix wx; apply Hall; [done|];
         intros e' He'; apply Hno; by apply Hmono
       | simpl; repeat (destruct (decide _)); simpl; lia ] ]).
Qed.

(** ** The dictionary of the frames in transmit *)

Lemma exec_registry_attempt k s i wtt σ σ' :
  attempt_of k = Some (s, i, wtt) → exec k σ = Running σ' →
  ∃ ft, frames_in_transmit σ' = <[(s, i) := length (heap σ)]> (frames_in_transmit σ)
        ∧ queue σ' = mkEntry (now σ + ft) NORMAL (next_eid σ)
                             (KTransmitFrame s i wtt ft (length (heap σ)) (now σ))
                     :: queue σ.
Proof.
  intros Hk Hexec. destruct k; simplify_eq/=; repeat case_match; simplify_eq;
    unfold begin_attempt, add_frame_in_transmit; norm; eauto.
Qed.

Lemma exec_registry_other k σ σ' :
  attempt_of k = None → is_frame k = false → exec k σ = Running σ' →
  frames_in_transmit σ' = frames_in_transmit σ.
Proof.
  intros Ha Hf Hexec.
  destruct k; simplify_eq/=; repeat case_match; simplify_eq;
    repeat match goal with
    | H : draw _ = Some _ |- _ => apply draw_inv in H as [? [? ->]]
    end;
    rewrite ?(trigger_put_frames); done.
Qed.

Lemma reg_live_step reg0 σ σ' :
  inv σ → reg_live reg0 σ → step σ = Running σ' → reg_live reg0 σ'.
Proof.
  intros I RL Hstep.
  destruct (step_inv _ _ Hstep) as (m & q & Hpop & Hexec).
  pose proof (inv_queue _ I) as QI. pose proof (inv_mutex _ I) as MI.
  pose proof (popped_in_queue _ _ _ Hpop) as Hm.
  destruct (exec_step_queue _ _ _ _ Hpop Hstep) as (Hkeep & _).
  (* a frame on the air other than the one whose end is run stays on the air *)
  assert (∀ s i f, (∀ wtt ft tx, e_cont m ≠ KTransmitFrame s i wtt ft f tx) →
            frames_in_transmit σ !! (s, i) = Some f →
            (∃ e, in_transmit σ' e s i f) ∨ reg0 !! (s, i) = Some f) as Hold.
  { intros s i f Hne [(e & He & wtt & ft & tx & Hk)|?]%RL; [left|by right].
    exists e. split; [|eauto]. apply Hkeep.
    destruct (entry_in_queue_pop _ _ _ _ Hpop He) as [->|?]; [|done].
    by destruct (Hne wtt ft tx). }
  intros s i f Hf.
  destruct (attempt_of (e_cont m)) as [[[s0 i0] wtt0]|] eqn:Ha.
  - destruct (exec_registry_attempt _ _ _ _ _ _ Ha Hexec) as (ft & Hreg & Hq). norm.
    rewrite Hreg in Hf. destruct (decide ((s, i) = (s0, i0))) as [[= -> ->]|Hne].
    + rewrite lookup_insert_eq in Hf. injection Hf as <-. left.
      eexists. split; [rewrite Hq; by apply elem_of_cons; left|]. eauto.
    + rewrite lookup_insert_ne in Hf by done. apply Hold; [|done].
      intros wtt ft' tx Hk. by rewrite Hk in Ha.
  - destruct (is_frame (e_cont m)) eqn:Hfr.
    + destruct (e_cont m) as [| | | | |s0 i0 wtt0 ft0 f0 tx0| | | | | | |] eqn:Hk; try done.
      destruct (exec_frame_end _ _ _ _ _ _ _ _ Hexec) as (o & _ & _ & Hreg & _). norm.
      rewrite Hreg in Hf. apply lookup_delete_Some in Hf as [Hne Hf].
      apply Hold; [|done]. intros wtt ft tx [= -> -> _ _ _ _]. done.
    + rewrite (exec_registry_other _ _ _ Ha Hfr Hexec) in Hf. norm.
      apply Hold; [|done]. intros wtt ft tx Hk. by rewrite Hk in Hfr.
Qed.

(** ** The process [arrive] *)

Lemma exec_arrive k s j σ σ' :
  arrive_of k = Some (s, j) → exec k σ = Running σ' →
  ∃ e, e ∈ queue σ'
       ∧ e_cont e = KArrive s (match k with KArriveInit _ => 0 | _ => S j end).
Proof.
  intros Hk Hexec. destruct k; simplify_eq/=; repeat case_match; simplify_eq;
    repeat match goal with
    | H : draw _ = Some _ |- _ => apply draw_inv in H as [? [? ->]]
    end;
    eexists; (split; [by apply elem_of_cons; left|done]).
Qed.

Lemma arrive_pending_step σ σ' :
  arrive_pending σ → step σ = Running σ' → arrive_pending σ'.
Proof.
  intros AP Hstep s Hs.
  destruct (step_inv _ _ Hstep) as (m & q & Hpop & Hexec).
  destruct (exec_step_queue _ _ _ _ Hpop Hstep) as (Hkeep & _).
  destruct (AP s Hs) as (e & j & He & Ha).
  destruct (entry_in_queue_pop _ _ _ _ Hpop He) as [->|Hin]; [|by eauto].
  destruct (exec_arrive _ _ _ _ _ Ha Hexec) as (e' & He' & Hk').
  exists e'. eexists. split; [done|]. by rewrite Hk'.
Qed.

Lemma arrive_pending_init reg h t : arrive_pending (init_replication reg h t).
Proof.
  intros s Hs. rewrite init_queue. exists (mkEntry 0 URGENT s (KArriveInit s)), 0%nat.
  split; [|done]. apply elem_of_cons; right. unfold NUM_STATIONS in Hs.
  do 8 (destruct s as [|s]; [simpl; repeat (apply elem_of_cons; (by left) || right)|]).
  lia.
Qed.

(** ** The invariants together *)

Lemma run_inv_step σ σ' : run_inv σ → step σ = Running σ' → run_inv σ'.
Proof.
  intros [] Hstep. split.
  - by eapply inv_step.
  - eapply msg_inv_step; [apply ri_inv0|done..].
  - by eapply shape_inv_step.
  - by eapply serve_inv_step.
  - by eapply time_inv_step.
  - by eapply arrive_pending_step.
Qed.

Lemma run_inv_reaches σ σ' : run_inv σ → reaches σ σ' → run_inv σ'.
Proof. intros I H. induction H; [done|]. eauto using run_inv_step. Qed.

Lemma run_inv_init reg h t :
  reg_wf reg h → reg_inj reg → Forall frame_ok h → run_inv (init_replication reg h t).
Proof.
  intros Hwf Hinj Hh. split.
  - by apply inv_init.
  - apply msg_inv_init.
  - split; [|done]. intros e He. rewrite init_queue in He. simpl in He. elems He; done.
  - apply serve_inv_init.
  - split.
    + intros s. by rewrite init_station.
    + intros s. by rewrite init_station.
    + intros e s i wtt He. rewrite init_queue in He. simpl in He. elems He; done.
    + intros s _. by rewrite init_station.
  - apply arrive_pending_init.
Qed.

Lemma run_inv_starts t0 σ0 : starts t0 σ0 → run_inv σ0.
Proof.
  induction 1 as [|σ0 σ σ' _ IH Hr Hs].
  - apply run_inv_init; [apply map_Forall_empty| |constructor].
    intros ??? H. by rewrite lookup_empty in H.
  - pose proof (run_inv_reaches _ _ IH Hr) as I.
    apply step_stopped in Hs as (m & q & _ & _ & ->). norm.
    apply run_inv_init; [apply (inv_frame _ (ri_inv _ I))..|apply (ri_shape _ I)].
Qed.

Lemma run_inv_visited t0 σ : visited t0 σ → run_inv σ.
Proof. intros (σ0 & H0 & Hr). eapply run_inv_reaches; [|done]. by eapply run_inv_starts. Qed.

Lemma reg_live_reaches reg0 σ σ' :
  inv σ → reg_live reg0 σ → reaches σ σ' → reg_live reg0 σ'.
Proof.
  intros I RL H. induction H as [|σ1 σ2 σ3 Hs _ IH]; [done|].
  apply IH; [by eapply inv_step|by eapply reg_live_step].
Qed.

(** ** Further properties of the run *)

(** X1.  [generate_frame_time] (lines 99-107) skips the variates that are 0
    and returns the first positive one; the variates after it are left for
    the next calls of [rvs].  It returns nothing as long as the random source
    gives zeros only. *)
Theorem generate_frame_time_first_positive t :
  match generate_frame_time t with
  | Some (ft, t') =>
      ∃ k r, t = replicate k 0%N ++ r :: t' ∧ (0 < r)%N ∧ ft = Z.of_N r
  | None => t = replicate (length t) 0%N
  end.
Proof.
  induction t as [|r t IH]; simpl; [done|].
  destruct (0 <? r)%N eqn:Hr.
  - exists 0%nat, r. apply N.ltb_lt in Hr. done.
  - apply N.ltb_ge in Hr. assert (r = 0%N) as -> by lia.
    destruct (generate_frame_time t) as [[ft t']|].
    + destruct IH as (k & r & -> & Hpos & ->). by exists (S k), r.
    + by rewrite <- IH.
Qed.

(** X2.  Every frame object that exists in a run, whether it is in the
    dictionary or not, has [end = start + frame_time] with a positive
    [frame_time], and was begun at a time of a run (from 0 and before
    [TERMINATE_TIME]): its interval [start, end) is not empty. *)
Theorem frames_have_positive_length t0 σ f o :
  visited t0 σ → heap σ !! f = Some o →
  end_ o = start o + frame_time o ∧ 0 < frame_time o
  ∧ 0 ≤ start o < TERMINATE_TIME ∧ start o < end_ o.
Proof.
  intros Hv Ho. pose proof (ri_shape _ (run_inv_visited _ _ Hv)) as SH.
  pose proof (proj1 (Forall_lookup _ _) (sh_heap _ SH) f o Ho) as (? & ? & ?).
  repeat split; lia.
Qed.

Lemma pop_min_nonempty e q : ∃ m r, pop_min (e :: q) = Some (m, r).
Proof.
  simpl. destruct (pop_min q) as [[m r]|]; [|eauto]. destruct (entry_lt e m); eauto.
Qed.

Lemma failed_draws_all_zero t : generate_frame_time t = None → Forall (fun r => r = 0%N) t.
Proof.
  induction t as [|r t IH]; simpl; [constructor|].
  destruct (0 <? r)%N eqn:Hr; [done|]. apply N.ltb_ge in Hr.
  intros H. constructor; [lia|auto].
Qed.

Lemma exec_fault k σ f :
  exec k σ = Fault f →
  (f = NoMoreVariates ∧ Forall (fun r => r = 0%N) (tape σ))
  ∨ (f = IndexError ∧ ∃ s i, k = KWfsReq s i ∧ arrivals (station s σ) = [])
  ∨ (f = KeyError ∧ ∃ s i wtt ft r tx, k = KTransmitFrame s i wtt ft r tx
       ∧ (heap σ !! r = None ∨ frames_in_transmit σ !! (s, i) = None)).
Proof.
  intros Hexec.
  destruct k; simpl in Hexec; unfold draw, remove_frame_in_transmit in *; simpl in *;
    repeat case_match; simplify_eq.
  all: try (left; split; [done|]; first [by constructor | by apply failed_draws_all_zero]).
  all: try (right; left; split; [done|]; by eauto).
  all: right; right; split; [done|]; eexists _, _, _, _, _, _; split; [done|].
  - match goal with H : heap σ !! _ = Some ?fr |- _ =>
      destruct (check_collision_heap fr (s, i) σ _ _ H) as (o' & Ho' & _) end.
    norm. congruence.
  - right. by rewrite check_collision_frames in *.
  - by left.
Qed.

(** X3.  In a run no [pop] of line 122 raises [KeyError], no [popleft] of
    line 185 raises [IndexError], and the queue of the environment is never
    empty: a step that does not go through is a call of [rvs] for which
    the variates given do not suffice (none is left, or zeros only for a
    frame time). *)
Theorem run_stops_for_want_of_variates_only t0 σ f :
  visited t0 σ → step σ = Fault f →
  f = NoMoreVariates ∧ Forall (fun r => r = 0%N) (tape σ).
Proof.
  intros Hv Hstep. pose proof (run_inv_visited _ _ Hv) as RI.
  pose proof (ri_inv _ RI) as I. pose proof (inv_queue _ I) as QI.
  unfold step in Hstep.
  destruct (pop_min (queue σ)) as [[m q]|] eqn:Hpop.
  - pose proof (popped_in_queue _ _ _ Hpop) as Hm.
    destruct (exec_fault _ _ _ Hstep)
      as [?|[(_ & s & i & Hk & Ha)|(_ & s & i & wtt & ft & r & tx & Hk & Hno)]]; [done|..].
    + pose proof (sv_req _ _ (ri_serve _ RI) m s i Hm Hk) as Hn.
      unfold names in Hn. change (station s (set_now_queue (e_time m) q σ))
        with (station s σ) in Ha. by rewrite Ha in Hn.
    + destruct (live_frame_lookup _ _ _ _ _ _ _ _ (inv_frame _ I) Hm Hk)
        as (Hreg & o & Ho & _).
      norm. destruct Hno; congruence.
  - pose proof (qi_until _ QI) as Hu. destruct (queue σ) as [|e q]; [by apply elem_of_nil in Hu|].
    destruct (pop_min_nonempty e q) as (m & r & Hp). congruence.
Qed.

Lemma users_at_most_one σ s :
  inv σ → serve_inv None σ →
  users_of s σ = []
  ∨ ∃ e i, e ∈ queue σ ∧ holder (e_cont e) = Some (s, i) ∧ users_of s σ = [i].
Proof.
  intros I SI. destruct (sv_users _ _ SI s) as [?|[(e & i & He & Hh)|(? & ? & [=] & _)]];
    [by left|right].
  exists e, i. split; [done|]. split; [done|].
  by destruct (mi_holder _ _ (inv_mutex _ I) e s i He Hh).
Qed.

Lemma arrivals_of_waiting σ s :
  inv σ → serve_inv None σ →
  names s σ = put_of s σ
  ∨ ∃ e i, e ∈ queue σ ∧ e_cont e = KWfsReq s i ∧ users_of s σ = [i]
           ∧ names s σ = i :: put_of s σ.
Proof.
  intros I SI. pose proof (inv_mutex _ I) as MI.
  destruct (users_at_most_one σ s I SI) as [Hu|(e & i & He & Hh & Hu)].
  - left. apply (sv_noreq _ _ SI); [|done]. intros e i He Hk.
    destruct (mi_holder _ _ MI e s i He) as [Hu' _]; [by rewrite Hk|]. congruence.
  - destruct (e_cont e) eqn:Hk; simplify_eq/=;
      try (left; apply (sv_noreq _ _ SI); [|done]; intros e' i' He' Hk';
           assert (e' = e) as -> by
             (eapply (mi_unique _ _ MI e' e s i' i); [done|done|by rewrite Hk'|by rewrite Hk]);
           congruence).
    right. exists e, i. split; [done|]. split; [done|]. split; [done|].
    by apply (sv_req _ _ SI e).
Qed.

(** X4.  The counter [n] of a station is the number of its messages that
    hold the server or wait for it; at most one message holds the server
    (capacity 1); the deque [arrivals] holds, in their order, the arrivals
    of the messages that wait for the server, and before them the arrival
    of the message that was granted the server and has not gone on yet, if
    there is one; and [last_event] is a time of the run, not after the
    present. *)
Theorem station_counts_its_messages t0 σ s :
  visited t0 σ →
  n (station s σ)
    = Z.of_nat (length (users (server (station s σ)))
                + length (put_queue (server (station s σ))))
  ∧ (length (users (server (station s σ))) ≤ 1)%nat
  ∧ (a_name <$> arrivals (station s σ) = put_queue (server (station s σ))
     ∨ ∃ e i, e ∈ queue σ ∧ e_cont e = KWfsReq s i
              ∧ users (server (station s σ)) = [i]
              ∧ a_name <$> arrivals (station s σ)
                = i :: put_queue (server (station s σ)))
  ∧ (length (put_queue (server (station s σ))) ≤ length (arrivals (station s σ))
     ≤ length (users (server (station s σ)))
       + length (put_queue (server (station s σ))))%nat
  ∧ 0 ≤ last_event (station s σ) ≤ now σ.
Proof.
  intros Hv. pose proof (run_inv_visited _ _ Hv) as RI.
  pose proof (ri_inv _ RI) as I. pose proof (ri_serve _ RI) as SI.
  split; [apply (sv_n _ _ SI)|].
  split; [|split; [|split; [|apply (sv_times _ _ SI)]]].
  - destruct (users_at_most_one σ s I SI) as [Hu|(_ & i & _ & _ & Hu)];
      unfold users_of in Hu; rewrite Hu; simpl; lia.
  - destruct (arrivals_of_waiting σ s I SI) as [Hn|(e & i & He & Hk & Hu & Hn)].
    + by left.
    + right. exists e, i. done.
  - assert (length (names s σ) = length (arrivals (station s σ))) as <-.
    { unfold names. by rewrite length_fmap. }
    destruct (arrivals_of_waiting σ s I SI) as [->|(_ & i & _ & _ & Hu & ->)].
    + unfold put_of. lia.
    + unfold users_of in Hu. rewrite Hu. unfold put_of. simpl. lia.
Qed.

(** X5.  The server is granted in the order of the deque: when
    [wait_for_service] of message [i] goes on at line 185, the arrival that
    [popleft] returns is the one of message [i], made at a time that is not
    after the present (so [wait] of line 186 is not negative), and the
    arrivals that stay in the deque are those of the requests that wait for
    the server, in the same order. *)
Theorem popleft_returns_own_arrival t0 σ e s i :
  visited t0 σ → next_event σ e → e_cont e = KWfsReq s i →
  ∃ a rest, arrivals (station s σ) = a :: rest
            ∧ a_name a = i ∧ 0 ≤ a_time a ≤ e_time e
            ∧ a_name <$> rest = put_queue (server (station s σ)).
Proof.
  intros Hv [q Hpop] Hk. pose proof (run_inv_visited _ _ Hv) as RI.
  pose proof (ri_serve _ RI) as SI. pose proof (popped_in_queue _ _ _ Hpop) as Hm.
  pose proof (sv_req _ _ SI e s i Hm Hk) as Hn. unfold names, put_of in Hn.
  destruct (sv_times _ _ SI s) as [Ht _].
  destruct (arrivals (station s σ)) as [|a rest]; [done|].
  injection Hn as Ha Hr. exists a, rest. apply Forall_cons in Ht as [Hta _].
  pose proof (qi_time _ (inv_queue _ (ri_inv _ RI)) e Hm).
  repeat split; try done; lia.
Qed.

(** X6.  A station has at most one frame on the air: two events that end a
    frame of the same station are one event, for one message and one frame
    object; and the message is the one that holds the server. *)
Theorem one_frame_per_station t0 σ s e1 i1 f1 e2 i2 f2 :
  visited t0 σ → in_transmit σ e1 s i1 f1 → in_transmit σ e2 s i2 f2 →
  e1 = e2 ∧ i1 = i2 ∧ f1 = f2 ∧ users (server (station s σ)) = [i1].
Proof.
  intros Hv (He1 & w1 & d1 & t1 & Hk1) (He2 & w2 & d2 & t2 & Hk2).
  pose proof (inv_mutex _ (inv_visited _ _ Hv)) as MI.
  assert (e1 = e2) as ->.
  { eapply (mi_unique _ _ MI e1 e2 s i1 i2); [done|done|by rewrite Hk1|by rewrite Hk2]. }
  rewrite Hk1 in Hk2. injection Hk2 as <- _ _ <- _. repeat split.
  destruct (mi_holder _ _ MI e2 s i1 He2) as [Hu _]; [by rewrite Hk1|done].
Qed.

Lemma exec_now k σ σ' : cont_ok (now σ) k → exec k σ = Running σ' → now σ' = now σ.
Proof. intros Hok Hexec. by destruct (exec_action _ _ _ 0%nat Hok Hexec). Qed.

Lemma step_now σ σ' e :
  queue_inv σ → next_event σ e → step σ = Running σ' → now σ' = e_time e.
Proof.
  intros QI [q Hpop] Hstep. destruct (step_inv _ _ Hstep) as (m & q' & Hpop' & Hexec).
  assert (m = e) as -> by congruence.
  pose proof (popped_in_queue _ _ _ Hpop) as Hm.
  apply exec_now in Hexec; [done|]. norm.
  eapply cont_ok_mono; [by apply (qi_time _ QI e)|by apply (qi_cont _ QI e)].
Qed.

(** X7.  The clock of a replication: the time is at least 0 and before
    [TERMINATE_TIME] as long as the replication runs, no event in the queue
    is in the past, a step sets the clock to the time of the event it runs
    and so never turns it back, and the replication stops with the clock at
    [TERMINATE_TIME]. *)
Theorem clock_runs_forward t0 σ :
  visited t0 σ →
  0 ≤ now σ < TERMINATE_TIME
  ∧ (∀ e, e ∈ queue σ → now σ ≤ e_time e)
  ∧ (∀ e σ', next_event σ e → step σ = Running σ' →
       now σ' = e_time e ∧ now σ ≤ now σ')
  ∧ (∀ σ', step σ = Stopped σ' → now σ' = TERMINATE_TIME).
Proof.
  intros Hv. pose proof (inv_queue _ (inv_visited _ _ Hv)) as QI.
  split; [apply (qi_now _ QI)|]. split; [apply (qi_time _ QI)|]. split.
  - intros e σ' Hnext Hstep. rewrite (step_now _ _ _ QI Hnext Hstep).
    split; [done|]. destruct Hnext as [q Hpop].
    apply (qi_time _ QI). by eapply popped_in_queue.
  - intros σ' Hstop.
    assert (at_end t0 σ') as (σ1 & q & _ & _ & ->)%at_end_inv by (by exists σ).
    done.
Qed.

(** X8.  The end of an attempt (lines 161-171) always goes through.  It is
    run [frame_time] after the attempt began, and it takes the frame out of
    the dictionary.  If the frame is flagged the station counts one retry
    and its [busy_time] stays; if not, [busy_time] grows by the duration of
    the frame and the count of retries stays. *)
Theorem attempt_end_accounts t0 σ e s i wtt ft f tx :
  visited t0 σ → next_event σ e → e_cont e = KTransmitFrame s i wtt ft f tx →
  ∃ σ' o, step σ = Running σ'
    ∧ e_time e = tx + ft ∧ now σ' = tx + ft
    ∧ frames_in_transmit σ' !! (s, i) = None
    ∧ heap σ' !! f = Some o
    ∧ start o = tx ∧ end_ o = tx + ft ∧ frame_time o = ft
    ∧ (if retry o
       then num_retries (station s σ') = num_retries (station s σ) + 1
            ∧ busy_time (station s σ') = busy_time (station s σ)
       else num_retries (station s σ') = num_retries (station s σ)
            ∧ busy_time (station s σ') = busy_time (station s σ) + ft).
Proof.
  intros Hv [q Hpop] Hk. pose proof (run_inv_visited _ _ Hv) as RI.
  pose proof (ri_inv _ RI) as I. pose proof (inv_queue _ I) as QI.
  pose proof (popped_in_queue _ _ _ Hpop) as Hm.
  pose proof (sh_entry _ (ri_shape _ RI) e Hm) as Hen. unfold entry_ok in Hen.
  rewrite Hk in Hen. destruct Hen as [Hte _].
  destruct (live_frame_lookup _ _ _ _ _ _ _ _ (inv_frame _ I) Hm Hk)
    as (Hreg & o0 & Ho0 & Hst0 & Hend0 & _).
  pose proof (proj1 (Forall_lookup _ _) (sh_heap _ (ri_shape _ RI)) f o0 Ho0)
    as (Hfe & _).
  destruct (step σ) as [σ'|σ'|fl] eqn:Hstep.
  - destruct (step_inv _ _ Hstep) as (m & q' & Hpop' & Hexec).
    assert (m = e ∧ q' = q) as [-> ->] by (split; congruence). rewrite Hk in Hexec.
    assert (cont_ok (now (set_now_queue (e_time e) q σ)) (KTransmitFrame s i wtt ft f tx))
      as Hok.
    { norm. rewrite <- Hk.
      eapply cont_ok_mono; [by apply (qi_time _ QI e)|by apply (qi_cont _ QI e)]. }
    destruct (exec_frame_end _ _ _ _ _ _ _ _ Hexec) as (o & Ho & _ & Hreg' & Hnow).
    destruct (exec_stats _ _ _ Hok (qi_stations _ QI) Hexec) as (b & Hst & Hfl).
    destruct (Hfl _ _ _ _ _ _ eq_refl) as (o' & Ho' & <-).
    assert (o' = o) as -> by congruence.
    destruct (step_heap _ _ _ _ Hstep Ho0) as (o2 & Ho2 & Hs2 & He2 & _).
    assert (o2 = o) as -> by congruence.
    assert (frame_time o = ft) as Hft.
    { pose proof (run_inv_step _ _ RI Hstep) as RI'.
      pose proof (proj1 (Forall_lookup _ _) (sh_heap _ (ri_shape _ RI')) f o Ho)
        as (Hfe' & _). lia. }
    exists σ', o. norm. rewrite Hnow, Hreg', lookup_delete_eq.
    repeat (split; [done || lia|]).
    destruct (stats_fields _ _ (Hst s)) as (_ & _ & -> & _ & -> & _).
    change (station s (set_now_queue (e_time e) q σ)) with (station s σ).
    simpl. rewrite decide_True by done. destruct (retry o); simpl; split; lia.
  - apply step_stopped in Hstep as (m & q' & Hpop' & Hku & _).
    assert (m = e) as -> by congruence. congruence.
  - unfold step in Hstep. rewrite Hpop, Hk in Hstep.
    destruct (exec_fault _ _ _ Hstep)
      as [[Hf _]|[(_ & ? & ? & [=] & _)|(_ & s1 & i1 & ? & ? & r & ? & [= <- <- _ _ <- _] & Hno)]].
    + simpl in Hstep. unfold remove_frame_in_transmit in Hstep.
      repeat case_match; simplify_eq.
    + norm. destruct Hno; congruence.
Qed.

(** X11.  Within a replication no key is left behind in the dictionary: a
    key that is in the dictionary is bound to the frame of an attempt that
    is on the air, or it is a binding that was in the dictionary already
    when the replication began.  In the first replication, which begins with
    the empty dictionary, the dictionary holds the frames on the air and
    nothing else. *)
Theorem registered_frames_are_on_air t0 σ0 σ s i f :
  starts t0 σ0 → reaches σ0 σ → frames_in_transmit σ !! (s, i) = Some f →
  (∃ e, in_transmit σ e s i f)
  ∨ (frames_in_transmit σ0 !! (s, i) = Some f
     ∧ σ0 ≠ init_replication ∅ [] t0).
Proof.
  intros H0 Hr Hf.
  assert (reg_live (frames_in_transmit σ0) σ) as RL.
  { eapply reg_live_reaches; [by eapply inv_starts| |done]. intros ???. by right. }
  destruct (RL s i f Hf) as [?|Hold]; [by left|right]. split; [done|].
  intros ->. change (frames_in_transmit (init_replication ∅ [] t0)) with (∅ : gmap frame_id ref) in Hold.
  by rewrite lookup_empty in Hold.
Qed.

(** X13.  The process [arrive] of a station never ends: at every point of a
    replication one event of it, and only one, is in the queue; the number
    [j] it will give to the next message is larger than the number of every
    message of the station that waits for the server or is being
    transmitted. *)
Theorem arrive_numbers_are_fresh t0 σ s :
  visited t0 σ → (s < NUM_STATIONS)%nat →
  ∃ a j, a ∈ queue σ ∧ arrive_of (e_cont a) = Some (s, j)
         ∧ (∀ a' j', a' ∈ queue σ → arrive_of (e_cont a') = Some (s, j') → a' = a)
         ∧ (∀ e i, e ∈ queue σ → msg_of (e_cont e) = Some (s, i) → (i < j)%nat)
         ∧ (∀ i, i ∈ put_queue (server (station s σ)) → (i < j)%nat).
Proof.
  intros Hv Hs. pose proof (run_inv_visited _ _ Hv) as RI.
  pose proof (ri_msg _ RI) as MI.
  destruct (ri_arrive _ RI s Hs) as (a & j & Ha & Hk). exists a, j.
  split; [done|]. split; [done|]. split.
  - intros a' j' Ha' Hk'. by eapply (mg_arrive_unique _ _ MI a' a s j' j).
  - destruct (mg_fresh _ _ MI a s j Ha Hk) as (H1 & H2 & _). split; [done|apply H2].
Qed.

(** ** The reports *)

Lemma at_end_run_inv t0 σ' :
  at_end t0 σ' →
  ∃ σ q, run_inv σ ∧ pop_min (queue σ) = Some (until_entry, q)
         ∧ σ' = set_now_queue TERMINATE_TIME q σ.
Proof.
  intros Hend. pose proof Hend as (σ & Hv & Hs).
  pose proof (run_inv_visited _ _ Hv) as RI.
  apply step_stopped in Hs as (m & q & Hpop & Hk & ->).
  exists σ, q. split; [done|].
  assert (m = until_entry) as ->; [|done].
  apply (qi_until_only _ (inv_queue _ (ri_inv _ RI))); [|done].
  by eapply popped_in_queue.
Qed.

(** The counters of a station when the replication has stopped. *)
Lemma at_end_counters t0 σ s :
  at_end t0 σ →
  0 ≤ nt (station s σ) ≤ st (station s σ)
  ∧ nt (station s σ) ≤ num_initial_transmits (station s σ)
  ∧ 0 ≤ num_retries (station s σ)
  ∧ 0 ≤ busy_time (station s σ) ≤ st (station s σ).
Proof.
  intros (σ0 & q & RI & Hpop & ->)%at_end_run_inv.
  change (station s (set_now_queue TERMINATE_TIME q σ0)) with (station s σ0).
  pose proof (ri_inv _ RI) as I. pose proof (inv_queue _ I) as QI.
  pose proof (ri_time _ RI) as TI.
  pose proof (ai_nonneg _ _ (inv_acct _ I) s) as Hnt.
  pose proof (acct_le σ0 s (inv_acct _ I)) as Hle.
  pose proof (bi_nonneg _ _ (inv_busy _ I) s) as Hb.
  destruct (tm_nonneg _ TI s) as [_ Hr]. pose proof (tm_nt _ TI s) as Hns.
  unfold nt_of, nit_of, busy_of in *.
  assert (busy_time (station s σ0) ≤ st (station s σ0)); [|lia].
  apply (tm_idle _ TI). intros e i wtt He Hk.
  pose proof (qi_zero _ QI e He) as Hz. rewrite Hk in Hz. specialize (Hz eq_refl).
  pose proof (qi_now _ QI) as Hnow.
  destruct (entry_in_queue_pop _ _ _ _ Hpop He) as [->|Hin]; [done|].
  pose proof (pop_min_least _ _ _ Hpop e Hin) as Hmin.
  unfold entry_le, until_entry in Hmin. simpl in Hmin. lia.
Qed.

Lemma mean_zero_or_above_one a b :
  0 ≤ b ≤ a →
  let q := if 0 <? b then (inject_Z a / inject_Z b)%Q else 0%Q in
  q = 0%Q ∨ (1 <= q)%Q.
Proof.
  intros Hab. simpl. destruct (0 <? b) eqn:Hb; [right|by left].
  apply Z.ltb_lt in Hb.
  assert (inject_Z 0 < inject_Z b)%Q as Hbq by (rewrite <- Zlt_Qlt; lia).
  change (inject_Z 0) with 0%Q in Hbq.
  apply Qle_shift_div_l; [done|]. rewrite Qmult_1_l. rewrite <- Zle_Qle. lia.
Qed.

Lemma mean_nonneg a b :
  0 ≤ a → 0 ≤ b →
  (0 <= (if 0 <? b then (inject_Z a / inject_Z b)%Q else 0%Q))%Q.
Proof.
  intros Ha Hb0. destruct (0 <? b) eqn:Hb; [|done].
  apply Z.ltb_lt in Hb.
  assert (inject_Z 0 < inject_Z b)%Q as Hbq by (rewrite <- Zlt_Qlt; lia).
  change (inject_Z 0) with 0%Q in Hbq.
  apply Qle_shift_div_l; [done|]. rewrite Qmult_0_l.
  change 0%Q with (inject_Z 0). rewrite <- Zle_Qle. lia.
Qed.

Lemma total_le (f g : Station → Z) l :
  (∀ x, x ∈ l → f x ≤ g x) → total f l ≤ total g l.
Proof.
  unfold total.
  assert (∀ a b, a ≤ b → (∀ x, x ∈ l → f x ≤ g x) →
    foldl (fun acc x => acc + f x) a l ≤ foldl (fun acc x => acc + g x) b l) as H.
  { induction l as [|x l IH]; intros a b Hab Hl; simpl; [done|].
    apply IH; [|intros; apply Hl; by apply elem_of_cons; right].
    specialize (Hl x (ltac:(by apply elem_of_cons; left))). lia. }
  intros. by apply H.
Qed.

(** What the report of one station holds at the end of a replication. *)
Lemma station_report_props t0 σ x :
  at_end t0 σ → x ∈ stations σ →
  ∃ r, generate_report (now σ) x = Some r
       ∧ (T r = 0%Q ∨ (1 <= T r)%Q) ∧ (0 <= mean_retries r)%Q.
Proof.
  intros Hend [s ->]%station_elem.
  destruct (at_end_counters t0 σ s Hend) as (Hnt & Hni & Hr & Hb).
  assert (now σ = TERMINATE_TIME) as ->.
  { apply at_end_run_inv in Hend as (σ0 & q & _ & _ & ->). done. }
  unfold generate_report, fdiv.
  change (TERMINATE_TIME - TRANSIENT_TIME =? 0) with false. cbn iota.
  eexists. split; [done|]. cbn [T mean_retries]. split.
  - by apply mean_zero_or_above_one.
  - apply mean_nonneg; lia.
Qed.

(** What the report of the whole system holds at the end of a replication. *)
Lemma system_report_props t0 σ r :
  at_end t0 σ → generate_report_single_replication (stations σ) = Some r →
  (T r = 0%Q ∨ (1 <= T r)%Q) ∧ (0 <= mean_retries r)%Q ∧ (0 <= U r)%Q.
Proof.
  intros Hend.
  assert (∀ x, x ∈ stations σ →
            0 ≤ nt x ≤ st x ∧ nt x ≤ num_initial_transmits x
            ∧ 0 ≤ num_retries x ∧ 0 ≤ busy_time x ≤ st x) as Hall.
  { intros x [s ->]%station_elem. by apply (at_end_counters t0). }
  assert (0 ≤ total nt (stations σ) ≤ total st (stations σ)) as Hnt.
  { split; [apply total_nonneg|apply total_le]; intros x Hx; destruct (Hall x Hx); lia. }
  assert (0 ≤ total num_retries (stations σ)) as Hr.
  { apply total_nonneg. intros x Hx. destruct (Hall x Hx); lia. }
  assert (0 ≤ total num_initial_transmits (stations σ)) as Hni.
  { apply total_nonneg. intros x Hx. destruct (Hall x Hx); lia. }
  assert (0 ≤ total busy_time (stations σ)) as Hb.
  { apply total_nonneg. intros x Hx. destruct (Hall x Hx); lia. }
  unfold generate_report_single_replication.
  destruct (fdiv (total num_retries _) _) as [mr|] eqn:Hmr; [|done].
  destruct (fdiv (total busy_time _) _) as [mu|] eqn:Hmu; [|done].
  intros [= <-]. cbn [T mean_retries U]. split; [|split].
  - by apply mean_zero_or_above_one.
  - eapply fdiv_nonneg; [| |done]; [done|].
    unfold fdiv in Hmr. destruct (_ =? 0) eqn:Hz; [done|]. apply Z.eqb_neq in Hz. lia.
  - eapply fdiv_nonneg; [| |done]; [done|]. done.
Qed.

(** X9.  At the end of a replication the report of every station is
    defined; its mean transmit time is 0 (no message was transmitted) or at
    least 1, its mean number of retries is not negative, and the busy time
    of the station is part of its transmit time.  The report of the whole
    system fails (line 237) exactly when no station has counted an initial
    transmit; when it is defined, its mean transmit time is 0 or at least
    1, and its mean number of retries and its utilization are not
    negative. *)
Theorem reports_at_end_of_replication t0 σ :
  at_end t0 σ →
  (∀ x, x ∈ stations σ →
     busy_time x ≤ st x
     ∧ ∃ r, generate_report (now σ) x = Some r
            ∧ (T r = 0%Q ∨ (1 <= T r)%Q) ∧ (0 <= mean_retries r)%Q)
  ∧ (generate_report_single_replication (stations σ) = None
     ↔ total num_initial_transmits (stations σ) = 0)
  ∧ (∀ r, generate_report_single_replication (stations σ) = Some r →
       (T r = 0%Q ∨ (1 <= T r)%Q) ∧ (0 <= mean_retries r)%Q ∧ (0 <= U r)%Q).
Proof.
  intros Hend. split; [|split].
  - intros x Hx. split; [|by eapply station_report_props].
    apply station_elem in Hx as [s ->]. destruct (at_end_counters t0 σ s Hend); lia.
  - unfold generate_report_single_replication, fdiv.
    destruct (total num_initial_transmits (stations σ) =? 0) eqn:Hz.
    + apply Z.eqb_eq in Hz. done.
    + apply Z.eqb_neq in Hz. change (STEADY_STATE_TIME =? 0) with false. cbn iota. done.
  - intros r. by apply (system_report_props t0).
Qed.

(** ** The replications of one execution *)

Lemma replications_completed t0 fuel k :
  ∀ reg h t acc rs,
    starts t0 (init_replication reg h t) →
    replications fuel k reg h t acc = Completed rs →
    ∃ new, rs = acc ++ new ∧ length new = k
           ∧ ∀ r, r ∈ new →
               ∃ σ, at_end t0 σ
                    ∧ generate_report_single_replication (stations σ) = Some r.
Proof.
  induction k as [|k IH]; intros reg h t acc rs H0; simpl.
  - intros [= <-]. exists []. rewrite app_nil_r. split; [done|]. split; [done|].
    by intros r ?%elem_of_nil.
  - destruct (replication fuel reg h t) as [[σ|σ|f]|] eqn:Hrep; try done.
    destruct (mapM _ _); [|done].
    destruct (generate_report_single_replication (stations σ)) as [r|] eqn:Hr; [|done].
    intros Hrest. unfold replication in Hrep.
    apply run_stopped in Hrep as (σ1 & Hreach & Hstop).
    assert (at_end t0 σ) as Hend.
    { exists σ1. split; [|done]. by exists (init_replication reg h t). }
    apply IH in Hrest as (new & -> & Hlen & Hnew); [|by eapply starts_next].
    exists (r :: new). rewrite <- (assoc_L (++)). split; [done|].
    split; [simpl; by rewrite Hlen|].
    intros r' [->|Hin]%elem_of_cons; [eauto|by apply Hnew].
Qed.

(** X10.  When the program runs all its replications, the three lists of
    [__main__] have [NUM_REPLICATIONS] entries, one for each replication, and
    every entry is a mean transmit time that is 0 or at least 1, a mean
    number of retries that is not negative and a utilization that is not
    negative. *)
Theorem main_reports_every_replication fuel t rs :
  main fuel t = Completed rs →
  length rs = NUM_REPLICATIONS
  ∧ ∀ r, r ∈ rs →
      (T r = 0%Q ∨ (1 <= T r)%Q) ∧ (0 <= mean_retries r)%Q ∧ (0 <= U r)%Q.
Proof.
  intros Hmain. unfold main in Hmain.
  apply (replications_completed t) in Hmain as (new & -> & Hlen & Hnew);
    [|apply starts_first].
  split; [done|]. intros r Hr. destruct (Hnew r Hr) as (σ & Hend & Hrep).
  by eapply system_report_props.
Qed.

(** ** Frames and the dictionary *)

Lemma check_collision_unregistered frame fid σ f :
  (∀ key, frames_in_transmit σ !! key ≠ Some f) →
  heap (check_collision frame fid σ) !! f = heap σ !! f.
Proof.
  intros Hno. unfold check_collision. destruct (has_collision _ _ _ _); [|done].
  norm. by apply mark_all_retry_lookup_notin.
Qed.

Lemma unregistered_step σ σ' f o :
  heap σ !! f = Some o → (∀ key, frames_in_transmit σ !! key ≠ Some f) →
  step σ = Running σ' →
  heap σ' !! f = Some o ∧ ∀ key, frames_in_transmit σ' !! key ≠ Some f.
Proof.
  intros Ho Hno (m & q & Hpop & Hexec)%step_inv.
  pose proof (lookup_lt_Some _ _ _ Ho) as Hlt.
  destruct (attempt_of (e_cont m)) as [[[s0 i0] wtt0]|] eqn:Ha.
  - destruct (exec_registry_attempt _ _ _ _ _ _ Ha Hexec) as (ft & Hreg & _).
    destruct (exec_heap _ _ _ Hexec) as [[new Hh]|(s & i & wtt & ft' & r & tx & fr & Hk & _)];
      [|by rewrite Hk in Ha].
    norm. split; [rewrite Hh; by apply lookup_app_l_Some|].
    intros key. rewrite Hreg. destruct (decide (key = (s0, i0))) as [->|Hne].
    + rewrite lookup_insert_eq. intros [= <-]. lia.
    + rewrite lookup_insert_ne by done. apply Hno.
  - destruct (is_frame (e_cont m)) eqn:Hfr.
    + destruct (e_cont m) as [| | | | |s0 i0 wtt0 ft0 f0 tx0| | | | | | |] eqn:Hk; try done.
      destruct (exec_frame _ _ _ _ _ _ _ _ Hexec) as (fr & _ & Hh).
      destruct (exec_frame_end _ _ _ _ _ _ _ _ Hexec) as (_ & _ & _ & Hreg & _).
      norm. split.
      * rewrite Hh, check_collision_unregistered; done.
      * intros key. rewrite Hreg. intros [_ H]%lookup_delete_Some. by apply (Hno key).
    + rewrite (exec_registry_other _ _ _ Ha Hfr Hexec). norm. split; [|done].
      destruct (exec_heap _ _ _ Hexec) as [[new Hh]|(s & i & wtt & ft' & r & tx & fr & Hk & _)];
        [|by rewrite Hk in Hfr].
      rewrite Hh. by apply lookup_app_l_Some.
Qed.

(** X14.  A frame object that is not in the dictionary is never changed
    again, and never comes back into the dictionary: the value of
    [frame.retry] that [transmit] reads at line 165, after it has removed the
    frame, is final, and the check of one frame never reaches the frames of
    attempts that are over. *)
Theorem frame_out_of_dictionary_is_final σ σ' f o :
  heap σ !! f = Some o → (∀ key, frames_in_transmit σ !! key ≠ Some f) →
  reaches σ σ' →
  heap σ' !! f = Some o ∧ ∀ key, frames_in_transmit σ' !! key ≠ Some f.
Proof.
  intros Ho Hno Hr. induction Hr as [|σ1 σ2 σ3 Hs _ IH]; [done|].
  destruct (unregistered_step _ _ _ _ Ho Hno Hs) as [Ho2 Hno2]. by apply IH.
Qed.

Lemma state_after_visited n t : visited t (state_after n (init_replication ∅ [] t)).
Proof.
  exists (init_replication ∅ [] t). split; [apply starts_first|apply trace_reaches].
Qed.

(** X2 for the first frame of station 0 on [tape_collide]. *)
Lemma frames_have_positive_length_witness :
  heap (state_after 17 (init_replication ∅ [] tape_collide)) !! 0%nat
    = Some (mkFrame 0 5 5 true)
  ∧ end_ (mkFrame 0 5 5 true) = start (mkFrame 0 5 5 true) + frame_time (mkFrame 0 5 5 true).
Proof.
  assert (heap (state_after 17 (init_replication ∅ [] tape_collide)) !! 0%nat
          = Some (mkFrame 0 5 5 true)) as Ho by (vm_compute; reflexivity).
  split; [exact Ho|].
  exact (proj1 (frames_have_positive_length tape_collide _ 0%nat _
                  (state_after_visited 17 tape_collide) Ho)).
Defined.

(** X3 when the random source gives nothing. *)
Lemma run_stops_for_want_of_variates_only_witness :
  step (init_replication ∅ [] []) = Fault NoMoreVariates
  ∧ Forall (fun r => r = 0%N) (tape (init_replication ∅ [] [])).
Proof.
  assert (step (init_replication ∅ [] []) = Fault NoMoreVariates) as Hs
    by (vm_compute; reflexivity).
  split; [exact Hs|].
  refine (proj2 (run_stops_for_want_of_variates_only [] (init_replication ∅ [] [])
                   NoMoreVariates _ Hs)).
  exists (init_replication ∅ [] []). split; [apply starts_first|apply rtc_refl].
Defined.

(** X4 for station 0 on [tape_collide], while its first frame is on the
    air. *)
Lemma station_counts_its_messages_witness :
  n (station 0 (state_after 16 (init_replication ∅ [] tape_collide)))
  = Z.of_nat
      (length (users (server (station 0 (state_after 16 (init_replication ∅ [] tape_collide)))))
       + length (put_queue (server (station 0 (state_after 16 (init_replication ∅ [] tape_collide)))))).
Proof.
  exact (proj1 (station_counts_its_messages tape_collide _ 0%nat
                  (state_after_visited 16 tape_collide))).
Defined.

(** X5 for the first message of station 0 on [tape_collide]. *)
Lemma popleft_returns_own_arrival_witness :
  ∃ a rest,
    arrivals (station 0 (state_after 10 (init_replication ∅ [] tape_collide))) = a :: rest
    ∧ a_name a = 0%nat ∧ 0 ≤ a_time a ≤ 0
    ∧ a_name <$> rest
      = put_queue (server (station 0 (state_after 10 (init_replication ∅ [] tape_collide)))).
Proof.
  apply (popleft_returns_own_arrival tape_collide _ (mkEntry 0 NORMAL 19 (KWfsReq 0 0)) 0%nat 0%nat
           (state_after_visited 10 tape_collide)).
  - eexists. vm_compute; reflexivity.
  - reflexivity.
Defined.

(** X6 for the frame of station 0 on [tape_collide]. *)
Lemma one_frame_per_station_witness :
  users (server (station 0 (state_after 16 (init_replication ∅ [] tape_collide))))
  = [0%nat].
Proof.
  assert (in_transmit (state_after 16 (init_replication ∅ [] tape_collide))
            (mkEntry 5 NORMAL 21 (KTransmitFrame 0 0 0 5 0 0)) 0 0 0) as Hin.
  { split; [apply (list_elem_of_lookup_2 _ 2); vm_compute; reflexivity|].
    eexists _, _, _. reflexivity. }
  exact (proj2 (proj2 (proj2 (one_frame_per_station tape_collide _ 0%nat _ _ _ _ _ _
                                (state_after_visited 16 tape_collide) Hin Hin)))).
Defined.

(** X7 on [tape_collide], after 16 events. *)
Lemma clock_runs_forward_witness :
  0 ≤ now (state_after 16 (init_replication ∅ [] tape_collide)) < TERMINATE_TIME.
Proof.
  exact (proj1 (clock_runs_forward tape_collide _ (state_after_visited 16 tape_collide))).
Defined.

(** X8 for the first attempt of station 0 on [tape_collide], which
    collides. *)
Lemma attempt_end_accounts_witness :
  ∃ σ' o, step (state_after 16 (init_replication ∅ [] tape_collide)) = Running σ'
    ∧ 5 = 0 + 5 ∧ now σ' = 0 + 5
    ∧ frames_in_transmit σ' !! (0, 0)%nat = None
    ∧ heap σ' !! 0%nat = Some o
    ∧ start o = 0 ∧ end_ o = 0 + 5 ∧ frame_time o = 5
    ∧ (if retry o
       then num_retries (station 0 σ')
            = num_retries (station 0 (state_after 16 (init_replication ∅ [] tape_collide))) + 1
            ∧ busy_time (station 0 σ')
              = busy_time (station 0 (state_after 16 (init_replication ∅ [] tape_collide)))
       else num_retries (station 0 σ')
            = num_retries (station 0 (state_after 16 (init_replication ∅ [] tape_collide)))
            ∧ busy_time (station 0 σ')
              = busy_time (station 0 (state_after 16 (init_replication ∅ [] tape_collide))) + 5).
Proof.
  apply (attempt_end_accounts tape_collide _ (mkEntry 5 NORMAL 21 (KTransmitFrame 0 0 0 5 0 0))
           0%nat 0%nat 0 5 0%nat 0 (state_after_visited 16 tape_collide)).
  - eexists. vm_compute; reflexivity.
  - reflexivity.
Defined.

(** X9 at the end of the replication on [tape_collide]. *)
Lemma reports_at_end_of_replication_witness :
  at_end tape_collide (end_of 100 tape_collide)
  ∧ (generate_report_single_replication (stations (end_of 100 tape_collide)) = None
     ↔ total num_initial_transmits (stations (end_of 100 tape_collide)) = 0).
Proof.
  assert (at_end tape_collide (end_of 100 tape_collide)) as Hend.
  { apply (replication_at_end 100). vm_compute; reflexivity. }
  split; [exact Hend|].
  exact (proj1 (proj2 (reports_at_end_of_replication tape_collide _ Hend))).
Defined.

(** X10 for the program on [tape_ten]. *)
Lemma main_reports_every_replication_witness :
  ∃ rs, main 200 tape_ten = Completed rs ∧ length rs = NUM_REPLICATIONS.
Proof.
  eexists. split; [vm_compute; reflexivity|].
  refine (proj1 (main_reports_every_replication 200 tape_ten _ _)).
  vm_compute; reflexivity.
Defined.

(** X11 for the frame of station 0 on [tape_collide]. *)
Lemma registered_frames_are_on_air_witness :
  (∃ e, in_transmit (state_after 16 (init_replication ∅ [] tape_collide)) e 0 0 0)
  ∨ (frames_in_transmit (init_replication ∅ [] tape_collide) !! (0, 0)%nat = Some 0%nat
     ∧ init_replication ∅ [] tape_collide ≠ init_replication ∅ [] tape_collide).
Proof.
  apply (registered_frames_are_on_air tape_collide (init_replication ∅ [] tape_collide)
           (state_after 16 (init_replication ∅ [] tape_collide)) 0%nat 0%nat 0%nat).
  - apply starts_first.
  - apply trace_reaches.
  - vm_compute; reflexivity.
Defined.

(** X13 for station 1 on [tape_collide]. *)
Lemma arrive_numbers_are_fresh_witness :
  ∃ a j, a ∈ queue (state_after 16 (init_replication ∅ [] tape_collide))
         ∧ arrive_of (e_cont a) = Some (1%nat, j).
Proof.
  destruct (arrive_numbers_are_fresh tape_collide _ 1%nat
              (state_after_visited 16 tape_collide)) as (a & j & Ha & Hk & _).
  - unfold NUM_STATIONS. lia.
  - exists a, j. split; [exact Ha|exact Hk].
Defined.

(** X14 for the first frame of station 0 on [tape_collide], after its
    attempt has ended. *)
Lemma frame_out_of_dictionary_is_final_witness :
  heap (state_after 3 (state_after 17 (init_replication ∅ [] tape_collide))) !! 0%nat
  = Some (mkFrame 0 5 5 true).
Proof.
  refine (proj1 (frame_out_of_dictionary_is_final
                   (state_after 17 (init_replication ∅ [] tape_collide))
                   (state_after 3 (state_after 17 (init_replication ∅ [] tape_collide)))
                   0%nat (mkFrame 0 5 5 true) _ _ (trace_reaches 3 _))).
  - vm_compute; reflexivity.
  - assert (frames_in_transmit (state_after 17 (init_replication ∅ [] tape_collide))
            = {[ (1, 0)%nat := 1%nat ]}) as Heq by (vm_compute; reflexivity).
    intros key Hk. rewrite Heq in Hk.
    apply lookup_singleton_Some in Hk as [_ Hk]. discriminate.
Defined.

(** ** The reset of the counters *)

Lemma step_reset σ σ' k s :
  queue_inv σ → step σ = Running σ' → label σ = Some k →
  reset_step s σ σ' = true
  ↔ (∃ j wtt, k = KTransmitEnd s j wtt) ∧ reset_of s σ = false
    ∧ TRANSIENT_TIME ≤ now σ'.
Proof.
  intros QI Hstep (m & q & Hpop & Hk)%label_pop.
  destruct (step_inv _ _ Hstep) as (m' & q' & Hpop' & Hexec).
  assert (m' = m ∧ q' = q) as [-> ->] by (split; congruence). clear Hpop'.
  pose proof (popped_in_queue _ _ _ Hpop) as Hm.
  assert (cont_ok (now (set_now_queue (e_time m) q σ)) (e_cont m)) as Hok.
  { norm. eapply cont_ok_mono; [by apply (qi_time _ QI m)|by apply (qi_cont _ QI m)]. }
  pose proof (exec_now _ _ _ Hok Hexec) as Hnow.
  destruct (exec_stats _ _ _ Hok (qi_stations _ QI) Hexec) as (b & Hst & _).
  change (now (set_now_queue (e_time m) q σ)) with (e_time m) in Hnow.
  specialize (Hst s).
  change (stats_of (station s σ')
          = stats_of (stat_step (e_cont m) (e_time m) b s (station s σ))) in Hst.
  apply stats_fields in Hst as (_ & _ & _ & _ & _ & Hfl).
  unfold reset_step, reset_of. rewrite Hfl, Hnow, Hk. clear Hfl.
  assert (negb (initial_reset_completed (station s σ))
          && initial_reset_completed (station s σ) = false) as Hsame
    by (by destruct (initial_reset_completed _)).
  destruct k; simpl; repeat (destruct (decide _); simplify_eq);
    try (destruct b); simpl;
    try (rewrite Hsame; split; [done|by intros ((? & ? & [=]) & _)]).
  all: unfold wfs_complete; simpl;
    destruct (initial_reset_completed (station s0 σ)) eqn:Hf; simpl;
    [split; [done|by intros (_ & ? & _)]|];
    destruct (e_time m >=? TRANSIENT_TIME) eqn:Hge; simpl;
    [apply Z.geb_le in Hge; split; [eauto|done]|];
    rewrite ?Hf; simpl; (split; [done|]); intros (_ & _ & Hle);
    apply Z.geb_le in Hle; congruence.
Qed.

(** X16.  What the code does about the reset of the counters of a station
    (lines 197-200).  In a replication they are reset at most once.  The
    step that resets them is the step that ends [wait_for_service] for a
    message of the station (lines 191-200) while [initial_reset_completed]
    is not set and the time is [TRANSIENT_TIME] or later, and every such
    step resets them; it leaves the counters at zero.  No other step lowers
    a counter or changes [initial_reset_completed]. *)
Theorem counters_reset_at_first_late_completion t0 σ0 l s :
  starts t0 σ0 → path σ0 l →
  (num_resets s σ0 l ≤ 1)%nat
  ∧ ∀ i σ σ' k, (σ0 :: l) !! i = Some σ → l !! i = Some σ' → label σ = Some k →
      (reset_step s σ σ' = true
       ↔ (∃ j wtt, k = KTransmitEnd s j wtt) ∧ reset_of s σ = false
         ∧ TRANSIENT_TIME ≤ now σ')
      ∧ (reset_step s σ σ' = true → counters_zero (station s σ'))
      ∧ (reset_step s σ σ' = false →
         counters_le (station s σ) (station s σ')
         ∧ reset_of s σ' = reset_of s σ).
Proof.
  intros H0 Hp. pose proof (inv_starts _ _ H0) as I. split.
  - by apply num_resets_le.
  - intros i σ σ' k Hi Hi' Hk.
    destruct (path_lookup _ _ _ _ _ I Hp Hi Hi') as [Iσ Hs].
    destruct (step_counters _ _ s (inv_queue _ Iσ) Hs) as [Hno Hyes].
    split; [by apply step_reset; [apply Iσ|..]|]. split; [|done].
    intros Hr. by destruct (Hyes Hr).
Qed.

(** X16 along the replication on [tape_busy], for station 1. *)
Lemma counters_reset_at_first_late_completion_witness :
  starts tape_busy (init_replication ∅ [] tape_busy)
  ∧ path (init_replication ∅ [] tape_busy) (trace 100 (init_replication ∅ [] tape_busy))
  ∧ (num_resets 1 (init_replication ∅ [] tape_busy)
       (trace 100 (init_replication ∅ [] tape_busy)) ≤ 1)%nat.
Proof.
  split; [apply starts_first|]. split; [apply trace_path|].
  exact (proj1 (counters_reset_at_first_late_completion tape_busy _ _ 1
                  (starts_first _) (trace_path _ _))).
Defined.

(** C7.  The code does not have the property.  The counters are reset by
    lines 197-200 only, when a message of the station ends at
    [TRANSIENT_TIME] or later.  On [tape_busy] the one message of station 0
    ends at time 24: no step of the replication resets the counters of
    station 0, [initial_reset_completed] is still [False] when the
    replication stops, and the counters that are reported are those of the
    transient period. *)
Theorem transient_counters_are_reported :
  ∃ σl σ,
    last (trace 100 (init_replication ∅ [] tape_busy)) = Some σl
    ∧ step σl = Stopped σ
    ∧ replication 100 ∅ [] tape_busy = Some (Stopped σ)
    ∧ num_resets 0 (init_replication ∅ [] tape_busy)
        (trace 100 (init_replication ∅ [] tape_busy)) = 0%nat
    ∧ initial_reset_completed (station 0 σ) = false
    ∧ counters (station 0 σ) = (1, 24, 0, 1, 24).
Proof.
  eexists _, _. split; [vm_compute; reflexivity|].
  split; [vm_compute; reflexivity|]. split; [vm_compute; reflexivity|].
  split; [vm_compute; reflexivity|]. split; vm_compute; reflexivity.
Qed.
